(** * bulk-upload.js / bulk-update.js: the row-processing pipeline

    A shallow embedding of the CSV-to-WordPress synchroniser: the string
    helpers of the duplicate detector ([normalizeTitle]), the Drive link
    rewrite, the media ingestor, the term resolver and the two row
    reconcilers ([createOrUpdatePost] of bulk-upload.js and [updatePost]
    of bulk-update.js), over an explicit model of the remote REST API.

    What the model leaves out: console output and the log file, and the
    optional progress callback (it is handed messages only and is taken
    not to throw).  A successful answer of the remote API has the shape the
    source reads from it (a post answer has an id and a status, a listing
    is a list of posts); a failing request throws.

    Layout: Part I holds the definitions, Part II the lemmas and theorems. *)

From Stdlib Require Import String Ascii List ZArith Lia Bool Arith.
From Stdlib Require DecimalString.
Import ListNotations.
Open Scope list_scope.

(* ===================================================================== *)
(** * Part I. Definitions *)
(* ===================================================================== *)

(** ** JavaScript strings

    A string is the list of its UTF-16 code units.  The model covers the
    code units U+0000..U+00FF (one [ascii] each, read as Latin-1): white
    space and case mapping are the ECMAScript ones restricted to that
    range.  Code units above U+00FF are outside the model. *)

Definition str := list ascii.

(** A literal of the source. *)
Definition js (s : string) : str := list_ascii_of_string s.

Definition dquote : ascii := ascii_of_nat 34.

Definition str_eqb (a b : str) : bool :=
  if list_eq_dec ascii_dec a b then true else false.

(** [\s] and the white space of [trim]: TAB, LF, VT, FF, CR, SP, NBSP. *)
Definition is_space (c : ascii) : bool :=
  let n := nat_of_ascii c in
  ((9 <=? n) && (n <=? 13)) || (n =? 32) || (n =? 160).

(** [toLowerCase] on one code unit: A-Z, and the Latin-1 capitals
    U+00C0..U+00DE without the multiplication sign U+00D7. *)
Definition to_lower (c : ascii) : ascii :=
  let n := nat_of_ascii c in
  if ((65 <=? n) && (n <=? 90))
     || ((192 <=? n) && (n <=? 222) && negb (n =? 215))
  then ascii_of_nat (n + 32) else c.

Definition toLowerCase (s : str) : str := map to_lower s.

Fixpoint trimStart (s : str) : str :=
  match s with
  | [] => []
  | c :: r => if is_space c then trimStart r else s
  end.

Fixpoint trimEnd (s : str) : str :=
  match s with
  | [] => []
  | c :: r =>
      match trimEnd r with
      | [] => if is_space c then [] else [c]
      | t => c :: t
      end
  end.

(** [String.prototype.trim]. *)
Definition trim (s : str) : str := trimEnd (trimStart s).

Fixpoint startsWith (p s : str) : bool :=
  match p, s with
  | [], _ => true
  | a :: p', b :: s' => Ascii.eqb a b && startsWith p' s'
  | _ :: _, [] => false
  end.

(** [String.prototype.includes]. *)
Fixpoint includes (p s : str) : bool :=
  startsWith p s ||
  match s with
  | [] => false
  | _ :: r => includes p r
  end.

(** Number of characters before the first [c] in [s]. *)
Fixpoint index_of (c : ascii) (s : str) : option nat :=
  match s with
  | [] => None
  | d :: r => if Ascii.eqb d c then Some 0 else option_map S (index_of c r)
  end.

(** Length of the longest prefix whose characters all satisfy [p]. *)
Fixpoint lead (p : ascii -> bool) (s : str) : nat :=
  match s with
  | [] => 0
  | c :: r => if p c then S (lead p r) else 0
  end.

(** [split(sep)] on a one-character separator. *)
Fixpoint split_on (sep : ascii) (s : str) : list str :=
  match s with
  | [] => [[]]
  | c :: r =>
      if Ascii.eqb c sep then [] :: split_on sep r
      else match split_on sep r with
           | [] => [[c]]
           | w :: ws => (c :: w) :: ws
           end
  end.

(** Truthiness of a JavaScript string: the empty string is falsy. *)
Definition nonempty (s : str) : bool :=
  match s with [] => false | _ :: _ => true end.

(** ** Global regular-expression replace

    A matcher tries one regular expression at the head of the text and
    returns the length of the match.  [replaceAll m rep] is
    [s.replace(/re/g, rep)]: scan from the left, replace each match and
    resume after it. *)

Definition matcher := str -> option nat.

Fixpoint replace_from (m : matcher) (rep : str) (skip : nat) (s : str) : str :=
  match s with
  | [] => []
  | c :: r =>
      match skip with
      | S k => replace_from m rep k r
      | O =>
          match m s with
          | Some n => rep ++ replace_from m rep (pred n) r
          | None => c :: replace_from m rep 0 r
          end
      end
  end.

Definition replaceAll (m : matcher) (rep : str) (s : str) : str :=
  replace_from m rep 0 s.

(** A literal pattern such as [/&nbsp;/]. *)
Definition m_lit (p : str) : matcher :=
  fun s => if startsWith p s then Some (length p) else None.

(** [/<[^>]*>/]: from a [<] to the first [>] after it. *)
Definition m_tag : matcher :=
  fun s =>
    match s with
    | c :: r =>
        if Ascii.eqb c "<" then option_map (fun k => S (S k)) (index_of ">" r)
        else None
    | [] => None
    end.

(** [/&[^;]+;/]: an ampersand, at least one character that is not a
    semicolon, up to the first semicolon. *)
Definition m_entity : matcher :=
  fun s =>
    match s with
    | c :: x :: r =>
        if Ascii.eqb c "&" && negb (Ascii.eqb x ";")
        then option_map (fun k => S (S (S k))) (index_of ";" r)
        else None
    | _ => None
    end.

(** [/\s+/]: a maximal run of white space. *)
Definition m_ws : matcher :=
  fun s =>
    match s with
    | c :: r => if is_space c then Some (S (lead is_space r)) else None
    | [] => None
    end.

(** ** normalizeTitle (bulk-upload.js 422-439, bulk-update.js 1239-1254) *)

Definition normalizeTitle (s : str) : str :=
  match s with
  | [] => []
  | _ =>
    trim (toLowerCase (
      replaceAll m_ws (js " ") (
      replaceAll m_entity [] (
      replaceAll (m_lit (js "&#038;")) (js "&") (
      replaceAll (m_lit (js "&#39;")) (js "'") (
      replaceAll (m_lit (js "&#8216;")) (js "'") (
      replaceAll (m_lit (js "&#8217;")) (js "'") (
      replaceAll (m_lit (js "&quot;")) [dquote] (
      replaceAll (m_lit (js "&amp;")) (js "&") (
      replaceAll (m_lit (js "&nbsp;")) (js " ") (
      replaceAll m_tag [] s)))))))))))
  end.

(** ** Normal forms of the normalisation steps *)

(** No match of [m] starts anywhere in [s]. *)
Fixpoint nomatch (m : matcher) (s : str) : Prop :=
  match s with
  | [] => True
  | _ :: r => m s = None /\ nomatch m r
  end.

(** No [<] is followed, anywhere later, by a [>]: no tag is left. *)
Fixpoint tagfree (s : str) : Prop :=
  match s with
  | [] => True
  | c :: r => (c = "<"%char -> ~ In ">"%char r) /\ tagfree r
  end.

(** Every [&] is directly followed by a [;] or has no [;] after it: no
    entity is left. *)
Fixpoint entfree (s : str) : Prop :=
  match s with
  | [] => True
  | c :: r =>
      (c = "&"%char -> hd_error r = Some ";"%char \/ ~ In ";"%char r)
      /\ entfree r
  end.

(** Every white-space character is a single space followed by something
    that is not white space. *)
Fixpoint wsnormal (s : str) : Prop :=
  match s with
  | [] => True
  | c :: r =>
      (is_space c = true ->
       c = " "%char /\ match r with [] => True | d :: _ => is_space d = false end)
      /\ wsnormal r
  end.

Definition lowered (s : str) : Prop := Forall (fun c => to_lower c = c) s.

(** ** convertGoogleDriveUrl (bulk-upload.js 311-328) *)

(** [[a-zA-Z0-9_-]]. *)
Definition is_id_char (c : ascii) : bool :=
  let n := nat_of_ascii c in
  ((97 <=? n) && (n <=? 122)) || ((65 <=? n) && (n <=? 90))
  || ((48 <=? n) && (n <=? 57)) || (n =? 95) || (n =? 45).

(** The group captured by the leftmost match of [/PREFIX(CLASS+)/]. *)
Fixpoint capture_after (prefix : str) (cls : ascii -> bool) (s : str) : option str :=
  match s with
  | [] => None
  | _ :: r =>
      if startsWith prefix s && (0 <? lead cls (skipn (length prefix) s))
      then let rest := skipn (length prefix) s in
           Some (firstn (lead cls rest) rest)
      else capture_after prefix cls r
  end.

Definition direct_download : str :=
  js "https://drive.google.com/uc?export=download&id=".

Definition convertGoogleDriveUrl (url : str) : str :=
  if negb (nonempty url) then url
  else if includes (js "drive.google.com") url then
    let idMatch :=
      match capture_after (js "/d/") is_id_char url with
      | Some g => Some g
      | None => capture_after (js "id=") is_id_char url
      end in
    match idMatch with
    | Some fileId => direct_download ++ fileId
    | None => url
    end
  else url.

(** ** Data of the pipeline *)

(** [error.response.data]: the text [JSON.stringify] prints for the value,
    and whether the value is truthy; null, false, 0, NaN and the empty
    string are falsy. *)
Inductive ResponseBody :=
| Truthy (text : str)
| Falsy (text : str).

(** A thrown value: [error.message], and [error.response.data] and
    [error.response.status] when the remote answered. *)
Record Exn := {
  message : str;
  response_data : option ResponseBody;
  response_status : option Z
}.

(** [new Error(msg)]. *)
Definition Error (msg : str) : Exn :=
  {| message := msg; response_data := None; response_status := None |}.

(** One CSV record; a column that the file does not have is [None]. *)
Record Row := {
  title : option str;
  content : option str;
  status : option str;
  slug : option str;
  excerpt : option str;
  categories : option str;
  tags : option str;
  featured_image_path : option str;
  featured_image_url : option str;
  acf_json : option str;
  meta_title : option str;
  meta_description : option str;
  focus_keyword : option str;
  post_id : option str
}.

Inductive Action := created | updated.

(** The per-row result object; [None] is JavaScript's [null]. *)
Record Outcome := {
  rowNumber : nat;
  resTitle : str;
  action : option Action;
  postId : option Z;
  resStatus : option str;
  error : option str
}.

Record Config := { default_status : str; request_delay_ms : Z }.

Inductive Taxonomy := tax_categories | tax_tags.

Record Term := { term_id : Z; term_name : str }.

(** [post.title] as the REST API may send it: an object with [rendered]
    and [raw], a plain string, or nothing. *)
Inductive PostTitle :=
| TitleObject (rendered raw : option str)
| TitleString (s : str)
| TitleAbsent.

Record Post := { p_id : Z; p_title : PostTitle; p_status : str }.

Record HttpResponse := {
  content_type : option str;
  content_disposition : option str;
  body : str
}.

Record Downloaded := { buffer : str; mimeType : str; fileName : str }.

Record ListParams := {
  per_page : nat; page : nat; lp_status : str; orderby : str; order : str
}.

(** Node built-ins and third-party packages the source calls. *)
Class NodeLib := {
  Json : Type;
  (** [JSON.parse]; [None] when it throws. *)
  JSON_parse : str -> option Json;
  (** [new URL(u).pathname]; [None] when the constructor throws. *)
  url_pathname : str -> option str;
  path_basename : str -> str;
  path_extname : str -> str;
  (** [path.resolve(__dirname, p)]. *)
  path_resolve : str -> str;
  (** [mime.extension]; [None] for [false]. *)
  mime_extension : option str -> option str;
  (** [mime.lookup]; [None] for [false]. *)
  mime_lookup : str -> option str;
  (** [fileName.replace(new RegExp(`\\.${ext}$`), rep)] for an [ext] with
      regular-expression metacharacters or a [rep] with a dollar sign;
      [None] when the constructor throws. *)
  regexp_replace_ext : str -> str -> str -> option str
}.

Section Payloads.
Context {N : NodeLib}.

Inductive Value :=
| VStr (s : str)
| VIds (ids : list Z)
| VNum (z : Z)
| VJson (j : Json).

(** A request body: the object's own keys in insertion order. *)
Definition Payload := list (string * Value).

Fixpoint set_key (k : string) (v : Value) (p : Payload) : Payload :=
  match p with
  | [] => [(k, v)]
  | (k', v') :: r =>
      if String.eqb k k' then (k, v) :: r else (k', v') :: set_key k v r
  end.

Fixpoint get_key (k : string) (p : Payload) : option Value :=
  match p with
  | [] => None
  | (k', v) :: r => if String.eqb k k' then Some v else get_key k r
  end.

(** [p.k] read as a string ([undefined] reads as the empty string). *)
Definition str_field (k : string) (p : Payload) : str :=
  match get_key k p with
  | Some (VStr v) => v
  | _ => []
  end.

(** Everything the pipeline asks of the outside world. *)
Inductive Request :=
| GetTerms (taxonomy : Taxonomy) (search : str) (perPage : nat)
| CreateTerm (taxonomy : Taxonomy) (name : str)
| PostMedia (fileBuffer mime fname : str)
| GetPostsBySlug (s : str) (perPage : nat)
| ListPosts (params : ListParams)
| GetPost (ref : str)
| CreatePost (postData : Payload)
| UpdatePost (id : Z) (postData : Payload)
| HttpGet (url : str)
| FsExists (path : str)
| FsRead (path : str).

(** What a successful request returns ([response.data]). *)
Definition answer (r : Request) : Type :=
  match r with
  | GetTerms _ _ _ => list Term
  | CreateTerm _ _ => Z
  | PostMedia _ _ _ => Z
  | GetPostsBySlug _ _ => list Post
  | ListPosts _ => list Post
  | GetPost _ => Post
  | CreatePost _ => Post
  | UpdatePost _ _ => Post
  | HttpGet _ => HttpResponse
  | FsExists _ => bool
  | FsRead _ => str
  end.

(** The remote writes: term creation, media upload, post create and update. *)
Definition is_write (r : Request) : bool :=
  match r with
  | CreateTerm _ _ | PostMedia _ _ _ | CreatePost _ | UpdatePost _ _ => true
  | _ => false
  end.

Inductive Event :=
| Sleep (ms : Z)
| Call (r : Request).

End Payloads.

(** The outside world: the remote site, the web and the file system.
    A request either throws or answers, and may change the world. *)
Class Remote {N : NodeLib} := {
  World : Type;
  remote : forall r : Request, World -> (Exn + answer r) * World;
  (** The module-level [defaultConfig]. *)
  defaultConfig : Config
}.

(** ** Effects

    A computation runs on a state, throws or returns, and emits the
    events it caused, oldest first.  [await] is sequencing. *)

Definition M (S A : Type) {N : NodeLib} : Type :=
  S -> (Exn + A) * S * list Event.

Section Monad.
Context {N : NodeLib} {S : Type}.

Definition ret {A} (a : A) : M S A := fun s => (inr a, s, []).

Definition throw {A} (e : Exn) : M S A := fun s => (inl e, s, []).

Definition bind {A B} (m : M S A) (k : A -> M S B) : M S B :=
  fun s =>
    match m s with
    | (inl e, s1, ev1) => (inl e, s1, ev1)
    | (inr a, s1, ev1) =>
        match k a s1 with
        | (o, s2, ev2) => (o, s2, ev1 ++ ev2)
        end
    end.

(** [try { m } catch (error) { h error }]. *)
Definition try_catch {A} (m : M S A) (h : Exn -> M S A) : M S A :=
  fun s =>
    match m s with
    | (inl e, s1, ev1) =>
        match h e s1 with
        | (o, s2, ev2) => (o, s2, ev1 ++ ev2)
        end
    | (inr a, s1, ev1) => (inr a, s1, ev1)
    end.

End Monad.

Notation "x <- m ;; k" := (bind m (fun x => k))
  (at level 61, m at next level, right associativity).
Notation "m ;;; k" := (bind m (fun _ => k))
  (at level 61, right associativity).

Definition outcome_of {S A} {N : NodeLib} (r : (Exn + A) * S * list Event) : Exn + A :=
  fst (fst r).
Definition state_of {S A} {N : NodeLib} (r : (Exn + A) * S * list Event) : S :=
  snd (fst r).
Definition events_of {S A} {N : NodeLib} (r : (Exn + A) * S * list Event) : list Event :=
  snd r.

(** ** Small helpers of the source's idioms *)

(** [field?.trim()] where the source tests it: the trimmed text when the
    column is present and not blank. *)
Definition trimmed (f : option str) : option str :=
  match f with
  | Some s => if nonempty (trim s) then Some (trim s) else None
  | None => None
  end.

(** The column as written ([row.field] inside a template string). *)
Definition raw_of (f : option str) : str :=
  match f with Some s => s | None => [] end.

(** Truthiness of an identifier: [null] and [0] are falsy. *)
Definition truthy (o : option Z) : option Z :=
  match o with
  | Some z => if Z.eqb z 0 then None else Some z
  | None => None
  end.

(** [a || b] on strings that may be missing. *)
Definition or_str (a : option str) (b : str) : str :=
  match a with
  | Some s => if nonempty s then s else b
  | None => b
  end.

Definition Z_to_str (z : Z) : str :=
  js (DecimalString.NilZero.string_of_int (Z.to_int z)).

Definition quoted (s : str) : str := dquote :: s ++ [dquote].

Section Shared.
Context {N : NodeLib} {R : Remote}.

(** One request: ask the world, record the call. *)
Definition call (r : Request) : M World (answer r) :=
  fun w => let (o, w') := remote r w in (o, w', [Call r]).

(** [await sleep(ms)]. *)
Definition sleep (ms : Z) : M World unit :=
  fun w => (inr tt, w, [Sleep ms]).

(** *** getOrCreateTerm (bulk-upload.js 188-220, bulk-update.js 1060-1090) *)

Definition getOrCreateTerm (name : str) (taxonomy : Taxonomy) (config : Config)
  : M World (option Z) :=
  if negb (nonempty (trim name)) then ret None
  else
    let trimmedName := trim name in
    try_catch
      (found <- call (GetTerms taxonomy trimmedName 100) ;;
       match find (fun t => str_eqb (toLowerCase (term_name t))
                                    (toLowerCase trimmedName)) found with
       | Some existing => ret (Some (term_id existing))
       | None =>
           sleep (request_delay_ms config) ;;;
           id <- call (CreateTerm taxonomy trimmedName) ;;
           ret (Some id)
       end)
      (fun _ => ret None).

(** *** resolveTerms (bulk-upload.js 225-242, bulk-update.js 1095-1112) *)

Fixpoint resolveTerms_loop (names : list str) (taxonomy : Taxonomy)
  (config : Config) (termIds : list Z) : M World (list Z) :=
  match names with
  | [] => ret termIds
  | name :: rest =>
      id <- getOrCreateTerm name taxonomy config ;;
      let termIds :=
        match truthy id with Some i => termIds ++ [i] | None => termIds end in
      sleep (request_delay_ms config) ;;;
      resolveTerms_loop rest taxonomy config termIds
  end.

Definition term_names (termString : str) : list str :=
  filter nonempty (map trim (split_on "," termString)).

Definition resolveTerms (termString : str) (taxonomy : Taxonomy) (config : Config)
  : M World (list Z) :=
  if negb (nonempty (trim termString)) then ret []
  else resolveTerms_loop (term_names termString) taxonomy config [].

(** *** findPostBySlug (bulk-upload.js 392-411, bulk-update.js 1210-1229) *)

Definition findPostBySlug (slug : str) : M World (option Z) :=
  if negb (nonempty (trim slug)) then ret None
  else
    try_catch
      (posts <- call (GetPostsBySlug (trim slug) 1) ;;
       match posts with
       | post :: _ => ret (Some (p_id post))
       | [] => ret None
       end)
      (fun _ => ret None).

(** *** findPostByTitle (bulk-upload.js 416-515, bulk-update.js 1234-1303) *)

(** [post.title?.rendered || post.title?.raw || post.title || ''].
    [None]: the value is the title object itself, on which
    [normalizeTitle] throws a TypeError ([str.replace] is not a function). *)
Definition postTitleRaw (post : Post) : option str :=
  match p_title post with
  | TitleObject rendered raw =>
      match rendered with
      | Some (c :: r) => Some (c :: r)
      | _ => match raw with
             | Some (c :: r) => Some (c :: r)
             | _ => None
             end
      end
  | TitleString s => Some s
  | TitleAbsent => Some []
  end.

Inductive Scan := Found (id : Z) | NotFound | Raised.

(** [for (const post of response.data)]: the first post whose normalised
    title is the searched one. *)
Fixpoint scan_posts (posts : list Post) (normalizedSearchTitle : str) : Scan :=
  match posts with
  | [] => NotFound
  | post :: rest =>
      match postTitleRaw post with
      | None => Raised
      | Some postTitle =>
          if str_eqb (normalizeTitle postTitle) normalizedSearchTitle
          then Found (p_id post)
          else scan_posts rest normalizedSearchTitle
      end
  end.

Definition perPage : nat := 100.

Definition listing (pageNo : nat) : ListParams :=
  {| per_page := perPage; page := pageNo; lp_status := js "any";
     orderby := js "date"; order := js "desc" |}.

Definition TypeError : Exn := Error (js "str.replace is not a function").

(** [while (hasMore)], one iteration per unit of fuel; [None] when the
    fuel runs out before the loop ends. *)
Fixpoint title_pages (fuel : nat) (pageNo : nat) (normalizedSearchTitle : str)
  : M World (option (option Z)) :=
  match fuel with
  | O => ret None
  | S fuel' =>
      posts <- call (ListPosts (listing pageNo)) ;;
      match posts with
      | [] => ret (Some None)
      | _ :: _ =>
          match scan_posts posts normalizedSearchTitle with
          | Raised => throw TypeError
          | Found id => ret (Some (Some id))
          | NotFound =>
              if length posts <? perPage then ret (Some None)
              else
                let pageNo := S pageNo in
                if 10 <? pageNo then ret (Some None)
                else title_pages fuel' pageNo normalizedSearchTitle
          end
      end
  end.

Definition findPostByTitle (t : str) : M World (option Z) :=
  if negb (nonempty (trim t)) then ret None
  else
    try_catch
      (r <- title_pages 10 1 (normalizeTitle t) ;;
       ret (match r with Some found => found | None => None end))
      (fun _ => ret None).

End Shared.

(** ** Row-level state

    A row function owns its [result] object and mutates it inside the
    [try]; the [catch] block sees the object as the [try] left it.  The
    state of a row computation is that object together with the world. *)

Section RowState.
Context {N : NodeLib} {R : Remote}.

Definition lift {A} (m : M World A) : M (Outcome * World) A :=
  fun s =>
    match m (snd s) with
    | (o, w', ev) => (o, (fst s, w'), ev)
    end.

Definition modify (f : Outcome -> Outcome) : M (Outcome * World) unit :=
  fun s => (inr tt, (f (fst s), snd s), []).

Definition initial_result (row : Row) (n : nat) : Outcome :=
  {| rowNumber := n;
     resTitle := or_str (title row) (js "Untitled");
     action := None; postId := None; resStatus := None; error := None |}.

Definition set_postId (z : Z) (r : Outcome) : Outcome :=
  {| rowNumber := rowNumber r; resTitle := resTitle r; action := action r;
     postId := Some z; resStatus := resStatus r; error := error r |}.

(** [result.action = a; result.postId = data.id; result.status = data.status]. *)
Definition record_success (a : Action) (data : Post) (r : Outcome) : Outcome :=
  {| rowNumber := rowNumber r; resTitle := resTitle r; action := Some a;
     postId := Some (p_id data); resStatus := Some (p_status data);
     error := error r |}.

(** The text the [catch] block stores (bulk-upload.js 666-669,
    bulk-update.js 1437-1440): the message, followed by the response body
    when [error.response?.data] is truthy. *)
Definition error_text (e : Exn) : str :=
  match response_data e with
  | Some (Truthy data) => message e ++ js ": " ++ data
  | _ => message e
  end.

Definition record_error (e : Exn) (r : Outcome) : Outcome :=
  {| rowNumber := rowNumber r; resTitle := resTitle r; action := action r;
     postId := postId r; resStatus := resStatus r;
     error := Some (error_text e) |}.

(** [try { body } catch (error) { result.error = ... } return result]. *)
Definition run_row (body : M (Outcome * World) unit) (init : Outcome) (w : World)
  : Outcome * World * list Event :=
  match body (init, w) with
  | (inr _, (result, w'), ev) => (result, w', ev)
  | (inl e, (result, w'), ev) => (record_error e result, w', ev)
  end.

(** Shared by both row functions: optional text columns, the structured
    field, terms. *)
Definition add_text (k : string) (f : option str) (p : Payload) : Payload :=
  match trimmed f with
  | Some v => set_key k (VStr v) p
  | None => p
  end.

(** [JSON.parse] inside its own [try]: a parse failure leaves the field out. *)
Definition add_acf (f : option str) (p : Payload) : Payload :=
  match trimmed f with
  | Some _ =>
      match JSON_parse (raw_of f) with
      | Some acfData => set_key "acf" (VJson acfData) p
      | None => p
      end
  | None => p
  end.

Definition add_terms (k : string) (taxonomy : Taxonomy) (f : option str)
  (config : Config) (p : Payload) : M World Payload :=
  match trimmed f with
  | Some _ =>
      ids <- resolveTerms (raw_of f) taxonomy config ;;
      ret (match ids with
           | [] => p
           | _ :: _ => set_key k (VIds ids) p
           end)
  | None => ret p
  end.

(** [row.featured_image_path?.trim() || row.featured_image_url?.trim()]. *)
Definition imagePath (row : Row) : option str :=
  match trimmed (featured_image_path row) with
  | Some v => Some v
  | None => trimmed (featured_image_url row)
  end.

End RowState.

(** ** bulk-upload.js: create mode *)

Module BulkUpload.
Section Create.
Context {N : NodeLib} {R : Remote}.

(** The group of the leftmost match of the Content-Disposition pattern:
    the text filename=, an optional double quote, then at least one
    character that is not a double quote (the group). *)
Fixpoint match_filename (s : str) : option str :=
  match s with
  | [] => None
  | _ :: r =>
      if startsWith (js "filename=") s then
        let rest := skipn 9 s in
        let rest' :=
          match rest with
          | c :: r' => if Ascii.eqb c dquote then r' else rest
          | [] => rest
          end in
        let n := lead (fun c => negb (Ascii.eqb c dquote)) rest' in
        if 0 <? n then Some (firstn n rest') else match_filename r
      else match_filename r
  end.

(** [s.replace('.', '')]: the first dot removed. *)
Fixpoint remove_first_dot (s : str) : str :=
  match s with
  | [] => []
  | c :: r => if Ascii.eqb c "." then r else c :: remove_first_dot r
  end.

Definition is_regex_meta (c : ascii) : bool :=
  existsb (Ascii.eqb c) (js "\^$.|?*+()[]{}").

Definition strip_suffix (suffix s : str) : option str :=
  let n := length s - length suffix in
  if (length suffix <=? length s) && str_eqb (skipn n s) suffix
  then Some (firstn n s) else None.

(** The extension of the file name against the MIME type
    (bulk-upload.js 282-295). *)
Definition reconcile_extension (name : str) (contentType : option str)
  : M World str :=
  match mime_extension contentType with
  | Some (e :: xt) =>
      let extFromMime := e :: xt in
      let currentExt := remove_first_dot (path_extname name) in
      if str_eqb currentExt extFromMime then ret name
      else if negb (nonempty currentExt) || str_eqb currentExt (js "uc")
      then ret (name ++ js "." ++ extFromMime)
      else if existsb is_regex_meta currentExt
              || existsb (Ascii.eqb "$") extFromMime
      then match regexp_replace_ext currentExt name (js "." ++ extFromMime) with
           | Some renamed => ret renamed
           | None => throw (Error (js "Invalid regular expression"))
           end
      else match strip_suffix (js "." ++ currentExt) name with
           | Some stem => ret (stem ++ js "." ++ extFromMime)
           | None => ret name
           end
  | _ => ret name
  end.

(** downloadImageFromUrl (bulk-upload.js 247-306). *)
Definition downloadImageFromUrl (imageUrl : str) : M World (option Downloaded) :=
  try_catch
    (response <- call (HttpGet imageUrl) ;;
     let contentType := content_type response in
     if includes (js "text/html") (raw_of contentType) then ret None
     else
       name <-
         match content_disposition response with
         | Some (c :: d) =>
             ret (match match_filename (c :: d) with
                  | Some f => f
                  | None => js "image.jpg"
                  end)
         | _ =>
             match url_pathname imageUrl with
             | Some urlPath => ret (or_str (Some (path_basename urlPath)) (js "image"))
             | None => throw (Error (js "Invalid URL"))
             end
         end ;;
       name <- reconcile_extension name contentType ;;
       ret (Some {| buffer := body response;
                    mimeType := or_str contentType
                                  (or_str (mime_lookup imageUrl) (js "image/jpeg"));
                    fileName := name |}))
    (fun _ => ret None).

(** uploadMedia (bulk-upload.js 333-387). *)
Definition uploadMedia (filePathOrUrl : str) : M World (option Z) :=
  if negb (nonempty (trim filePathOrUrl)) then ret None
  else
    let processedUrl := trim filePathOrUrl in
    acquired <-
      (if startsWith (js "http://") processedUrl
          || startsWith (js "https://") processedUrl
       then
         let processedUrl := convertGoogleDriveUrl processedUrl in
         downloadImageFromUrl processedUrl
       else
         let fullPath := path_resolve processedUrl in
         present <- call (FsExists fullPath) ;;
         if negb present then ret None
         else
           fileBuffer <- call (FsRead fullPath) ;;
           ret (Some {| buffer := fileBuffer;
                        mimeType := or_str (mime_lookup fullPath)
                                      (js "application/octet-stream");
                        fileName := path_basename fullPath |})) ;;
    match acquired return M World (option Z) with
    | None => ret None
    | Some file =>
        try_catch
          (sleep (request_delay_ms defaultConfig) ;;;
           id <- call (PostMedia (buffer file) (mimeType file) (fileName file)) ;;
           ret (Some id))
          (fun _ => ret None)
    end.

(** The SEO columns under the generic, Yoast and Rank Math field names. *)
Definition add_seo (row : Row) (p : Payload) : Payload :=
  let p := match trimmed (meta_title row) with
           | Some v => set_key "rank_math_title" (VStr v)
                         (set_key "_yoast_wpseo_title" (VStr v)
                            (set_key "meta_title" (VStr v) p))
           | None => p
           end in
  let p := match trimmed (meta_description row) with
           | Some v => set_key "rank_math_description" (VStr v)
                         (set_key "_yoast_wpseo_metadesc" (VStr v)
                            (set_key "meta_description" (VStr v) p))
           | None => p
           end in
  match trimmed (focus_keyword row) with
  | Some v => set_key "rank_math_focus_keyword" (VStr v)
                (set_key "_yoast_wpseo_focuskw" (VStr v) p)
  | None => p
  end.

(** Lines 534-624: validation and the payload, up to the duplicate gate. *)
Definition buildPostData (row : Row) (config : Config) : M World Payload :=
  match trimmed (title row) with
  | None => throw (Error (js "Missing required field: title"))
  | Some titleText =>
  match trimmed (content row) with
  | None => throw (Error (js "Missing required field: content"))
  | Some contentText =>
      let postData : Payload :=
        [ ("title"%string, VStr titleText);
          ("content"%string, VStr contentText);
          ("status"%string, VStr (or_str (trimmed (status row)) (default_status config))) ] in
      let postData := add_text "slug" (slug row) postData in
      let postData := add_text "excerpt" (excerpt row) postData in
      let postData := add_acf (acf_json row) postData in
      postData <- add_terms "categories" tax_categories (categories row) config postData ;;
      postData <- add_terms "tags" tax_tags (tags row) config postData ;;
      postData <-
        match imagePath row with
        | Some image =>
            mediaId <- uploadMedia image ;;
            ret (match truthy mediaId with
                 | Some m => set_key "featured_media" (VNum m) postData
                 | None => postData
                 end)
        | None => ret postData
        end ;;
      ret (add_seo row postData)
  end
  end.

Definition duplicate_error (titleText : str) (existing : Z) : Exn :=
  Error (js "Post with title " ++ quoted titleText ++ js " already exists (ID: "
         ++ Z_to_str existing ++ js "). Duplicate posts are not allowed.").

(** The [try] block of createOrUpdatePost (bulk-upload.js 533-664). *)
Definition createOrUpdatePost_try (row : Row) (config : Config)
  : M (Outcome * World) unit :=
  postData <- lift (buildPostData row config) ;;
  let titleText := str_field "title" postData in
  existingPostByTitle <- lift (findPostByTitle titleText) ;;
  match truthy existingPostByTitle with
  | Some existing => throw (duplicate_error titleText existing)
  | None =>
      existingPostId <-
        lift (if nonempty (str_field "slug" postData)
              then findPostBySlug (str_field "slug" postData)
              else ret None) ;;
      lift (sleep (request_delay_ms config)) ;;;
      match truthy existingPostId with
      | Some id =>
          data <- lift (call (UpdatePost id postData)) ;;
          modify (record_success updated data)
      | None =>
          data <- lift (call (CreatePost postData)) ;;
          modify (record_success created data)
      end
  end.

(** createOrUpdatePost (bulk-upload.js 520-676). *)
Definition createOrUpdatePost (row : Row) (n : nat) (config : Config) (w : World)
  : Outcome * World * list Event :=
  run_row (createOrUpdatePost_try row config) (initial_result row n) w.

End Create.
End BulkUpload.

(** ** bulk-update.js: update mode *)

Module BulkUpdate.
Section Update.
Context {N : NodeLib} {R : Remote}.

(** downloadImageFromUrl (bulk-update.js 1117-1133). *)
Definition downloadImageFromUrl (imageUrl : str) : M World (option Downloaded) :=
  try_catch
    (response <- call (HttpGet imageUrl) ;;
     match url_pathname imageUrl with
     | Some urlPath =>
         ret (Some {| buffer := body response;
                      mimeType := or_str (content_type response)
                                    (or_str (mime_lookup imageUrl) (js "image/jpeg"));
                      fileName := or_str (Some (path_basename urlPath))
                                    (js "image.jpg") |})
     | None => throw (Error (js "Invalid URL"))
     end)
    (fun _ => ret None).

(** uploadMedia (bulk-update.js 1138-1185). *)
Definition uploadMedia (filePathOrUrl : str) (config : Config) : M World (option Z) :=
  if negb (nonempty (trim filePathOrUrl)) then ret None
  else
    acquired <-
      (if startsWith (js "http://") (trim filePathOrUrl)
          || startsWith (js "https://") (trim filePathOrUrl)
       then downloadImageFromUrl (trim filePathOrUrl)
       else
         let fullPath := path_resolve filePathOrUrl in
         present <- call (FsExists fullPath) ;;
         if negb present then ret None
         else
           fileBuffer <- call (FsRead fullPath) ;;
           ret (Some {| buffer := fileBuffer;
                        mimeType := or_str (mime_lookup fullPath)
                                      (js "application/octet-stream");
                        fileName := path_basename fullPath |})) ;;
    match acquired return M World (option Z) with
    | None => ret None
    | Some file =>
        try_catch
          (sleep (request_delay_ms config) ;;;
           id <- call (PostMedia (buffer file) (mimeType file) (fileName file)) ;;
           ret (Some id))
          (fun _ => ret None)
    end.

(** findPostById (bulk-update.js 1190-1205). *)
Definition findPostById (ref : str) : M World (option Z) :=
  if negb (nonempty ref) then ret None
  else
    try_catch
      (data <- call (GetPost ref) ;; ret (Some (p_id data)))
      (fun _ => ret None).

Definition not_found (kind : string) (given : option str) : Exn :=
  Error (js "Post with " ++ js kind ++ js " " ++ quoted (raw_of given)
         ++ js " not found").

Definition found_or (e : Exn) (found : option Z) : M World Z :=
  match truthy found with
  | Some id => ret id
  | None => throw e
  end.

(** Lines 1322-1342: the post to update, by post_id, else slug, else title. *)
Definition resolve_target (row : Row) : M World Z :=
  match trimmed (post_id row) with
  | Some ref =>
      found <- findPostById ref ;;
      found_or (not_found "ID" (post_id row)) found
  | None =>
      match trimmed (slug row) with
      | Some s =>
          found <- findPostBySlug s ;;
          found_or (not_found "slug" (slug row)) found
      | None =>
          match trimmed (title row) with
          | Some t =>
              found <- findPostByTitle t ;;
              found_or (not_found "title" (title row)) found
          | None =>
              throw (Error (js "Missing identifier: must provide post_id, slug, or title"))
          end
      end
  end.

(** Lines 1350-1411: the sparse payload. *)
Definition buildUpdateData (row : Row) (config : Config) : M World Payload :=
  let updateData : Payload := [] in
  let updateData := add_text "title" (title row) updateData in
  let updateData := add_text "content" (content row) updateData in
  let updateData := add_text "status" (status row) updateData in
  let updateData := add_text "slug" (slug row) updateData in
  let updateData := add_text "excerpt" (excerpt row) updateData in
  let updateData := add_acf (acf_json row) updateData in
  updateData <- add_terms "categories" tax_categories (categories row) config updateData ;;
  updateData <- add_terms "tags" tax_tags (tags row) config updateData ;;
  match imagePath row with
  | Some image =>
      mediaId <- uploadMedia image config ;;
      ret (match truthy mediaId with
           | Some m => set_key "featured_media" (VNum m) updateData
           | None => updateData
           end)
  | None => ret updateData
  end.

Definition nothing_to_update : Exn :=
  Error (js "No fields to update. Provide at least one field to update.").

(** The [try] block of updatePost (bulk-update.js 1321-1435). *)
Definition updatePost_try (row : Row) (config : Config) : M (Outcome * World) unit :=
  target <- lift (resolve_target row) ;;
  modify (set_postId target) ;;;
  existingPost <- lift (call (GetPost (Z_to_str target))) ;;
  updateData <- lift (buildUpdateData row config) ;;
  if length updateData =? 0 then throw nothing_to_update
  else
    lift (sleep (request_delay_ms config)) ;;;
    data <- lift (call (UpdatePost target updateData)) ;;
    modify (record_success updated data).

(** updatePost (bulk-update.js 1308-1455). *)
Definition updatePost (row : Row) (n : nat) (config : Config) (w : World)
  : Outcome * World * list Event :=
  run_row (updatePost_try row config) (initial_result row n) w.

End Update.
End BulkUpdate.

(** ** Reporting at the row boundary

    Both row functions report at the end of the [try] ([console.log], then
    the progress callback with a success object: bulk-upload.js 652-654
    and 661-663, bulk-update.js 1425-1436) and in the [catch], after the
    error was stored ([console.error], then the callback with an error
    object: 670-672, 1441-1452).  Each of these calls returns or throws.
    The text and the object they are given are determined by the kind of
    the report and by the result object; the calls are modelled on these
    two.  The console calls before the write and inside the called
    functions stand inside the [try] and are not modelled: what one of
    them throws is one more exception of the body of the [try], and the
    row boundary is stated for every such body.  The row functions of the
    two modules above are the row functions with a null callback and a
    console that returns. *)

Inductive ReportKind := report_success | report_error.

Record Reporter := {
  (** [console.log] for a success, [console.error] for an error;
      [Some e]: the call throws [e]. *)
  console : ReportKind -> Outcome -> option Exn;
  (** The [progressCallback] argument; [None] is [null]. *)
  progressCallback : option (ReportKind -> Outcome -> option Exn)
}.

Module Reporting.
Section Reports.
Context {N : NodeLib} {R : Remote}.

(** [console.log(message); if (progressCallback) progressCallback({...})]. *)
Definition report (reporter : Reporter) (kind : ReportKind)
  : M (Outcome * World) unit :=
  fun s =>
    match console reporter kind (fst s) with
    | Some e => (inl e, s, [])
    | None =>
        match progressCallback reporter with
        | Some callback =>
            match callback kind (fst s) with
            | Some e => (inl e, s, [])
            | None => (inr tt, s, [])
            end
        | None => (inr tt, s, [])
        end
    end.

(** [try { body; report } catch (error) { result.error = ...; report }
    return result]: the row function returns its result object, or
    raises what the reporting of the [catch] block threw. *)
Definition run_row_reporting (reporter : Reporter)
  (body : M (Outcome * World) unit) (init : Outcome) (w : World)
  : (Exn + Outcome) * World * list Event :=
  match (body ;;; report reporter report_success) (init, w) with
  | (inr _, (result, w'), ev) => (inr result, w', ev)
  | (inl e, (result, w'), ev) =>
      match report reporter report_error (record_error e result, w') with
      | (inr _, (result', w''), ev') => (inr result', w'', ev ++ ev')
      | (inl x, (_, w''), ev') => (inl x, w'', ev ++ ev')
      end
  end.

(** createOrUpdatePost (bulk-upload.js 520-676) with its reporting. *)
Definition createOrUpdatePost (reporter : Reporter) (row : Row) (n : nat)
  (config : Config) (w : World) : (Exn + Outcome) * World * list Event :=
  run_row_reporting reporter (BulkUpload.createOrUpdatePost_try row config)
    (initial_result row n) w.

(** updatePost (bulk-update.js 1308-1455) with its reporting. *)
Definition updatePost (reporter : Reporter) (row : Row) (n : nat)
  (config : Config) (w : World) : (Exn + Outcome) * World * list Event :=
  run_row_reporting reporter (BulkUpdate.updatePost_try row config)
    (initial_result row n) w.

(** Every call of the console and of the callback returns. *)
Definition reports_return (reporter : Reporter) : Prop :=
  (forall kind result, console reporter kind result = None)
  /\ (forall callback kind result,
        progressCallback reporter = Some callback -> callback kind result = None).

End Reports.
End Reporting.

(** ** Properties of outcomes and traces *)

Section Properties.
Context {N : NodeLib} {R : Remote}.

Definition result_of (r : Outcome * World * list Event) : Outcome := fst (fst r).
Definition world_of (r : Outcome * World * list Event) : World := snd (fst r).
Definition trace_of (r : Outcome * World * list Event) : list Event := snd r.


(** An error is recorded exactly when no action was. *)
Definition error_iff_none (r : Outcome) : Prop :=
  error r <> None <-> action r = None.

Definition is_sleep (e : Event) : bool :=
  match e with Sleep _ => true | Call _ => false end.

Definition is_write_event (e : Event) : bool :=
  match e with Sleep _ => false | Call r => is_write r end.

(** Every delay stands next to a write: directly before or directly after
    one. [prev] is the event before the list. *)
Fixpoint delays_beside_writes (prev : option Event) (ev : list Event) : bool :=
  match ev with
  | [] => true
  | e :: rest =>
      (if is_sleep e
       then match prev with Some p => is_write_event p | None => false end
            || match rest with n :: _ => is_write_event n | [] => false end
       else true)
      && delays_beside_writes (Some e) rest
  end.

(** Every write has a delay directly before or directly after it. *)
Fixpoint writes_beside_delays (prev : option Event) (ev : list Event) : bool :=
  match ev with
  | [] => true
  | e :: rest =>
      (if is_write_event e
       then match prev with Some p => is_sleep p | None => false end
            || match rest with n :: _ => is_sleep n | [] => false end
       else true)
      && writes_beside_delays (Some e) rest
  end.

(** The pacing discipline of the source, as a grammar of traces: a read
    that is not a taxonomy search comes without a delay; a write comes
    directly after its delay; a taxonomy search is followed by one delay,
    after the creation of the term (a write, with its own delay) when the
    search found nothing. *)
Inductive paced : list Event -> Prop :=
| paced_nil : paced []
| paced_read r rest :
    is_write r = false ->
    (forall t s n, r <> GetTerms t s n) ->
    paced rest -> paced (Call r :: rest)
| paced_write ms r rest :
    is_write r = true ->
    paced rest -> paced (Sleep ms :: Call r :: rest)
| paced_term_found t s n ms rest :
    paced rest -> paced (Call (GetTerms t s n) :: Sleep ms :: rest)
| paced_term_created t s n ms1 name ms2 rest :
    paced rest ->
    paced (Call (GetTerms t s n) :: Sleep ms1 :: Call (CreateTerm t name)
             :: Sleep ms2 :: rest).

(** Every write stands directly after a delay; [prev_sleep] tells whether
    the event before the list is a delay. *)
Fixpoint writes_follow_delays (prev_sleep : bool) (ev : list Event) : bool :=
  match ev with
  | [] => true
  | e :: rest =>
      (if is_write_event e then prev_sleep else true)
      && writes_follow_delays (is_sleep e) rest
  end.

Definition is_term_search (e : Event) : bool :=
  match e with Call (GetTerms _ _ _) => true | _ => false end.

Definition count_events (p : Event -> bool) (ev : list Event) : nat :=
  length (filter p ev).

(** What the payload builder of create mode may cause: delays, term
    requests, the image fetch, file access and the media upload. *)
Definition build_event (e : Event) : bool :=
  match e with
  | Sleep _ => true
  | Call (GetTerms _ _ _) | Call (CreateTerm _ _) | Call (PostMedia _ _ _)
  | Call (HttpGet _) | Call (FsExists _) | Call (FsRead _) => true
  | Call _ => false
  end.

Definition builds (ev : list Event) : Prop :=
  Forall (fun e => build_event e = true) ev.

Definition page_call (q : nat) : Event := Call (ListPosts (listing q)).

Definition not_fetch (e : Event) : Prop :=
  match e with Call (HttpGet _) => False | _ => True end.

(** Requests that look a post up by slug or write a post. *)
Definition touches_post (e : Event) : bool :=
  match e with
  | Call (GetPostsBySlug _ _) | Call (CreatePost _) | Call (UpdatePost _ _) => true
  | _ => false
  end.

Definition is_listing (e : Event) : bool :=
  match e with
  | Call (ListPosts p) =>
      (per_page p =? 100) && str_eqb (lp_status p) (js "any")
      && str_eqb (orderby p) (js "date") && str_eqb (order p) (js "desc")
  | _ => false
  end.

End Properties.

(** ** Share links

    [url] holds [prefix] followed by the identifier [ID], and no earlier
    place of [url] holds [prefix] followed by an identifier character. *)
Definition first_id_after (prefix url ID : str) : Prop :=
  exists pre post,
    url = pre ++ prefix ++ ID ++ post
    /\ ID <> []
    /\ forallb is_id_char ID = true
    /\ match post with [] => True | c :: _ => is_id_char c = false end
    /\ forall pre1 c rest,
         url = pre1 ++ prefix ++ c :: rest -> is_id_char c = true ->
         length pre <= length pre1.

(** No place of [url] holds [prefix] followed by an identifier character. *)
Definition no_id_after (prefix url : str) : Prop :=
  forall pre c rest, url = pre ++ prefix ++ c :: rest -> is_id_char c = false.

(** ** The result object along a row

    [keeps_result m]: [m] leaves the result object alone.
    [writes_at_end acts m]: when [m] throws, the object is as it was; when
    it returns, the object has just been given an action of [acts] and the
    identifier and the status of the remote answer. *)

Section ResultObject.
Context {N : NodeLib} {R : Remote}.

Definition keeps_result {A} (m : M (Outcome * World) A) : Prop :=
  forall s, fst (state_of (m s)) = fst s.

Definition writes_at_end (acts : list Action) (m : M (Outcome * World) unit) : Prop :=
  forall s,
    match outcome_of (m s) with
    | inl _ => fst (state_of (m s)) = fst s
    | inr _ =>
        exists a data,
          In a acts /\ fst (state_of (m s)) = record_success a data (fst s)
    end.


End ResultObject.

(** ** Sparse update rows *)

(** No column that updatePost copies into the payload is populated, the
    slug column apart. *)
Definition no_update_columns (row : Row) : Prop :=
  trimmed (title row) = None /\ trimmed (content row) = None
  /\ trimmed (status row) = None /\ trimmed (excerpt row) = None
  /\ trimmed (acf_json row) = None /\ trimmed (categories row) = None
  /\ trimmed (tags row) = None
  /\ trimmed (featured_image_path row) = None
  /\ trimmed (featured_image_url row) = None.

(** ** Classes of traces

    A class of traces that holds the empty trace and is closed under
    concatenation; [emits P m] says that every run of [m] emits a trace
    of the class. *)

Class TraceClass {N : NodeLib} (P : list Event -> Prop) := {
  tc_nil : P [];
  tc_app : forall a b, P a -> P b -> P (a ++ b)
}.

Definition emits {N : NodeLib} {S A} (P : list Event -> Prop) (m : M S A) : Prop :=
  forall s, P (events_of (m s)).

(** [m] returns on every state. *)
Definition total {N : NodeLib} {S A} (m : M S A) : Prop :=
  forall s, exists a, outcome_of (m s) = inr a.

(** ** A small site to run the pipeline on

    A concrete world for the examples: a site with a list of posts (newest
    first), terms, a few web resources and no local files, together with
    simple stand-ins for the Node packages. *)

Module Demo.

Fixpoint after_last (c : ascii) (s : str) : str :=
  match s with
  | [] => []
  | d :: r =>
      if existsb (Ascii.eqb c) r then after_last c r
      else if Ascii.eqb d c then r else s
  end.

Fixpoint take_until (p : ascii -> bool) (s : str) : str :=
  match s with
  | [] => []
  | c :: r => if p c then [] else c :: take_until p r
  end.

Fixpoint drop_until (p : ascii -> bool) (s : str) : str :=
  match s with
  | [] => []
  | c :: r => if p c then s else drop_until p r
  end.

Fixpoint after_scheme (s : str) : option str :=
  match s with
  | [] => None
  | _ :: r => if startsWith (js "://") s then Some (skipn 3 s) else after_scheme r
  end.

Definition pathname (u : str) : option str :=
  match after_scheme u with
  | None => None
  | Some hostpath =>
      let path := take_until (fun c => Ascii.eqb c "?" || Ascii.eqb c "#")
                    (drop_until (Ascii.eqb "/") hostpath) in
      Some (if nonempty path then path else js "/")
  end.

Definition basename (path : str) : str := after_last "/" path.

Definition extname (path : str) : str :=
  let b := basename path in
  if existsb (Ascii.eqb ".") (tl b) then "."%char :: after_last "." b else [].

Definition extension (contentType : option str) : option str :=
  match contentType with
  | Some t =>
      if str_eqb t (js "image/jpeg") then Some (js "jpeg")
      else if str_eqb t (js "image/png") then Some (js "png")
      else if str_eqb t (js "text/html") then Some (js "html")
      else None
  | None => None
  end.

Definition lookup (path : str) : option str :=
  let e := extname path in
  if str_eqb e (js ".jpg") || str_eqb e (js ".jpeg") then Some (js "image/jpeg")
  else if str_eqb e (js ".png") then Some (js "image/png")
  else None.

Definition lib : NodeLib :=
  {| Json := str;
     JSON_parse := fun s => if startsWith (js "{") s then Some s else None;
     url_pathname := pathname;
     path_basename := basename;
     path_extname := extname;
     path_resolve := fun p => js "/app/" ++ p;
     mime_extension := extension;
     mime_lookup := lookup;
     regexp_replace_ext := fun _ _ _ => None |}.

#[local] Existing Instance lib.

Record SitePost := {
  sp_id : Z; sp_title : str; sp_slug : str; sp_status : str
}.

Record Site := {
  posts : list SitePost;
  terms : list (Taxonomy * Term);
  web : list (str * HttpResponse);
  next_id : Z
}.

Definition as_post (p : SitePost) : Post :=
  {| p_id := sp_id p;
     p_title := TitleObject (Some (sp_title p)) None;
     p_status := sp_status p |}.

Definition tax_eqb (a b : Taxonomy) : bool :=
  match a, b with
  | tax_categories, tax_categories | tax_tags, tax_tags => true
  | _, _ => false
  end.

Definition not_found_404 : Exn :=
  {| message := js "Request failed with status code 404";
     response_data := Some (Truthy (js "{code:rest_post_invalid_id}"));
     response_status := Some 404%Z |}.

Definition with_posts (ps : list SitePost) (w : Site) : Site :=
  {| posts := ps; terms := terms w; web := web w; next_id := next_id w |}.

Definition bump (w : Site) : Site :=
  {| posts := posts w; terms := terms w; web := web w;
     next_id := (next_id w + 1)%Z |}.

(** The fields of a payload written over a stored post. *)
Definition patch (pd : Payload) (p : SitePost) : SitePost :=
  {| sp_id := sp_id p;
     sp_title := or_str (Some (str_field "title" pd)) (sp_title p);
     sp_slug := or_str (Some (str_field "slug" pd)) (sp_slug p);
     sp_status := or_str (Some (str_field "status" pd)) (sp_status p) |}.

Definition serve (r : Request) (w : Site) : (Exn + answer r) * Site :=
  match r return (Exn + answer r) * Site with
  | GetTerms t _ _ =>
      (inr (map snd (filter (fun x => tax_eqb (fst x) t) (terms w))), w)
  | CreateTerm t name =>
      (inr (next_id w),
       bump {| posts := posts w;
               terms := terms w ++ [(t, {| term_id := next_id w; term_name := name |})];
               web := web w; next_id := next_id w |})
  | PostMedia _ _ _ => (inr (next_id w), bump w)
  | GetPostsBySlug s n =>
      (inr (firstn n (map as_post
                        (filter (fun p => str_eqb (sp_slug p) s) (posts w)))), w)
  | ListPosts params =>
      (inr (map as_post
              (firstn (per_page params)
                 (skipn ((page params - 1) * per_page params) (posts w)))), w)
  | GetPost ref =>
      match find (fun p => str_eqb (Z_to_str (sp_id p)) ref) (posts w) with
      | Some p => (inr (as_post p), w)
      | None => (inl not_found_404, w)
      end
  | CreatePost pd =>
      let p := {| sp_id := next_id w; sp_title := str_field "title" pd;
                  sp_slug := str_field "slug" pd;
                  sp_status := str_field "status" pd |} in
      (inr (as_post p), bump (with_posts (p :: posts w) w))
  | UpdatePost id pd =>
      match find (fun p => Z.eqb (sp_id p) id) (posts w) with
      | Some p =>
          (inr (as_post (patch pd p)),
           with_posts (map (fun q => if Z.eqb (sp_id q) id then patch pd q else q)
                         (posts w)) w)
      | None => (inl not_found_404, w)
      end
  | HttpGet url =>
      match find (fun x => str_eqb (fst x) url) (web w) with
      | Some x => (inr (snd x), w)
      | None => (inl (Error (js "getaddrinfo ENOTFOUND")), w)
      end
  | FsExists _ => (inr false, w)
  | FsRead _ => (inl (Error (js "ENOENT: no such file or directory")), w)
  end.

Definition config : Config :=
  {| default_status := js "draft"; request_delay_ms := 300 |}.

Definition site_remote : Remote :=
  {| World := Site; remote := serve; defaultConfig := config |}.

#[local] Existing Instance site_remote.

Definition share_url : str := js "https://drive.google.com/file/d/ABC123/view".

Definition direct_url : str := direct_download ++ js "ABC123".

Definition login_page : HttpResponse :=
  {| content_type := Some (js "text/html; charset=utf-8");
     content_disposition := None;
     body := js "<html>Sign in</html>" |}.

Definition photo : HttpResponse :=
  {| content_type := Some (js "image/jpeg");
     content_disposition := Some (js "attachment; filename=" ++ quoted (js "photo.jpg"));
     body := js "JFIF" |}.

Definition private_url : str := js "https://example.com/private/cat.png".

Definition brunch : SitePost :=
  {| sp_id := 5; sp_title := js "Weekend Brunch";
     sp_slug := js "weekend-brunch"; sp_status := js "publish" |}.

Definition welcome : SitePost :=
  {| sp_id := 3; sp_title := js "Hello &amp; Welcome";
     sp_slug := js "hello"; sp_status := js "draft" |}.

Definition filler (i : nat) : SitePost :=
  {| sp_id := Z.of_nat i; sp_title := js "Filler";
     sp_slug := js "filler"; sp_status := js "publish" |}.

Definition site : Site :=
  {| posts := [brunch; welcome];
     terms := [(tax_categories, {| term_id := 7; term_name := js "News" |})];
     web := [(share_url, login_page); (direct_url, photo);
             (private_url, login_page)];
     next_id := 100 |}.

(** A site with a thousand newer posts in front of the brunch post. *)
Definition big_site : Site :=
  with_posts (map filler (seq 1001 1000) ++ [brunch]) site.

Definition blank_row : Row :=
  {| title := None; content := None; status := None; slug := None;
     excerpt := None; categories := None; tags := None;
     featured_image_path := None; featured_image_url := None;
     acf_json := None; meta_title := None; meta_description := None;
     focus_keyword := None; post_id := None |}.

(** A row with the given title, content, slug, categories and post_id,
    every other column absent. *)
Definition row_of (t c s cats pid : option str) : Row :=
  {| title := t; content := c; status := None; slug := s;
     excerpt := None; categories := cats; tags := None;
     featured_image_path := None; featured_image_url := None;
     acf_json := None; meta_title := None; meta_description := None;
     focus_keyword := None; post_id := pid |}.

(** Only post_id is populated. *)
Definition id_only_row : Row := row_of None None None None (Some (js "5")).

(** Only slug is populated. *)
Definition slug_only_row : Row :=
  row_of None None (Some (js " weekend-brunch ")) None None.

(** The title of the brunch post in other case and spacing, with its slug. *)
Definition duplicate_row : Row :=
  row_of (Some (js "weekend   brunch")) (Some (js "Eggs and coffee."))
    (Some (js "weekend-brunch")) None None.

(** The same title, no slug. *)
Definition late_duplicate_row : Row :=
  row_of (Some (js "weekend   brunch")) (Some (js "Eggs and coffee."))
    None None None.

(** A new post in the existing category News. *)
Definition news_row : Row :=
  row_of (Some (js "Opening hours")) (Some (js "Nine to five."))
    None (Some (js "News")) None.

(** A site with a hundred newer posts in front of the brunch post. *)
Definition crowded_site : Site :=
  with_posts (map filler (seq 1 100) ++ [brunch]) site.

(** A draft without a title, as the REST API lists it. *)
Definition untitled : SitePost :=
  {| sp_id := 9; sp_title := []; sp_slug := js "draft-9"; sp_status := js "draft" |}.

(** The small site with the untitled draft as its newest post. *)
Definition draft_site : Site := with_posts (untitled :: posts site) site.

(** Only post_id and status are populated. *)
Definition status_only_row : Row :=
  {| title := None; content := None; status := Some (js " publish ");
     slug := None; excerpt := None; categories := None; tags := None;
     featured_image_path := None; featured_image_url := None;
     acf_json := None; meta_title := Some (js "ignored by updates");
     meta_description := None; focus_keyword := None;
     post_id := Some (js "5") |}.

(** A create row with SEO columns. *)
Definition seo_row : Row :=
  {| title := Some (js " Opening hours "); content := Some (js "Nine to five.");
     status := None; slug := Some (js "hours"); excerpt := None;
     categories := None; tags := None;
     featured_image_path := None; featured_image_url := None;
     acf_json := None; meta_title := Some (js "Hours");
     meta_description := Some (js "When we are open");
     focus_keyword := Some (js "hours"); post_id := None |}.

End Demo.

(** Progress callbacks for the examples. *)
Module DemoReports.

(** A callback that returns. *)
Definition listening : Reporter :=
  {| console := fun _ _ => None;
     progressCallback := Some (fun _ _ => None) |}.

(** A callback that throws on every report. *)
Definition disconnected : Reporter :=
  {| console := fun _ _ => None;
     progressCallback := Some (fun _ _ => Some (Error (js "write after end"))) |}.

(** A callback that throws on the report of a success only. *)
Definition fails_on_success : Reporter :=
  {| console := fun _ _ => None;
     progressCallback :=
       Some (fun kind _ =>
               match kind with
               | report_success => Some (Error (js "write after end"))
               | report_error => None
               end) |}.

End DemoReports.

(** ** The header of the media upload (bulk-upload.js 373,
    bulk-update.js 1171): attachment, then the file name between double
    quotes. *)

Definition upload_disposition (name : str) : str :=
  js "attachment; filename=" ++ quoted name.

(** ** Payload fields *)

(** A field that is set only when there is a value for it. *)
Definition set_if {N : NodeLib} (k : string) (o : option Value) (p : Payload) : Payload :=
  match o with
  | Some v => set_key k v p
  | None => p
  end.

(** The text columns and the structured field of an update row, as
    updatePost copies them (bulk-update.js 1351-1386). *)
Definition update_base {N : NodeLib} (row : Row) : Payload :=
  add_acf (acf_json row)
    (add_text "excerpt" (excerpt row)
       (add_text "slug" (slug row)
          (add_text "status" (status row)
             (add_text "content" (content row)
                (add_text "title" (title row) []))))).

(** The required and optional text fields of a create row
    (bulk-upload.js 543-565). *)
Definition create_base {N : NodeLib} (row : Row) (config : Config)
  (titleText contentText : str) : Payload :=
  add_acf (acf_json row)
    (add_text "excerpt" (excerpt row)
       (add_text "slug" (slug row)
          [ ("title"%string, VStr titleText);
            ("content"%string, VStr contentText);
            ("status"%string,
             VStr (or_str (trimmed (status row)) (default_status config))) ])).

(** The field names updatePost may send. *)
Definition update_fields : list string :=
  ["title"; "content"; "status"; "slug"; "excerpt"; "acf"; "categories";
   "tags"; "featured_media"]%string.

(** ** Listed posts *)

(** The title of the listed post is text, and its normal form is not the
    searched one. *)
Definition differs {N : NodeLib} (normalizedSearchTitle : str) (post : Post) : Prop :=
  exists t, postTitleRaw post = Some t /\ normalizeTitle t <> normalizedSearchTitle.

(** Neither a delay nor a write. *)
Definition quiet_read {N : NodeLib} (e : Event) : Prop :=
  is_sleep e = false /\ is_write_event e = false.

(** The title of the listed post is text with the searched normal form. *)
Definition matches {N : NodeLib} (normalizedSearchTitle : str) (post : Post) : Prop :=
  exists t, postTitleRaw post = Some t /\ normalizeTitle t = normalizedSearchTitle.

(** [listed norm p w hit w' ev]: read from the world [w], from page [p]
    on, the listing holds the post [hit], whose title has the normal form
    [norm], on one of the pages [p] to 10; the pages before that page are
    answered with 100 posts or more, and every post listed before [hit]
    has a title text with another normal form.  [ev] are the requests for
    these pages, [w'] the world after them. *)
Inductive listed {N : NodeLib} {R : Remote} (norm : str)
  : nat -> World -> Post -> World -> list Event -> Prop :=
| listed_here p w w1 pre hit post :
    p <= 10 ->
    remote (ListPosts (listing p)) w = (inr (pre ++ hit :: post), w1) ->
    Forall (differs norm) pre ->
    matches norm hit ->
    listed norm p w hit w1 [Call (ListPosts (listing p))]
| listed_later p w w1 posts hit w2 ev :
    p < 10 ->
    remote (ListPosts (listing p)) w = (inr posts, w1) ->
    perPage <= length posts ->
    Forall (differs norm) posts ->
    listed norm (S p) w1 hit w2 ev ->
    listed norm p w hit w2 (Call (ListPosts (listing p)) :: ev).



(** ** Post writes *)

Definition is_post_write {N : NodeLib} (e : Event) : bool :=
  match e with
  | Call (CreatePost _) | Call (UpdatePost _ _) => true
  | _ => false
  end.

Definition no_post_write {N : NodeLib} (t : list Event) : Prop :=
  Forall (fun e => is_post_write e = false) t.





(** ** The batch drivers

    [main] and [processCsvFile] (bulk-upload.js 681-834), [main] and
    [processUpdateCsvFile] (bulk-update.js 1460-1591), with
    [checkConnectivityWithApi] and [loadCsv], which the two files share
    word for word.  The drivers of the two files differ in the row
    function and in the name of the log file.  Console output, progress
    messages and the measured duration are left out, as they are for the
    row functions; the API instance of the chosen client is [remote]. *)

(** What the drivers ask of the host besides the requests of the rows. *)
Class Host {N : NodeLib} {R : Remote} := {
  (** [apiInstance.get('/posts', { params: { per_page: 1 } })]; the answer
      is not used. *)
  probe : World -> option Exn * World;
  path_isAbsolute : str -> bool;
  (** [fs.createReadStream(fullPath).pipe(csv())]: the records collected
      until the end of the stream, or the error of the stream. *)
  read_records : str -> World -> (Exn + list Row) * World;
  (** [process.env.VERCEL || process.env.VERCEL_ENV], as a condition. *)
  isVercel : bool;
  (** [path.join('/tmp', name)]. *)
  path_join_tmp : str -> str;
  (** [fs.writeFileSync(logPath, JSON.stringify(logResults, null, 2))]. *)
  writeFileSync : str -> list Outcome -> World -> option Exn * World
}.

Module Batch.
Section Driver.
Context {N : NodeLib} {R : Remote} {H : Host}.

(** What a driver does, oldest first: its own steps, and the events of
    the rows and of the existence test of the CSV file. *)
Inductive Step :=
| Probe
| ReadCsv (fullPath : str)
| WriteLog (logPath : str) (logResults : list Outcome)
| Did (e : Event).

Fixpoint row_events (t : list Step) : list Event :=
  match t with
  | [] => []
  | Did e :: rest => e :: row_events rest
  | _ :: rest => row_events rest
  end.

Definition is_log (s : Step) : bool :=
  match s with WriteLog _ _ => true | _ => false end.

(** The object processCsvFile returns, without the duration. *)
Record Summary := {
  total : nat;
  success : nat;
  failed : nat;
  results : list Outcome;
  logPath : str
}.

(** createOrUpdatePost or updatePost. *)
Definition RowFunction : Type :=
  Row -> nat -> Config -> World -> Outcome * World * list Event.

(** checkConnectivityWithApi (bulk-upload.js 165-183): every failure of
    the request is caught and answered with false. *)
Definition checkConnectivityWithApi (w : World) : bool * World * list Step :=
  match probe w with
  | (None, w1) => (true, w1, [Probe])
  | (Some _, w1) => (false, w1, [Probe])
  end.

(** loadCsv (bulk-upload.js 134-153). *)
Definition loadCsv (filePath : str) (w : World)
  : (Exn + list Row) * World * list Step :=
  let fullPath := if path_isAbsolute filePath then filePath
                  else path_resolve filePath in
  match remote (FsExists fullPath) w with
  | (inl e, w1) => (inl e, w1, [Did (Call (FsExists fullPath))])
  | (inr false, w1) =>
      (inl (Error (js "CSV file not found: " ++ fullPath)), w1,
       [Did (Call (FsExists fullPath))])
  | (inr true, w1) =>
      match read_records fullPath w1 with
      | (o, w2) => (o, w2, [Did (Call (FsExists fullPath)); ReadCsv fullPath])
      end
  end.

(** The loop over the rows; [i] is the index of the first of [rows]:
    [result = await f(rows[i], i + 1, ...); logResults.push(result)]. *)
Fixpoint row_loop (f : RowFunction) (config : Config) (rows : list Row) (i : nat)
  (logResults : list Outcome) (w : World) : list Outcome * World * list Step :=
  match rows with
  | [] => (logResults, w, [])
  | row :: rest =>
      match f row (i + 1) config w with
      | (result, w1, ev) =>
          match row_loop f config rest (i + 1) (logResults ++ [result]) w1 with
          | (final, w2, t) => (final, w2, map Did ev ++ t)
          end
      end
  end.

(** [!r.error]: null and the empty string are falsy. *)
Definition no_error (r : Outcome) : bool :=
  match error r with
  | Some (_ :: _) => false
  | _ => true
  end.

Definition successCount (logResults : list Outcome) : nat :=
  length (filter no_error logResults).

Definition failedCount (logResults : list Outcome) : nat :=
  length (filter (fun r => negb (no_error r)) logResults).

Definition log_path (logName : str) : str :=
  if isVercel then path_join_tmp logName else path_resolve logName.

Definition not_accessible (clientName : str) : Exn :=
  Error (js "WordPress REST API is not accessible for " ++ clientName
         ++ js ". Check your configuration.").

(** The body that processCsvFile (bulk-upload.js 763-834) and
    processUpdateCsvFile (bulk-update.js 1532-1591) share; [clientName]
    and [clientConfig] are what getClientConfig returned.  A failure of
    the log write is caught. *)
Definition process_file (logName : str) (f : RowFunction) (csvPath : str)
  (clientName : str) (clientConfig : Config) (w : World)
  : (Exn + Summary) * World * list Step :=
  match checkConnectivityWithApi w with
  | (false, w1, t1) => (inl (not_accessible clientName), w1, t1)
  | (true, w1, t1) =>
      match loadCsv csvPath w1 with
      | (inl error, w2, t2) =>
          (inl (Error (js "Failed to load CSV: " ++ message error)), w2, t1 ++ t2)
      | (inr [], w2, t2) => (inl (Error (js "CSV file is empty")), w2, t1 ++ t2)
      | (inr rows, w2, t2) =>
          match row_loop f clientConfig rows 0 [] w2 with
          | (logResults, w3, t3) =>
              match writeFileSync (log_path logName) logResults w3 with
              | (_, w4) =>
                  (inr {| total := length rows;
                          success := successCount logResults;
                          failed := failedCount logResults;
                          results := logResults;
                          logPath := log_path logName |},
                   w4,
                   t1 ++ t2 ++ t3 ++ [WriteLog (log_path logName) logResults])
              end
          end
      end
  end.

Definition processCsvFile : str -> str -> Config -> World
                            -> (Exn + Summary) * World * list Step :=
  process_file (js "import_log.json") BulkUpload.createOrUpdatePost.

Definition processUpdateCsvFile : str -> str -> Config -> World
                                  -> (Exn + Summary) * World * list Step :=
  process_file (js "update_log.json") BulkUpdate.updatePost.

(** What a run of the command line leaves: the exit code, or the
    rejection of main, and the module-level logResults. *)
Definition Cli : Type := (Exn + nat) * list Outcome * World * list Step.

(** The body that the two main functions share (bulk-upload.js 681-758,
    bulk-update.js 1460-1527); [csvPath] is the command-line argument or
    the answer to the prompt.  The log write is not guarded here. *)
Definition main_of (logName : str) (f : RowFunction) (csvPath : str) (w : World)
  : Cli :=
  match checkConnectivityWithApi w with
  | (false, w1, t1) => (inr 1, [], w1, t1)
  | (true, w1, t1) =>
      match loadCsv csvPath w1 with
      | (inl _, w2, t2) => (inr 1, [], w2, t1 ++ t2)
      | (inr [], w2, t2) => (inr 0, [], w2, t1 ++ t2)
      | (inr rows, w2, t2) =>
          match row_loop f defaultConfig rows 0 [] w2 with
          | (logResults, w3, t3) =>
              let t := t1 ++ t2 ++ t3 ++ [WriteLog (log_path logName) logResults] in
              match writeFileSync (log_path logName) logResults w3 with
              | (Some e, w4) => (inl e, logResults, w4, t)
              | (None, w4) =>
                  (inr (if 0 <? failedCount logResults then 1 else 0),
                   logResults, w4, t)
              end
          end
      end
  end.

Definition upload_main : str -> World -> Cli :=
  main_of (js "import_log.json") BulkUpload.createOrUpdatePost.

Definition update_main : str -> World -> Cli :=
  main_of (js "update_log.json") BulkUpdate.updatePost.

(** [main().catch(error => process.exit(1))] (bulk-upload.js 838-841). *)
Definition exit_code (run : Cli) : nat :=
  match run with
  | (inr code, _, _, _) => code
  | (inl _, _, _, _) => 1
  end.

Definition logged (run : Cli) : list Outcome := snd (fst (fst run)).

Definition steps_of {A} (run : A * World * list Step) : list Step := snd run.

Definition returned {A} (run : (Exn + A) * World * list Step) : Exn + A :=
  fst (fst run).

(** The title the result object of a row carries. *)
Definition shown_title (row : Row) : str := or_str (title row) (js "Untitled").

(** A row function that numbers and names its result as it is told, and
    records an error exactly when it records no action. *)
Definition labels_rows (f : RowFunction) : Prop :=
  forall row n config w,
    rowNumber (result_of (f row n config w)) = n
    /\ resTitle (result_of (f row n config w)) = shown_title row
    /\ error_iff_none (result_of (f row n config w)).

Definition paces_rows (f : RowFunction) : Prop :=
  forall row n config w, paced (trace_of (f row n config w)).


(** The two programs. *)
Inductive Mode := create_mode | update_mode.

Definition row_function (m : Mode) : RowFunction :=
  match m with
  | create_mode => BulkUpload.createOrUpdatePost
  | update_mode => BulkUpdate.updatePost
  end.

Definition exported (m : Mode)
  : str -> str -> Config -> World -> (Exn + Summary) * World * list Step :=
  match m with
  | create_mode => processCsvFile
  | update_mode => processUpdateCsvFile
  end.

Definition main (m : Mode) : str -> World -> Cli :=
  match m with
  | create_mode => upload_main
  | update_mode => update_main
  end.

(** The row has an action, or the text of its error is empty. *)
Definition counted_as_success (r : Outcome) : Prop :=
  action r <> None \/ error r = Some [].

End Driver.
End Batch.

(** A host for the small site: the file system holds two CSV files. *)
Module DemoBatch.

Definition csv_files : list (str * list Row) :=
  [ (js "/app/posts.csv", [Demo.news_row; Demo.duplicate_row]);
    (js "/app/new.csv", [Demo.news_row]);
    (js "/app/empty.csv", []) ].

Definition serve_disk (r : Request) (w : Demo.Site) : (Exn + answer r) * Demo.Site :=
  match r as r0
        return ((Exn + answer r0) * Demo.Site -> (Exn + answer r0) * Demo.Site)
  with
  | FsExists p => fun _ => (inr (existsb (fun f => str_eqb (fst f) p) csv_files), w)
  | _ => fun served => served
  end (Demo.serve r w).

Definition disk_remote : Remote :=
  {| World := Demo.Site; remote := serve_disk; defaultConfig := Demo.config |}.

Definition read_table (fullPath : str) (w : Demo.Site) : (Exn + list Row) * Demo.Site :=
  match find (fun f => str_eqb (fst f) fullPath) csv_files with
  | Some f => (inr (snd f), w)
  | None => (inl (Error (js "EISDIR: illegal operation on a directory")), w)
  end.

Definition host : @Host Demo.lib disk_remote :=
  @Build_Host Demo.lib disk_remote
    (fun w => (None, w))
    (startsWith (js "/"))
    read_table
    false
    (fun name => js "/tmp/" ++ name)
    (fun _ _ w => (None, w)).

(** The same host with a file system that cannot be written. *)
Definition readonly_host : @Host Demo.lib disk_remote :=
  @Build_Host Demo.lib disk_remote
    (fun w => (None, w))
    (startsWith (js "/"))
    read_table
    true
    (fun name => js "/tmp/" ++ name)
    (fun _ _ w => (Some (Error (js "EROFS: read-only file system")), w)).

(** A run of the exported driver, and of the command line, on the small
    site. *)
Definition served (m : Batch.Mode) (csvPath : string) (h : @Host Demo.lib disk_remote)
  : (Exn + Batch.Summary) * Demo.Site * list (@Batch.Step Demo.lib) :=
  @Batch.exported Demo.lib disk_remote h m (js csvPath) (js "Demo")
    Demo.config Demo.site.

Definition cli (m : Batch.Mode) (csvPath : string) (h : @Host Demo.lib disk_remote)
  : @Batch.Cli Demo.lib disk_remote :=
  @Batch.main Demo.lib disk_remote h m (js csvPath) Demo.site.

End DemoBatch.

(* ===================================================================== *)
(** * Part II. Lemmas and theorems *)
(* ===================================================================== *)

(** ** Characters *)

Ltac all_chars c :=
  destruct c as [[] [] [] [] [] [] [] []]; vm_compute; try reflexivity.

Lemma to_lower_idem (c : ascii) : to_lower (to_lower c) = to_lower c.
Proof. all_chars c. Qed.

Lemma to_lower_space (c : ascii) : is_space (to_lower c) = is_space c.
Proof. all_chars c. Qed.

Lemma to_lower_lt (c : ascii) : Ascii.eqb (to_lower c) "<" = Ascii.eqb c "<".
Proof. all_chars c. Qed.

Lemma to_lower_gt (c : ascii) : Ascii.eqb (to_lower c) ">" = Ascii.eqb c ">".
Proof. all_chars c. Qed.

Lemma to_lower_amp (c : ascii) : Ascii.eqb (to_lower c) "&" = Ascii.eqb c "&".
Proof. all_chars c. Qed.

Lemma to_lower_semi (c : ascii) : Ascii.eqb (to_lower c) ";" = Ascii.eqb c ";".
Proof. all_chars c. Qed.

Lemma to_lower_is (x c : ascii) :
  Ascii.eqb (to_lower c) x = Ascii.eqb c x -> to_lower c = x -> c = x.
Proof.
  intros E H. apply Ascii.eqb_eq. rewrite <- E. now apply Ascii.eqb_eq.
Qed.

Lemma space_sp (c : ascii) : is_space c = true -> to_lower c = c.
Proof. all_chars c; discriminate. Qed.

(** ** Searching *)

Lemma index_of_None (c : ascii) (s : str) :
  index_of c s = None <-> ~ In c s.
Proof.
  induction s as [|d r IH]; simpl.
  - tauto.
  - destruct (Ascii.eqb_spec d c) as [->|N].
    + split; [discriminate | intros H; exfalso; apply H; now left].
    + destruct (index_of c r); simpl.
      * split; [discriminate|]. intros H. exfalso. apply H. right.
        destruct IH as [_ IH]. destruct (in_dec ascii_dec c r) as [I|I]; [exact I|].
        now specialize (IH I).
      * split; [|reflexivity]. intros _ [E|I]; [congruence|].
        now apply IH.
Qed.

Lemma startsWith_app (p s : str) : startsWith p (p ++ s) = true.
Proof.
  induction p as [|a p IH]; simpl; [reflexivity|].
  now rewrite Ascii.eqb_refl, IH.
Qed.

Lemma startsWith_split (p s : str) :
  startsWith p s = true -> exists r, s = p ++ r.
Proof.
  revert s. induction p as [|a p IH]; intros s H.
  - now exists s.
  - destruct s as [|b s]; [discriminate|]. simpl in H.
    apply andb_true_iff in H. destruct H as [E H].
    apply Ascii.eqb_eq in E. subst b.
    destruct (IH _ H) as [r ->]. now exists r.
Qed.

(** ** The replace combinator *)

Lemma replace_from_skipn (m : matcher) (rep : str) (k : nat) (s : str) :
  replace_from m rep k s = replaceAll m rep (skipn k s).
Proof.
  revert k. induction s as [|c r IH]; intros [|k]; try reflexivity.
  simpl. apply IH.
Qed.

Lemma replaceAll_cons (m : matcher) (rep : str) (c : ascii) (r : str) :
  replaceAll m rep (c :: r) =
  match m (c :: r) with
  | Some n => rep ++ replaceAll m rep (skipn (pred n) r)
  | None => c :: replaceAll m rep r
  end.
Proof.
  unfold replaceAll at 1. simpl.
  destruct (m (c :: r)); [|reflexivity].
  now rewrite replace_from_skipn.
Qed.

Lemma In_replace_from (m : matcher) (rep : str) (x : ascii) (s : str) (k : nat) :
  In x (replace_from m rep k s) -> In x s \/ In x rep.
Proof.
  revert k. induction s as [|c r IH]; intros k H; simpl in H.
  - contradiction.
  - destruct k as [|k].
    + destruct (m (c :: r)).
      * apply in_app_or in H. destruct H as [H|H]; [now right|].
        destruct (IH _ H); [left; now right | now right].
      * destruct H as [->|H]; [left; now left|].
        destruct (IH _ H); [left; now right | now right].
    + destruct (IH _ H); [left; now right | now right].
Qed.

Lemma replaceAll_nomatch (m : matcher) (rep : str) (s : str) :
  nomatch m s -> replaceAll m rep s = s.
Proof.
  induction s as [|c r IH]; intros H; [reflexivity|].
  destruct H as [H1 H2]. rewrite replaceAll_cons, H1. f_equal. now apply IH.
Qed.

(** ** Trimming *)

Lemma trimEnd_cons_nonspace (c : ascii) (r : str) :
  is_space c = false -> trimEnd (c :: r) = c :: trimEnd r.
Proof. intros H. simpl. rewrite H. now destruct (trimEnd r). Qed.

Lemma trimEnd_cons_space (c : ascii) (r : str) :
  is_space c = true ->
  trimEnd (c :: r) = match trimEnd r with [] => [] | t => c :: t end.
Proof. intros H. simpl. now rewrite H. Qed.

Lemma trimEnd_idem (s : str) : trimEnd (trimEnd s) = trimEnd s.
Proof.
  induction s as [|c r IH]; [reflexivity|].
  simpl. destruct (trimEnd r) as [|d t] eqn:E.
  - destruct (is_space c) eqn:S; [reflexivity|]. simpl. now rewrite S.
  - change (trimEnd (c :: d :: t)) with
      (match trimEnd (d :: t) with [] => if is_space c then [] else [c] | u => c :: u end).
    now rewrite IH.
Qed.

Lemma trimStart_head (s : str) :
  match trimStart s with [] => True | d :: _ => is_space d = false end.
Proof.
  induction s as [|c r IH]; simpl; [exact I|].
  destruct (is_space c) eqn:S; [exact IH | exact S].
Qed.

Lemma trimStart_fixed (s : str) :
  match s with [] => True | d :: _ => is_space d = false end -> trimStart s = s.
Proof. destruct s as [|d r]; [reflexivity|]. simpl. now intros ->. Qed.

Lemma trim_idem (s : str) : trim (trim s) = trim s.
Proof.
  unfold trim. pose proof (trimStart_head s) as H.
  destruct (trimStart s) as [|d r]; [reflexivity|].
  rewrite (trimEnd_cons_nonspace _ _ H). simpl trimStart. rewrite H.
  rewrite <- (trimEnd_cons_nonspace _ _ H). apply trimEnd_idem.
Qed.

Lemma In_trimEnd (x : ascii) (s : str) : In x (trimEnd s) -> In x s.
Proof.
  induction s as [|c r IH]; simpl; [tauto|].
  destruct (trimEnd r) as [|d t].
  - destruct (is_space c); simpl; tauto.
  - intros [->|H]; [now left | right; now apply IH].
Qed.

(** A property of strings that survives dropping the first character and
    trimming the end survives [trim]. *)
Lemma trim_keeps (P : str -> Prop) :
  (forall c r, P (c :: r) -> P r) ->
  (forall s, P s -> P (trimEnd s)) ->
  forall s, P s -> P (trim s).
Proof.
  intros Htl Hend s H. unfold trim. apply Hend.
  induction s as [|c r IH]; simpl; [exact H|].
  destruct (is_space c); [apply IH; eapply Htl; exact H | exact H].
Qed.

(** ** Tags *)

Lemma tagfree_tail (c : ascii) (r : str) : tagfree (c :: r) -> tagfree r.
Proof. now intros [_ H]. Qed.

Lemma tagfree_app (rep t : str) :
  ~ In "<"%char rep -> tagfree t -> tagfree (rep ++ t).
Proof.
  induction rep as [|a rep IH]; intros N H; simpl; [exact H|].
  split.
  - intros ->. exfalso. apply N. now left.
  - apply IH; [|exact H]. intros I. apply N. now right.
Qed.

Lemma tagfree_strip (s : str) (k : nat) : tagfree (replace_from m_tag [] k s).
Proof.
  revert k. induction s as [|c r IH]; intros k; [exact I|].
  destruct k as [|k]; [|apply IH].
  cbn [replace_from]. destruct (m_tag (c :: r)) eqn:M; [apply IH|].
  split; [|apply IH]. intros -> I. simpl in M.
  destruct (index_of ">" r) eqn:X; [discriminate|].
  apply index_of_None in X. apply X.
  destruct (In_replace_from _ _ _ _ _ I) as [J|[]]. exact J.
Qed.

Lemma tagfree_replace (m : matcher) (rep : str) (s : str) (k : nat) :
  ~ In "<"%char rep -> ~ In ">"%char rep ->
  tagfree s -> tagfree (replace_from m rep k s).
Proof.
  intros NL NG. revert k. induction s as [|c r IH]; intros k H; [exact I|].
  destruct H as [H1 H2]. destruct k as [|k]; [|now apply IH].
  cbn [replace_from]. destruct (m (c :: r)).
  - apply tagfree_app; [exact NL | now apply IH].
  - split; [|now apply IH]. intros E I.
    destruct (In_replace_from _ _ _ _ _ I) as [J|J]; [now apply (H1 E) | now apply NG].
Qed.

Lemma tagfree_lower (s : str) : tagfree s -> tagfree (toLowerCase s).
Proof.
  induction s as [|c r IH]; intros H; [exact I|].
  destruct H as [H1 H2]. split; [|now apply IH].
  intros E I. apply (to_lower_is _ _ (to_lower_lt c)) in E.
  apply in_map_iff in I. destruct I as [y [Ey Iy]].
  apply (to_lower_is _ _ (to_lower_gt y)) in Ey. subst y.
  now apply (H1 E).
Qed.

Lemma tagfree_trimEnd (s : str) : tagfree s -> tagfree (trimEnd s).
Proof.
  induction s as [|c r IH]; intros H; [exact I|].
  destruct H as [H1 H2]. specialize (IH H2). simpl.
  destruct (trimEnd r) as [|d t] eqn:E.
  - destruct (is_space c); simpl; [exact I|]. split; [|exact I]. now intros _ [].
  - split; [|exact IH]. intros Ec I. apply (H1 Ec).
    apply In_trimEnd. now rewrite E.
Qed.

Lemma tagfree_nomatch (s : str) : tagfree s -> nomatch m_tag s.
Proof.
  induction s as [|c r IH]; intros H; [exact I|].
  destruct H as [H1 H2]. split; [|now apply IH].
  simpl. destruct (Ascii.eqb_spec c "<") as [E|N]; [|reflexivity].
  apply H1 in E. apply index_of_None in E. now rewrite E.
Qed.

(** ** Entities *)

Lemma entfree_tail (c : ascii) (r : str) : entfree (c :: r) -> entfree r.
Proof. now intros [_ H]. Qed.

Lemma m_entity_other (c : ascii) (r : str) :
  c <> "&"%char -> m_entity (c :: r) = None.
Proof.
  intros N. destruct r as [|x r]; [reflexivity|]. cbn [m_entity].
  destruct (Ascii.eqb_spec c "&"); [contradiction | reflexivity].
Qed.

Lemma entfree_remove (s : str) (k : nat) : entfree (replace_from m_entity [] k s).
Proof.
  revert k. induction s as [|c r IH]; intros k; [exact I|].
  destruct k as [|k]; [|apply IH].
  cbn [replace_from]. destruct (m_entity (c :: r)) eqn:M; [apply IH|].
  split; [|apply IH]. intros ->.
  destruct r as [|x r]; [right; now intros []|].
  cbn [m_entity] in M. rewrite Ascii.eqb_refl in M. simpl in M.
  destruct (Ascii.eqb_spec x ";") as [->|N].
  - left. cbn [replace_from]. now rewrite m_entity_other.
  - right. simpl in M. destruct (index_of ";" r) eqn:X; [discriminate|].
    apply index_of_None in X. intros I.
    destruct (In_replace_from _ _ _ _ _ I) as [[J|J]|[]]; [congruence | now apply X].
Qed.

Lemma replace_from_nonspace (rep : str) (c : ascii) (r : str) :
  is_space c = false ->
  replace_from m_ws rep 0 (c :: r) = c :: replace_from m_ws rep 0 r.
Proof. intros H. cbn [replace_from m_ws]. now rewrite H. Qed.

Lemma entfree_ws (s : str) (k : nat) :
  entfree s -> entfree (replace_from m_ws (js " ") k s).
Proof.
  revert k. induction s as [|c r IH]; intros k H; [exact I|].
  destruct H as [H1 H2]. destruct k as [|k]; [|now apply IH].
  destruct (is_space c) eqn:S.
  - cbn [replace_from m_ws]. rewrite S. simpl.
    split; [discriminate | now apply IH].
  - rewrite (replace_from_nonspace _ _ _ S).
    split; [|now apply IH]. intros E. destruct (H1 E) as [Hd|N].
    + left. destruct r as [|x r]; [discriminate|]. injection Hd as ->.
      now rewrite replace_from_nonspace.
    + right. intros I.
      destruct (In_replace_from _ _ _ _ _ I) as [J|[J|[]]]; [now apply N | discriminate].
Qed.

Lemma entfree_lower (s : str) : entfree s -> entfree (toLowerCase s).
Proof.
  induction s as [|c r IH]; intros H; [exact I|].
  destruct H as [H1 H2]. split; [|now apply IH].
  intros E. apply (to_lower_is _ _ (to_lower_amp c)) in E.
  destruct (H1 E) as [Hd|N].
  - left. destruct r as [|x r]; [discriminate|]. now injection Hd as ->.
  - right. intros I. apply in_map_iff in I. destruct I as [y [Ey Iy]].
    apply (to_lower_is _ _ (to_lower_semi y)) in Ey. subst y. now apply N.
Qed.

Lemma entfree_trimEnd (s : str) : entfree s -> entfree (trimEnd s).
Proof.
  induction s as [|c r IH]; intros H; [exact I|].
  destruct H as [H1 H2]. specialize (IH H2).
  destruct (is_space c) eqn:S.
  - rewrite (trimEnd_cons_space _ _ S).
    destruct (trimEnd r) as [|d t] eqn:E; [exact I|].
    split; [|exact IH]. intros ->. discriminate.
  - rewrite (trimEnd_cons_nonspace _ _ S).
    split; [|exact IH]. intros E. destruct (H1 E) as [Hd|N].
    + left. destruct r as [|x r]; [discriminate|]. injection Hd as ->.
      now rewrite trimEnd_cons_nonspace.
    + right. intros I. apply N. now apply In_trimEnd.
Qed.

Lemma entfree_nomatch (s : str) : entfree s -> nomatch m_entity s.
Proof.
  induction s as [|c r IH]; intros H; [exact I|].
  destruct H as [H1 H2]. split; [|now apply IH].
  destruct r as [|x r]; [reflexivity|]. cbn [m_entity].
  destruct (Ascii.eqb_spec c "&") as [E|N]; [|reflexivity].
  destruct (H1 E) as [Hd|NI].
  - injection Hd as ->. reflexivity.
  - destruct (Ascii.eqb_spec x ";") as [->|Nx]; [reflexivity|]. simpl.
    assert (X : index_of ";" r = None).
    { apply index_of_None. intros I. apply NI. now right. }
    now rewrite X.
Qed.

(** The decoded entities are instances of [&[^;]+;]: none occurs in a
    string without entities. *)
Lemma entfree_nomatch_lit (x : ascii) (q : str) (s : str) :
  x <> ";"%char -> In ";"%char q ->
  entfree s -> nomatch (m_lit ("&"%char :: x :: q)) s.
Proof.
  intros Nx Iq. induction s as [|c r IH]; intros H; [exact I|].
  destruct H as [H1 H2]. split; [|now apply IH].
  unfold m_lit. destruct (startsWith _ (c :: r)) eqn:W; [|reflexivity].
  exfalso. apply startsWith_split in W. destruct W as [u W].
  injection W as -> ->. destruct (H1 eq_refl) as [Hd|N].
  - injection Hd as E. now apply Nx.
  - apply N. right. apply in_or_app. now left.
Qed.

Lemma decoded_entity_absent (p : str) (x : ascii) (q rep t : str) :
  p = "&"%char :: x :: q -> x <> ";"%char -> In ";"%char q ->
  entfree t -> replaceAll (m_lit p) rep t = t.
Proof.
  intros -> Nx Iq H. apply replaceAll_nomatch. now apply entfree_nomatch_lit.
Qed.

Ltac entity_side H := first [ exact H | discriminate | vm_compute; tauto ].

(** ** White space and case *)

Lemma wsnormal_tail (c : ascii) (r : str) : wsnormal (c :: r) -> wsnormal r.
Proof. now intros [_ H]. Qed.

Lemma collapse_after_run (r : str) :
  match replace_from m_ws (js " ") (lead is_space r) r with
  | [] => True
  | d :: _ => is_space d = false
  end.
Proof.
  induction r as [|d r IH]; [exact I|].
  cbn [lead]. destruct (is_space d) eqn:S.
  - exact IH.
  - now rewrite (replace_from_nonspace _ _ _ S).
Qed.

Lemma wsnormal_collapse (s : str) (k : nat) :
  wsnormal (replace_from m_ws (js " ") k s).
Proof.
  revert k. induction s as [|c r IH]; intros k; [exact I|].
  destruct k as [|k]; [|apply IH].
  destruct (is_space c) eqn:S.
  - cbn [replace_from m_ws]. rewrite S. simpl.
    split; [|apply IH]. intros _. split; [reflexivity|]. apply collapse_after_run.
  - rewrite (replace_from_nonspace _ _ _ S). split; [|apply IH].
    intros S'. simpl in S'. congruence.
Qed.

Lemma wsnormal_lower (s : str) : wsnormal s -> wsnormal (toLowerCase s).
Proof.
  induction s as [|c r IH]; intros H; [exact I|].
  destruct H as [H1 H2]. split; [|now apply IH].
  rewrite to_lower_space. intros S. destruct (H1 S) as [-> Hn].
  split; [reflexivity|]. destruct r as [|d r]; [exact I|].
  simpl. now rewrite to_lower_space.
Qed.

Lemma wsnormal_trimEnd (s : str) : wsnormal s -> wsnormal (trimEnd s).
Proof.
  induction s as [|c r IH]; intros H; [exact I|].
  destruct H as [H1 H2]. specialize (IH H2).
  destruct (is_space c) eqn:S.
  - rewrite (trimEnd_cons_space _ _ S).
    destruct (trimEnd r) as [|d t] eqn:E; [exact I|].
    split; [|exact IH]. intros _. destruct (H1 eq_refl) as [-> Hn].
    split; [reflexivity|]. destruct r as [|x r]; [discriminate|].
    rewrite (trimEnd_cons_nonspace _ _ Hn) in E. now injection E as <- _.
  - rewrite (trimEnd_cons_nonspace _ _ S). split; [|exact IH].
    intros S'. congruence.
Qed.

Lemma wsnormal_fixed (s : str) :
  wsnormal s -> replaceAll m_ws (js " ") s = s.
Proof.
  induction s as [|c r IH]; intros H; [reflexivity|].
  destruct H as [H1 H2]. rewrite replaceAll_cons. cbn [m_ws].
  destruct (is_space c) eqn:S.
  - destruct (H1 eq_refl) as [-> Hn].
    assert (L : lead is_space r = 0).
    { destruct r as [|d r]; [reflexivity|]. simpl. now rewrite Hn. }
    rewrite L. simpl. f_equal. now apply IH.
  - f_equal. now apply IH.
Qed.

Lemma lowered_toLowerCase (s : str) : lowered (toLowerCase s).
Proof.
  induction s as [|c r IH]; constructor; [apply to_lower_idem | exact IH].
Qed.

Lemma lowered_fixed (s : str) : lowered s -> toLowerCase s = s.
Proof.
  induction 1 as [|c r Hc _ IH]; [reflexivity|].
  simpl. now rewrite Hc, IH.
Qed.

Lemma lowered_trimEnd (s : str) : lowered s -> lowered (trimEnd s).
Proof.
  intros H. apply Forall_forall. intros x I.
  apply In_trimEnd in I. revert x I. now apply Forall_forall.
Qed.

(** ** Normal form of a title *)

Lemma normalizeTitle_normal (s : str) :
  let t := normalizeTitle s in
  tagfree t /\ entfree t /\ wsnormal t /\ lowered t /\ trim t = t.
Proof.
  destruct s as [|c0 s0]; [repeat split; constructor|].
  set (s := c0 :: s0). unfold normalizeTitle. fold s. cbv zeta.
  repeat split.
  - apply (trim_keeps tagfree tagfree_tail tagfree_trimEnd).
    apply tagfree_lower.
    do 9 (apply tagfree_replace;
          [ vm_compute; intuition discriminate
          | vm_compute; intuition discriminate | ]).
    apply tagfree_strip.
  - apply (trim_keeps entfree entfree_tail entfree_trimEnd).
    apply entfree_lower, entfree_ws, entfree_remove.
  - apply (trim_keeps wsnormal wsnormal_tail wsnormal_trimEnd).
    apply wsnormal_lower, wsnormal_collapse.
  - apply (trim_keeps lowered).
    + intros c r H. now inversion H.
    + apply lowered_trimEnd.
    + apply lowered_toLowerCase.
  - apply trim_idem.
Qed.

Lemma normalizeTitle_fixed (t : str) :
  tagfree t -> entfree t -> wsnormal t -> lowered t -> trim t = t ->
  normalizeTitle t = t.
Proof.
  intros HT HE HW HL HR. destruct t as [|c0 t0]; [reflexivity|].
  set (t := c0 :: t0) in *. unfold normalizeTitle. fold t. cbv zeta.
  rewrite (replaceAll_nomatch m_tag) by now apply tagfree_nomatch.
  rewrite (decoded_entity_absent (js "&nbsp;") _ _ _ t eq_refl) by entity_side HE.
  rewrite (decoded_entity_absent (js "&amp;") _ _ _ t eq_refl) by entity_side HE.
  rewrite (decoded_entity_absent (js "&quot;") _ _ _ t eq_refl) by entity_side HE.
  rewrite (decoded_entity_absent (js "&#8217;") _ _ _ t eq_refl) by entity_side HE.
  rewrite (decoded_entity_absent (js "&#8216;") _ _ _ t eq_refl) by entity_side HE.
  rewrite (decoded_entity_absent (js "&#39;") _ _ _ t eq_refl) by entity_side HE.
  rewrite (decoded_entity_absent (js "&#038;") _ _ _ t eq_refl) by entity_side HE.
  rewrite (replaceAll_nomatch m_entity) by now apply entfree_nomatch.
  rewrite (wsnormal_fixed _ HW), (lowered_fixed _ HL). exact HR.
Qed.

(** C5. Title normalisation is idempotent: normalising a normalised title
    changes nothing, for every string. *)
Theorem normalizeTitle_idempotent (s : str) :
  normalizeTitle (normalizeTitle s) = normalizeTitle s.
Proof.
  destruct (normalizeTitle_normal s) as (HT & HE & HW & HL & HR).
  now apply normalizeTitle_fixed.
Qed.

(** ** Runs of computations *)

Section Runs.
Context {N : NodeLib} {S : Type}.

Lemma events_bind {A B} (m : M S A) (k : A -> M S B) (s : S) :
  events_of (bind m k s) =
  events_of (m s) ++
  match outcome_of (m s) with
  | inl _ => []
  | inr a => events_of (k a (state_of (m s)))
  end.
Proof.
  unfold bind, events_of, outcome_of, state_of.
  destruct (m s) as [[[e|a] s1] ev1]; simpl.
  - now rewrite app_nil_r.
  - now destruct (k a s1) as [[o s2] ev2].
Qed.

Lemma events_try_catch {A} (m : M S A) (h : Exn -> M S A) (s : S) :
  events_of (try_catch m h s) =
  events_of (m s) ++
  match outcome_of (m s) with
  | inl e => events_of (h e (state_of (m s)))
  | inr _ => []
  end.
Proof.
  unfold try_catch, events_of, outcome_of, state_of.
  destruct (m s) as [[[e|a] s1] ev1]; simpl.
  - now destruct (h e s1) as [[o s2] ev2].
  - now rewrite app_nil_r.
Qed.

Lemma outcome_bind {A B} (m : M S A) (k : A -> M S B) (s : S) :
  outcome_of (bind m k s) =
  match outcome_of (m s) with
  | inl e => inl e
  | inr a => outcome_of (k a (state_of (m s)))
  end.
Proof.
  unfold bind, outcome_of, state_of.
  destruct (m s) as [[[e|a] s1] ev1]; simpl; [reflexivity|].
  now destruct (k a s1) as [[o s2] ev2].
Qed.

Lemma state_bind {A B} (m : M S A) (k : A -> M S B) (s : S) :
  state_of (bind m k s) =
  match outcome_of (m s) with
  | inl e => state_of (m s)
  | inr a => state_of (k a (state_of (m s)))
  end.
Proof.
  unfold bind, outcome_of, state_of.
  destruct (m s) as [[[e|a] s1] ev1]; simpl; [reflexivity|].
  now destruct (k a s1) as [[o s2] ev2].
Qed.

Lemma outcome_try_catch {A} (m : M S A) (h : Exn -> M S A) (s : S) :
  outcome_of (try_catch m h s) =
  match outcome_of (m s) with
  | inl e => outcome_of (h e (state_of (m s)))
  | inr a => inr a
  end.
Proof.
  unfold try_catch, outcome_of, state_of.
  destruct (m s) as [[[e|a] s1] ev1]; simpl; [|reflexivity].
  now destruct (h e s1) as [[o s2] ev2].
Qed.

(** A handler that only returns adds no event. *)
Lemma events_try_ret {A} (m : M S A) (x : A) (s : S) :
  events_of (try_catch m (fun _ => ret x) s) = events_of (m s).
Proof.
  rewrite events_try_catch. destruct (outcome_of (m s)); apply app_nil_r.
Qed.

Lemma total_ret {A} (a : A) : total (ret a : M S A).
Proof. intros s. now exists a. Qed.

Lemma total_bind {A B} (m : M S A) (k : A -> M S B) :
  total m -> (forall a, total (k a)) -> total (bind m k).
Proof.
  intros Hm Hk s. destruct (Hm s) as [a Ha]. unfold bind, outcome_of in *.
  destruct (m s) as [[o s1] ev1]. simpl in Ha. subst o.
  destruct (Hk a s1) as [b Hb]. unfold outcome_of in Hb.
  destruct (k a s1) as [[o s2] ev2]. simpl in *. now exists b.
Qed.

(** A [try] whose handler returns cannot throw. *)
Lemma total_try_catch {A} (m : M S A) (h : Exn -> M S A) :
  (forall e, total (h e)) -> total (try_catch m h).
Proof.
  intros Hh s. unfold try_catch, outcome_of.
  destruct (m s) as [[[e|a] s1] ev1].
  - destruct (Hh e s1) as [b Hb]. unfold outcome_of in Hb.
    destruct (h e s1) as [[o s2] ev2]. simpl in *. now exists b.
  - now exists a.
Qed.

Section Emits.
Variable P : list Event -> Prop.
Context {TC : TraceClass P}.

Lemma emits_ret {A} (a : A) : emits P (ret a : M S A).
Proof. intros s. apply tc_nil. Qed.

Lemma emits_throw {A} (e : Exn) : emits P (throw e : M S A).
Proof. intros s. apply tc_nil. Qed.

Lemma emits_bind {A B} (m : M S A) (k : A -> M S B) :
  emits P m -> (forall a, emits P (k a)) -> emits P (bind m k).
Proof.
  intros Hm Hk s. rewrite events_bind. apply tc_app; [apply Hm|].
  destruct (outcome_of (m s)); [apply tc_nil | apply Hk].
Qed.

Lemma emits_try_catch {A} (m : M S A) (h : Exn -> M S A) :
  emits P m -> (forall e, emits P (h e)) -> emits P (try_catch m h).
Proof.
  intros Hm Hh s. rewrite events_try_catch. apply tc_app; [apply Hm|].
  destruct (outcome_of (m s)); [apply Hh | apply tc_nil].
Qed.

End Emits.
End Runs.

Section RowRuns.
Context {N : NodeLib} {R : Remote}.

Lemma events_call (r : Request) (w : World) : events_of (call r w) = [Call r].
Proof. unfold call, events_of. now destruct (remote r w). Qed.

Lemma events_lift {A} (m : M World A) (s : Outcome * World) :
  events_of (lift m s) = events_of (m (snd s)).
Proof. unfold lift, events_of. now destruct (m (snd s)) as [[o w'] ev]. Qed.

Lemma outcome_lift {A} (m : M World A) (s : Outcome * World) :
  outcome_of (lift m s) = outcome_of (m (snd s)).
Proof. unfold lift, outcome_of. now destruct (m (snd s)) as [[o w'] ev]. Qed.

Lemma state_lift {A} (m : M World A) (s : Outcome * World) :
  state_of (lift m s) = (fst s, state_of (m (snd s))).
Proof. unfold lift, state_of. now destruct (m (snd s)) as [[o w'] ev]. Qed.

Lemma emits_lift {A} (P : list Event -> Prop) (m : M World A) :
  emits P m -> emits P (lift m).
Proof. intros H s. rewrite events_lift. apply H. Qed.

Lemma emits_modify (P : list Event -> Prop) {TC : TraceClass P}
  (f : Outcome -> Outcome) : emits P (modify f).
Proof. intros s. apply tc_nil. Qed.

Lemma emits_sleep (P : list Event -> Prop) (ms : Z) :
  P [Sleep ms] -> emits P (sleep ms).
Proof. intros H s. exact H. Qed.

Lemma emits_call (P : list Event -> Prop) (r : Request) :
  P [Call r] -> emits P (call r).
Proof. intros H s. now rewrite events_call. Qed.

Lemma total_lift {A} (m : M World A) : total m -> total (lift m).
Proof. intros H s. rewrite outcome_lift. apply H. Qed.

Lemma total_sleep (ms : Z) : total (sleep ms).
Proof. intros s. now exists tt. Qed.

End RowRuns.

Example normalizeTitle_brunch :
  normalizeTitle (js "  <b>Weekend</b>&nbsp;  BRUNCH &amp; More&hellip; ")
  = js "weekend brunch".
Proof. vm_compute. reflexivity. Qed.

(** ** The duplicate search *)

Section TitleSearch.
Context {N : NodeLib} {R : Remote}.

Lemma page_call_listing (q : nat) : is_listing (page_call q) = true.
Proof. reflexivity. Qed.

Lemma title_pages_stop (fuel p : nat) (norm : str) (w0 w1 : World) (ps : list Post) :
  remote (ListPosts (listing p)) w0 = (inr ps, w1) ->
  scan_posts ps norm = NotFound ->
  length ps < 100 \/ 10 <= p ->
  title_pages (S fuel) p norm w0 = (inr (Some None), w1, [page_call p]).
Proof.
  intros Hr Hs Hc. cbn [title_pages]. unfold bind, call. rewrite Hr.
  destruct ps as [|q ps]; [reflexivity|]. rewrite Hs.
  destruct (Nat.ltb_spec (length (q :: ps)) perPage) as [L|L]; [reflexivity|].
  destruct Hc as [Hc|Hc]; [unfold perPage in L; lia|].
  destruct (Nat.ltb_spec 10 (S p)) as [L'|L']; [reflexivity | lia].
Qed.

Lemma title_pages_runs (fuel : nat) :
  forall (p : nat) (norm : str) (w : World),
    p <= 10 -> 11 <= fuel + p ->
    outcome_of (title_pages fuel p norm w) <> inr None
    /\ exists k, k <= 11 - p
         /\ events_of (title_pages fuel p norm w) = map page_call (seq p k).
Proof.
  induction fuel as [|fuel IH]; intros p norm w Hp Hf; [lia|].
  cbn [title_pages]. unfold bind, call.
  destruct (remote (ListPosts (listing p)) w) as [[e|ps] w1].
  - split; [discriminate|]. exists 1. split; [lia | reflexivity].
  - assert (One : forall (o : option Z),
              outcome_of (A := option (option Z)) (inr (Some o), w1, [page_call p] ++ [])
                <> inr None
              /\ exists k, k <= 11 - p
                   /\ events_of (A := option (option Z))
                        (inr (Some o), w1, [page_call p] ++ [])
                      = map page_call (seq p k)).
    { intros o. split; [discriminate|]. exists 1. split; [lia | reflexivity]. }
    destruct ps as [|q ps]; [apply (One None)|].
    destruct (scan_posts (q :: ps) norm) as [id| |].
    + apply (One (Some id)).
    + destruct (length (q :: ps) <? perPage); [apply (One None)|].
      destruct (Nat.ltb_spec 10 (S p)) as [L|L]; [apply (One None)|].
      destruct (IH (S p) norm w1) as [Ho [k [Hk He]]]; [lia | lia |].
      unfold outcome_of, events_of in *.
      destruct (title_pages fuel (S p) norm w1) as [[o w2] ev2].
      cbn [fst snd] in *.
      split; [exact Ho|]. exists (S k). split; [lia|]. now rewrite He.
    + split; [discriminate|]. exists 1. split; [lia | reflexivity].
Qed.

Lemma findPostByTitle_total (t : str) : total (findPostByTitle t).
Proof.
  unfold findPostByTitle. destruct (negb (nonempty (trim t))).
  - apply total_ret.
  - apply total_try_catch. intros e. apply total_ret.
Qed.

Lemma findPostByTitle_events (t : str) (w : World) :
  exists k, k <= 10 /\ events_of (findPostByTitle t w) = map page_call (seq 1 k).
Proof.
  unfold findPostByTitle. destruct (negb (nonempty (trim t))).
  - exists 0. split; [lia | reflexivity].
  - destruct (title_pages_runs 10 1 (normalizeTitle t) w) as [_ [k [Hk He]]];
      [lia | lia |].
    exists k. split; [lia|].
    rewrite events_try_catch, outcome_bind, events_bind, He.
    destruct (outcome_of (title_pages 10 1 (normalizeTitle t) w)) as [e|a];
      simpl; now rewrite !app_nil_r.
Qed.

Lemma findPostByTitle_listing (t : str) (w : World) :
  Forall (fun e => is_listing e = true) (events_of (findPostByTitle t w)).
Proof.
  destruct (findPostByTitle_events t w) as [k [_ ->]].
  apply Forall_forall. intros e I. apply in_map_iff in I.
  destruct I as [q [<- _]]. apply page_call_listing.
Qed.

(** C4. The duplicate search by title ends for every title and every
    remote: it returns (never raises), its loop ends within the ten
    iterations of its page cap, it asks only for pages 1, 2, ... of 100
    posts, any status, newest first, at most ten of them, and after a page
    without a match that is shorter than 100 posts, or that is page 10, it
    asks for nothing more and answers null. *)
Theorem findPostByTitle_bounded (t : str) (w : World) :
  (exists r, outcome_of (findPostByTitle t w) = inr r)
  /\ outcome_of (title_pages 10 1 (normalizeTitle t) w) <> inr None
  /\ (exists k, k <= 10
        /\ events_of (findPostByTitle t w)
           = map (fun q => Call (ListPosts (listing q))) (seq 1 k))
  /\ Forall (fun e => is_listing e = true) (events_of (findPostByTitle t w))
  /\ (forall fuel p w0 ps w1,
        remote (ListPosts (listing p)) w0 = (inr ps, w1) ->
        scan_posts ps (normalizeTitle t) = NotFound ->
        length ps < 100 \/ 10 <= p ->
        title_pages (S fuel) p (normalizeTitle t) w0
        = (inr (Some None), w1, [Call (ListPosts (listing p))])).
Proof.
  split; [apply findPostByTitle_total|].
  split; [apply (title_pages_runs 10 1); lia|].
  split; [apply findPostByTitle_events|].
  split; [apply findPostByTitle_listing|].
  intros fuel p w0 ps w1. apply title_pages_stop.
Qed.

End TitleSearch.

(** ** The Drive link rewrite *)

Lemma skipn_prefix (p r : str) : skipn (length p) (p ++ r) = r.
Proof. induction p as [|a p IH]; [reflexivity | exact IH]. Qed.

Lemma lead_run (cls : ascii -> bool) (run post : str) :
  forallb cls run = true ->
  match post with [] => True | c :: _ => cls c = false end ->
  lead cls (run ++ post) = length run.
Proof.
  intros Hr Hp. induction run as [|a run IH]; simpl in *.
  - destruct post as [|c post]; [reflexivity|]. simpl. now rewrite Hp.
  - apply andb_true_iff in Hr. destruct Hr as [-> Hr]. now rewrite IH.
Qed.

Lemma firstn_prefix (p r : str) : firstn (length p) (p ++ r) = p.
Proof. induction p as [|a p IH]; simpl; [now destruct r | now rewrite IH]. Qed.

(** The test the scan makes at one place of the text. *)
Lemma capture_here (prefix : str) (cls : ascii -> bool) (s : str) :
  startsWith prefix s && (0 <? lead cls (skipn (length prefix) s)) = true ->
  exists c rest, s = prefix ++ c :: rest /\ cls c = true.
Proof.
  intros H. apply andb_true_iff in H. destruct H as [H1 H2].
  apply startsWith_split in H1. destruct H1 as [r ->].
  rewrite skipn_prefix in H2. destruct r as [|c rest]; [discriminate|].
  simpl in H2. destruct (cls c) eqn:C; [|discriminate]. now exists c, rest.
Qed.

Lemma capture_after_first (prefix url ID : str) :
  first_id_after prefix url ID ->
  capture_after prefix is_id_char url = Some ID.
Proof.
  intros (pre & post & -> & Hne & Hall & Hpost & Hfirst).
  induction pre as [|a pre IH].
  - simpl app. destruct (prefix ++ ID ++ post) as [|x xs] eqn:E.
    + destruct prefix; [|discriminate]. destruct ID; [contradiction | discriminate].
    + cbn [capture_after]. rewrite <- E.
      rewrite startsWith_app, skipn_prefix, (lead_run _ _ _ Hall Hpost).
      rewrite firstn_prefix.
      destruct ID as [|i ID]; [contradiction | reflexivity].
  - simpl app. cbn [capture_after].
    destruct (startsWith prefix (a :: pre ++ prefix ++ ID ++ post)
              && (0 <? lead is_id_char
                         (skipn (length prefix) (a :: pre ++ prefix ++ ID ++ post))))
      eqn:T.
    + exfalso. apply capture_here in T. destruct T as (c & rest & E & C).
      specialize (Hfirst [] c rest E C). simpl in Hfirst. lia.
    + apply IH. intros pre1 c rest E C.
      specialize (Hfirst (a :: pre1) c rest). simpl in Hfirst.
      rewrite E in Hfirst. specialize (Hfirst eq_refl C). lia.
Qed.

Lemma capture_after_none (prefix url : str) :
  no_id_after prefix url -> capture_after prefix is_id_char url = None.
Proof.
  induction url as [|a url IH]; intros H; [reflexivity|].
  cbn [capture_after].
  destruct (startsWith prefix (a :: url)
            && (0 <? lead is_id_char (skipn (length prefix) (a :: url)))) eqn:T.
  - exfalso. apply capture_here in T. destruct T as (c & rest & E & C).
    specialize (H [] c rest E). congruence.
  - apply IH. intros pre c rest E. apply (H (a :: pre) c rest).
    simpl. now rewrite E.
Qed.

Lemma includes_nonempty (p s : str) :
  nonempty p = true -> includes p s = true -> nonempty s = true.
Proof.
  intros Hp H. destruct s as [|c s]; [|reflexivity].
  destruct p; [discriminate | discriminate].
Qed.

Lemma convert_path_segment (url ID : str) :
  includes (js "drive.google.com") url = true ->
  first_id_after (js "/d/") url ID ->
  convertGoogleDriveUrl url = direct_download ++ ID.
Proof.
  intros Hd Hf. unfold convertGoogleDriveUrl.
  rewrite (includes_nonempty (js "drive.google.com") url eq_refl Hd), Hd.
  simpl negb. cbv iota.
  now rewrite (capture_after_first _ _ _ Hf).
Qed.

Lemma convert_query_parameter (url ID : str) :
  includes (js "drive.google.com") url = true ->
  no_id_after (js "/d/") url ->
  first_id_after (js "id=") url ID ->
  convertGoogleDriveUrl url = direct_download ++ ID.
Proof.
  intros Hd Hn Hf. unfold convertGoogleDriveUrl.
  rewrite (includes_nonempty (js "drive.google.com") url eq_refl Hd), Hd.
  simpl negb. cbv iota.
  now rewrite (capture_after_none _ _ Hn), (capture_after_first _ _ _ Hf).
Qed.

Lemma convert_unrecognised (url : str) :
  includes (js "drive.google.com") url = false
  \/ (no_id_after (js "/d/") url /\ no_id_after (js "id=") url) ->
  convertGoogleDriveUrl url = url.
Proof.
  intros H. unfold convertGoogleDriveUrl.
  destruct (negb (nonempty url)); [reflexivity|].
  destruct (includes (js "drive.google.com") url); [|reflexivity].
  destruct H as [H|[H1 H2]]; [discriminate|].
  now rewrite (capture_after_none _ _ H1), (capture_after_none _ _ H2).
Qed.

Example convert_view_link :
  convertGoogleDriveUrl (js "https://drive.google.com/file/d/ABC123/view")
  = js "https://drive.google.com/uc?export=download&id=ABC123".
Proof. reflexivity. Qed.

Example convert_open_link :
  convertGoogleDriveUrl (js "https://drive.google.com/open?id=x_Y-9&usp=sharing")
  = js "https://drive.google.com/uc?export=download&id=x_Y-9".
Proof. reflexivity. Qed.

Example convert_other_link :
  convertGoogleDriveUrl (js "https://example.com/d/ABC123/cat.png")
  = js "https://example.com/d/ABC123/cat.png".
Proof. reflexivity. Qed.

(** ** Three classes of traces *)

Section TraceClasses.
Context {N : NodeLib}.

(** Nothing was emitted. *)
#[export] Instance silent_class : TraceClass (fun ev => ev = []).
Proof.
  split; [reflexivity|]. intros a b -> ->. reflexivity.
Qed.

(** Every event satisfies [Q]. *)
#[export] Instance forall_class (Q : Event -> Prop) : TraceClass (Forall Q).
Proof.
  split; [constructor|]. intros a b Ha Hb. apply Forall_app. now split.
Qed.

Lemma paced_app (a b : list Event) : paced a -> paced b -> paced (a ++ b).
Proof.
  intros Ha Hb. induction Ha; simpl; try (constructor; assumption).
  exact Hb.
Qed.

#[export] Instance paced_class : TraceClass paced.
Proof. split; [constructor | exact paced_app]. Qed.

End TraceClasses.

Ltac emits_side :=
  lazymatch goal with
  | |- TraceClass _ => exact _
  | |- forall _, _ => intros ?
  | |- _ => idtac
  end.

(** One step through the structure of a computation. *)
Ltac emits_step :=
  cbv zeta;
  lazymatch goal with
  | |- emits _ (ret _) => apply emits_ret; emits_side
  | |- emits _ (throw _) => apply emits_throw; emits_side
  | |- emits _ (bind _ _) => apply emits_bind; emits_side
  | |- emits _ (try_catch _ _) => apply emits_try_catch; emits_side
  | |- emits _ (lift _) => apply emits_lift
  | |- emits _ (modify _) => apply emits_modify; emits_side
  | |- emits _ (match ?x with _ => _ end) => destruct x
  end.

Section MediaTraces.
Context {N : NodeLib} {R : Remote}.

Lemma reconcile_extension_silent (name : str) (contentType : option str) :
  emits (fun ev => ev = []) (BulkUpload.reconcile_extension name contentType).
Proof. unfold BulkUpload.reconcile_extension. repeat emits_step. Qed.

Lemma create_download_events (u : str) (w : World) :
  events_of (BulkUpload.downloadImageFromUrl u w) = [Call (HttpGet u)].
Proof.
  unfold BulkUpload.downloadImageFromUrl.
  rewrite events_try_ret, events_bind, events_call.
  destruct (outcome_of (call (HttpGet u) w)) as [e|response]; [reflexivity|].
  match goal with
  | |- _ ++ events_of (?k ?s) = _ => assert (K : emits (fun ev => ev = []) k)
  end.
  { repeat emits_step. apply reconcile_extension_silent. }
  now rewrite K.
Qed.

Lemma update_download_events (u : str) (w : World) :
  events_of (BulkUpdate.downloadImageFromUrl u w) = [Call (HttpGet u)].
Proof.
  unfold BulkUpdate.downloadImageFromUrl.
  rewrite events_try_ret, events_bind, events_call.
  destruct (outcome_of (call (HttpGet u) w)) as [e|response]; [reflexivity|].
  match goal with
  | |- _ ++ events_of (?k ?s) = _ => assert (K : emits (fun ev => ev = []) k)
  end.
  { repeat emits_step. }
  now rewrite K.
Qed.

Lemma http_nonempty (s : str) :
  startsWith (js "http://") s || startsWith (js "https://") s = true ->
  nonempty s = true.
Proof. destruct s; [discriminate | reflexivity]. Qed.

(** The upload that ends both versions of uploadMedia. *)
Lemma post_media_emits (P : list Event -> Prop) {TC : TraceClass P}
  (ms : Z) (acquired : option Downloaded) :
  (forall f, P [Sleep ms; Call (PostMedia (buffer f) (mimeType f) (fileName f))]) ->
  emits P
    (match acquired return M World (option Z) with
     | None => ret None
     | Some file =>
         try_catch
           (sleep ms ;;;
            id <- call (PostMedia (buffer file) (mimeType file) (fileName file)) ;;
            ret (Some id))
           (fun _ => ret None)
     end).
Proof.
  intros HP. destruct acquired as [f|]; [|apply emits_ret; exact _].
  intros w. rewrite events_try_ret, events_bind, events_bind, events_call.
  cbn [sleep state_of events_of fst snd app].
  destruct (outcome_of (call (PostMedia (buffer f) (mimeType f) (fileName f)) w));
    apply HP.
Qed.

(** In create mode the only fetch of a remote image is the first event,
    and it asks for the rewritten address. *)
Lemma create_fetches_rewritten (src : str) (w : World) :
  startsWith (js "http://") (trim src) || startsWith (js "https://") (trim src) = true ->
  exists rest,
    events_of (BulkUpload.uploadMedia src w)
    = Call (HttpGet (convertGoogleDriveUrl (trim src))) :: rest
    /\ Forall not_fetch rest.
Proof.
  intros H. unfold BulkUpload.uploadMedia.
  rewrite (http_nonempty _ H), H. cbv zeta. cbn [negb].
  rewrite events_bind, create_download_events.
  eexists. split; [reflexivity|].
  destruct (outcome_of _) as [e|acquired]; [constructor|].
  apply (post_media_emits (Forall not_fetch)).
  intros f. repeat constructor.
Qed.

End MediaTraces.

Lemma firstn_lead_all (cls : ascii -> bool) (r : str) :
  forallb cls (firstn (lead cls r) r) = true.
Proof.
  induction r as [|c r IH]; [reflexivity|]. simpl.
  destruct (cls c) eqn:C; [|reflexivity]. simpl. now rewrite C.
Qed.

Lemma lead_stops (cls : ascii -> bool) (r : str) :
  match skipn (lead cls r) r with
  | [] => True
  | c :: _ => cls c = false
  end.
Proof.
  induction r as [|c r IH]; [exact I|]. simpl.
  destruct (cls c) eqn:C; [exact IH | exact C].
Qed.

Lemma capture_test (prefix : str) (cls : ascii -> bool) (c : ascii) (rest : str) :
  cls c = true ->
  startsWith prefix (prefix ++ c :: rest)
  && (0 <? lead cls (skipn (length prefix) (prefix ++ c :: rest))) = true.
Proof.
  intros C. rewrite startsWith_app, skipn_prefix. simpl. now rewrite C.
Qed.

(** What the scan captures is the identifier after the first place where
    the prefix is followed by an identifier character. *)
Lemma capture_after_is_first (prefix url ID : str) :
  capture_after prefix is_id_char url = Some ID ->
  first_id_after prefix url ID.
Proof.
  revert ID. induction url as [|a url IH]; intros ID; [discriminate|].
  cbn [capture_after].
  destruct (startsWith prefix (a :: url)
            && (0 <? lead is_id_char (skipn (length prefix) (a :: url)))) eqn:T.
  - intros H. injection H as <-.
    pose proof T as T'. apply andb_true_iff in T'. destruct T' as [T1 T2].
    apply startsWith_split in T1. destruct T1 as [r E]. rewrite E in *.
    rewrite skipn_prefix in *.
    exists [], (skipn (lead is_id_char r) r).
    split; [now rewrite firstn_skipn|].
    split.
    { destruct r as [|c r]; [discriminate|]. simpl in *.
      destruct (is_id_char c); [discriminate | discriminate]. }
    split; [apply firstn_lead_all|].
    split; [apply lead_stops|].
    intros pre1 c rest _ _. simpl. lia.
  - intros H. destruct (IH ID H) as (pre & post & -> & Hne & Hall & Hpost & Hfirst).
    exists (a :: pre), post.
    split; [reflexivity|]. split; [exact Hne|]. split; [exact Hall|].
    split; [exact Hpost|].
    intros pre1 c rest E C. destruct pre1 as [|b pre1].
    + exfalso. simpl in E. rewrite E in T.
      rewrite (capture_test prefix is_id_char c rest C) in T. discriminate.
    + simpl in E. injection E as <- E. simpl.
      apply le_n_S. now apply (Hfirst pre1 c rest).
Qed.

Lemma capture_after_is_none (prefix url : str) :
  capture_after prefix is_id_char url = None -> no_id_after prefix url.
Proof.
  induction url as [|a url IH]; intros H pre c rest E.
  - destruct pre; [destruct prefix|]; discriminate.
  - cbn [capture_after] in H.
    destruct (startsWith prefix (a :: url)
              && (0 <? lead is_id_char (skipn (length prefix) (a :: url)))) eqn:T;
      [discriminate|].
    destruct pre as [|b pre].
    + simpl in E. rewrite E in T.
      destruct (is_id_char c) eqn:C; [|reflexivity].
      rewrite (capture_test prefix is_id_char c rest C) in T. discriminate.
    + simpl in E. injection E as <- E. now apply (IH H pre c rest).
Qed.

Lemma id_after_or_none (prefix url : str) :
  (exists ID, first_id_after prefix url ID) \/ no_id_after prefix url.
Proof.
  destruct (capture_after prefix is_id_char url) as [ID|] eqn:E.
  - left. exists ID. now apply capture_after_is_first.
  - right. now apply capture_after_is_none.
Qed.

(** C9 (amended). The rewrite of an address that holds drive.google.com
    goes by the text alone.  The identifier it takes is the run of
    identifier characters after the leftmost /d/ that is followed by one;
    only when the address has no such place, the run after the leftmost
    id= that is followed by one, wherever that text stands: as a
    parameter of its own or as the end of a longer parameter name.  The
    address is then rewritten to the direct-download address of that
    identifier.  Every address falls under one of these cases or holds no
    such place; an address that is no Drive link or holds no such place is
    returned unchanged; and create-mode media ingestion fetches a remote
    image once, first of all, at the rewritten address. *)
Theorem drive_link_rewritten_before_fetch :
  (forall url ID,
      includes (js "drive.google.com") url = true ->
      first_id_after (js "/d/") url ID ->
      convertGoogleDriveUrl url
      = js "https://drive.google.com/uc?export=download&id=" ++ ID)
  /\ (forall url ID,
        includes (js "drive.google.com") url = true ->
        no_id_after (js "/d/") url ->
        first_id_after (js "id=") url ID ->
        convertGoogleDriveUrl url
        = js "https://drive.google.com/uc?export=download&id=" ++ ID)
  /\ (forall url,
        includes (js "drive.google.com") url = false
        \/ (no_id_after (js "/d/") url /\ no_id_after (js "id=") url) ->
        convertGoogleDriveUrl url = url)
  /\ (forall prefix url,
        (exists ID, first_id_after prefix url ID) \/ no_id_after prefix url)
  /\ (forall (N : NodeLib) (R : Remote) (src : str) (w : World),
        startsWith (js "http://") (trim src)
        || startsWith (js "https://") (trim src) = true ->
        exists rest,
          events_of (BulkUpload.uploadMedia src w)
          = Call (HttpGet (convertGoogleDriveUrl (trim src))) :: rest
          /\ Forall not_fetch rest).
Proof.
  split; [exact convert_path_segment|].
  split; [exact convert_query_parameter|].
  split; [exact convert_unrecognised|].
  split; [exact id_after_or_none|].
  intros N R. apply create_fetches_rewritten.
Qed.

(** ** The result object of a row *)

Section Results.
Context {N : NodeLib} {R : Remote}.

Lemma keeps_lift {A} (m : M World A) : keeps_result (lift m).
Proof. intros s. now rewrite state_lift. Qed.

Lemma keeps_ret {A} (a : A) : keeps_result (ret a).
Proof. intros s. reflexivity. Qed.

Lemma keeps_throw {A} (e : Exn) : keeps_result (throw e : M _ A).
Proof. intros s. reflexivity. Qed.

Lemma writes_throw (acts : list Action) (e : Exn) : writes_at_end acts (throw e).
Proof. intros s. reflexivity. Qed.

Lemma writes_bind {A} (acts : list Action)
  (m : M (Outcome * World) A) (k : A -> M (Outcome * World) unit) :
  keeps_result m -> (forall a, writes_at_end acts (k a)) ->
  writes_at_end acts (bind m k).
Proof.
  intros Hm Hk s. rewrite outcome_bind, state_bind. specialize (Hm s).
  destruct (outcome_of (m s)) as [e|a]; [exact Hm|].
  specialize (Hk a (state_of (m s))). rewrite Hm in Hk. exact Hk.
Qed.

Lemma writes_modify (acts : list Action) (a : Action) (data : Post) :
  In a acts -> writes_at_end acts (modify (record_success a data)).
Proof. intros I s. now exists a, data. Qed.

Lemma create_writes_at_end (row : Row) (config : Config) :
  writes_at_end [created; updated] (BulkUpload.createOrUpdatePost_try row config).
Proof.
  unfold BulkUpload.createOrUpdatePost_try.
  apply writes_bind; [apply keeps_lift | intros postData]. cbv zeta.
  apply writes_bind; [apply keeps_lift | intros existing].
  destruct (truthy existing); [apply writes_throw|].
  apply writes_bind; [apply keeps_lift | intros existingPostId].
  apply writes_bind; [apply keeps_lift | intros _].
  destruct (truthy existingPostId);
    (apply writes_bind;
     [apply keeps_lift | intros data; apply writes_modify; simpl; tauto]).
Qed.

(** What is left of updatePost once the target is known
    (bulk-update.js 1346-1435). *)
Lemma update_rest_writes_at_end (row : Row) (config : Config) (target : Z) :
  writes_at_end [updated]
    (existingPost <- lift (call (GetPost (Z_to_str target))) ;;
     updateData <- lift (BulkUpdate.buildUpdateData row config) ;;
     if length updateData =? 0 then throw BulkUpdate.nothing_to_update
     else
       lift (sleep (request_delay_ms config)) ;;;
       data <- lift (call (UpdatePost target updateData)) ;;
       modify (record_success updated data)).
Proof.
  apply writes_bind; [apply keeps_lift | intros existingPost].
  apply writes_bind; [apply keeps_lift | intros updateData].
  destruct (length updateData =? 0); [apply writes_throw|].
  apply writes_bind; [apply keeps_lift | intros _].
  apply writes_bind;
    [apply keeps_lift | intros data; apply writes_modify; now left].
Qed.

Lemma run_row_result (body : M (Outcome * World) unit) (init : Outcome) (w : World) :
  result_of (run_row body init w) =
  match outcome_of (body (init, w)) with
  | inl e => record_error e (fst (state_of (body (init, w))))
  | inr _ => fst (state_of (body (init, w)))
  end.
Proof.
  unfold run_row, result_of, outcome_of, state_of.
  now destruct (body (init, w)) as [[[e|u] [res w']] ev].
Qed.

Lemma run_row_trace (body : M (Outcome * World) unit) (init : Outcome) (w : World) :
  trace_of (run_row body init w) = events_of (body (init, w)).
Proof.
  unfold run_row, trace_of, events_of.
  now destruct (body (init, w)) as [[[e|u] [res w']] ev].
Qed.

(** The outcome of a create row: the initial object with the error, or
    with the action and the answer of the write. *)
Lemma create_result (row : Row) (n : nat) (config : Config) (w : World) :
  match outcome_of (BulkUpload.createOrUpdatePost_try row config (initial_result row n, w)) with
  | inl e =>
      result_of (BulkUpload.createOrUpdatePost row n config w)
      = record_error e (initial_result row n)
  | inr _ =>
      exists a data,
        result_of (BulkUpload.createOrUpdatePost row n config w)
        = record_success a data (initial_result row n)
  end.
Proof.
  unfold BulkUpload.createOrUpdatePost. rewrite run_row_result.
  pose proof (create_writes_at_end row config (initial_result row n, w)) as H.
  destruct (outcome_of _) as [e|u]; simpl fst in H; [now rewrite H|].
  destruct H as (a & data & _ & H). now exists a, data.
Qed.

(** The outcome of an update row, by how far the row got. *)
Lemma update_result (row : Row) (n : nat) (config : Config) (w : World) :
  let init := initial_result row n in
  let body := BulkUpdate.updatePost_try row config (init, w) in
  let result := result_of (BulkUpdate.updatePost row n config w) in
  match outcome_of (BulkUpdate.resolve_target row w) with
  | inl e => outcome_of body = inl e /\ result = record_error e init
  | inr target =>
      match outcome_of body with
      | inl e => result = record_error e (set_postId target init)
      | inr _ => exists data, result = record_success updated data (set_postId target init)
      end
  end.
Proof.
  cbv zeta. unfold BulkUpdate.updatePost. rewrite run_row_result.
  unfold BulkUpdate.updatePost_try.
  rewrite outcome_bind, state_bind, outcome_lift, state_lift. cbn [fst snd].
  destruct (outcome_of (BulkUpdate.resolve_target row w)) as [e|target];
    [now split|].
  rewrite outcome_bind, state_bind.
  cbn [modify outcome_of state_of fst snd].
  pose proof (update_rest_writes_at_end row config target
                (set_postId target (initial_result row n),
                 state_of (BulkUpdate.resolve_target row w))) as H.
  cbn [fst] in H.
  match type of H with
  | match ?o with _ => _ end => destruct o as [e|u]
  end.
  - now rewrite H.
  - destruct H as (a & data & [<-|[]] & H). rewrite H. now exists data.
Qed.

End Results.

Section RowOutcomes.
Context {N : NodeLib} {R : Remote}.

Lemma report_returns (reporter : Reporter) (kind : ReportKind) (s : Outcome * World) :
  Reporting.reports_return reporter ->
  Reporting.report reporter kind s = (inr tt, s, []).
Proof.
  intros [Hc Hp]. unfold Reporting.report. rewrite Hc.
  destruct (progressCallback reporter) as [callback|] eqn:E; [|reflexivity].
  now rewrite (Hp callback kind (fst s) eq_refl).
Qed.

(** With reports that return, the row function with its reporting is the
    row function without. *)
Lemma run_row_reporting_returns (reporter : Reporter)
  (body : M (Outcome * World) unit) (init : Outcome) (w : World) :
  Reporting.reports_return reporter ->
  Reporting.run_row_reporting reporter body init w
  = (inr (result_of (run_row body init w)), world_of (run_row body init w),
     trace_of (run_row body init w)).
Proof.
  intros Hr. unfold Reporting.run_row_reporting, run_row, bind.
  destruct (body (init, w)) as [[[e|u] [result w']] ev].
  - rewrite (report_returns _ _ _ Hr). cbn. now rewrite app_nil_r.
  - rewrite (report_returns _ _ _ Hr). cbn. now rewrite app_nil_r.
Qed.

(** C2 (amended). When the reports of a row (the console calls and the
    progress callback at the end of the [try] and in the [catch]) return,
    neither row function raises: each returns its result object, the one
    of the row function without reporting.  An error is recorded in it
    exactly when no action was; when the body of the [try] raises, the
    object carries no action and the message of the exception, followed
    by the response body when that body is truthy.  And whatever the body
    of the [try] is, the row boundary returns and stores the text of what
    the body raised. *)
Theorem row_errors_caught (reporter : Reporter) (row : Row) (n : nat)
  (config : Config) (w : World) :
  Reporting.reports_return reporter ->
  let create := BulkUpload.createOrUpdatePost row n config w in
  let update := BulkUpdate.updatePost row n config w in
  (Reporting.createOrUpdatePost reporter row n config w
   = (inr (result_of create), world_of create, trace_of create)
   /\ error_iff_none (result_of create)
   /\ forall e,
        outcome_of (BulkUpload.createOrUpdatePost_try row config (initial_result row n, w))
        = inl e ->
        action (result_of create) = None
        /\ error (result_of create)
           = Some match response_data e with
                  | Some (Truthy data) => message e ++ js ": " ++ data
                  | _ => message e
                  end)
  /\ (Reporting.updatePost reporter row n config w
      = (inr (result_of update), world_of update, trace_of update)
      /\ error_iff_none (result_of update)
      /\ forall e,
           outcome_of (BulkUpdate.updatePost_try row config (initial_result row n, w))
           = inl e ->
           action (result_of update) = None
           /\ error (result_of update)
              = Some match response_data e with
                     | Some (Truthy data) => message e ++ js ": " ++ data
                     | _ => message e
                     end)
  /\ (forall body init,
        exists result,
          outcome_of (Reporting.run_row_reporting reporter body init w) = inr result
          /\ forall e,
               outcome_of (body (init, w)) = inl e ->
               error result
               = Some match response_data e with
                      | Some (Truthy data) => message e ++ js ": " ++ data
                      | _ => message e
                      end).
Proof.
  intros Hr. cbv zeta.
  pose proof (create_result row n config w) as C.
  pose proof (update_result row n config w) as U. cbv zeta in U.
  split; [|split].
  - split; [apply (run_row_reporting_returns _ _ _ _ Hr)|].
    destruct (outcome_of (BulkUpload.createOrUpdatePost_try _ _ _)) as [e|u].
    + rewrite C. split; [split; [reflexivity | discriminate]|].
      intros e' H. injection H as <-. now split.
    + destruct C as (a & data & ->).
      split; [split; [intros H; now contradiction H | discriminate]|].
      discriminate.
  - split; [apply (run_row_reporting_returns _ _ _ _ Hr)|].
    destruct (outcome_of (BulkUpdate.resolve_target row w)) as [e|target].
    + destruct U as [U ->]. split; [split; [reflexivity | discriminate]|].
      intros e' H. rewrite U in H. injection H as <-. now split.
    + destruct (outcome_of (BulkUpdate.updatePost_try _ _ _)) as [e|u].
      * rewrite U. split; [split; [reflexivity | discriminate]|].
        intros e' H. injection H as <-. now split.
      * destruct U as (data & ->).
        split; [split; [intros H; now contradiction H | discriminate]|].
        discriminate.
  - intros body init. rewrite (run_row_reporting_returns _ _ _ _ Hr).
    eexists. split; [reflexivity|]. intros e H.
    rewrite run_row_result, H. reflexivity.
Qed.


End RowOutcomes.

(** ** Sparse updates *)

Section SparseUpdates.
Context {N : NodeLib} {R : Remote}.

Lemma trimmed_fixed (f : option str) (s : str) :
  trimmed f = Some s -> trim s = s /\ nonempty s = true.
Proof.
  destruct f as [x|]; [|discriminate]. simpl.
  destruct (nonempty (trim x)) eqn:E; [|discriminate].
  intros H. injection H as <-. split; [apply trim_idem | exact E].
Qed.

Lemma truthy_nonzero (z : Z) : z <> 0%Z -> truthy (Some z) = Some z.
Proof. intros H. simpl. destruct (Z.eqb_spec z 0); [contradiction | reflexivity]. Qed.

(** The payload of a row with no populated column but, perhaps, the slug. *)
Lemma buildUpdateData_sparse (row : Row) (config : Config) (w : World) :
  no_update_columns row ->
  BulkUpdate.buildUpdateData row config w
  = (inr match trimmed (slug row) with
         | Some s => [("slug"%string, VStr s)]
         | None => []
         end, w, []).
Proof.
  intros (Ht & Hc & Hs & He & Ha & Hcat & Htag & Hp & Hu).
  unfold BulkUpdate.buildUpdateData, add_text, add_acf, add_terms, imagePath.
  rewrite Ht, Hc, Hs, He, Ha, Hcat, Htag, Hp, Hu. cbv zeta.
  now destruct (trimmed (slug row)).
Qed.

Lemma resolve_by_id (row : Row) (ref : str) (found : Post) (w w1 : World) :
  trimmed (post_id row) = Some ref ->
  remote (GetPost ref) w = (inr found, w1) ->
  p_id found <> 0%Z ->
  BulkUpdate.resolve_target row w = (inr (p_id found), w1, [Call (GetPost ref)]).
Proof.
  intros Hid Hr Hz. unfold BulkUpdate.resolve_target. rewrite Hid.
  destruct (trimmed_fixed _ _ Hid) as [_ Hn].
  unfold BulkUpdate.findPostById, BulkUpdate.found_or. rewrite Hn. cbn [negb].
  unfold bind, try_catch, call. rewrite Hr. cbn [ret app].
  now rewrite (truthy_nonzero _ Hz).
Qed.

Lemma resolve_by_slug (row : Row) (s : str) (found : Post) (others : list Post)
  (w w1 : World) :
  trimmed (post_id row) = None ->
  trimmed (slug row) = Some s ->
  remote (GetPostsBySlug s 1) w = (inr (found :: others), w1) ->
  p_id found <> 0%Z ->
  BulkUpdate.resolve_target row w
  = (inr (p_id found), w1, [Call (GetPostsBySlug s 1)]).
Proof.
  intros Hid Hs Hr Hz. unfold BulkUpdate.resolve_target. rewrite Hid, Hs.
  destruct (trimmed_fixed _ _ Hs) as [Ht Hn].
  unfold findPostBySlug, BulkUpdate.found_or. rewrite Ht, Hn. cbn [negb].
  unfold bind, try_catch, call. rewrite Hr. cbn [ret app].
  now rewrite (truthy_nonzero _ Hz).
Qed.

(** A resolved row whose payload is empty: no write, the error. *)
Lemma update_run_empty (row : Row) (n : nat) (config : Config)
  (target : Z) (existing : Post) (w w1 w2 : World) (ev1 : list Event) :
  BulkUpdate.resolve_target row w = (inr target, w1, ev1) ->
  remote (GetPost (Z_to_str target)) w1 = (inr existing, w2) ->
  no_update_columns row ->
  trimmed (slug row) = None ->
  BulkUpdate.updatePost row n config w
  = (record_error BulkUpdate.nothing_to_update
       (set_postId target (initial_result row n)),
     w2, ev1 ++ [Call (GetPost (Z_to_str target))]).
Proof.
  intros Hres Hget Hcols Hslug.
  unfold BulkUpdate.updatePost, run_row, BulkUpdate.updatePost_try.
  unfold bind, lift, modify, throw, call. cbn [fst snd].
  rewrite Hres. cbn [fst snd]. rewrite Hget.
  rewrite (buildUpdateData_sparse _ _ _ Hcols), Hslug. cbn [length Nat.eqb].
  now rewrite !app_nil_r.
Qed.

(** A resolved row whose payload is the slug alone: one update call. *)
Lemma update_run_slug (row : Row) (n : nat) (config : Config) (s : str)
  (target : Z) (existing data : Post) (w w1 w2 w3 : World) (ev1 : list Event) :
  BulkUpdate.resolve_target row w = (inr target, w1, ev1) ->
  remote (GetPost (Z_to_str target)) w1 = (inr existing, w2) ->
  no_update_columns row ->
  trimmed (slug row) = Some s ->
  remote (UpdatePost target [("slug"%string, VStr s)]) w2 = (inr data, w3) ->
  BulkUpdate.updatePost row n config w
  = (record_success updated data (set_postId target (initial_result row n)),
     w3,
     ev1 ++ [Call (GetPost (Z_to_str target)); Sleep (request_delay_ms config);
             Call (UpdatePost target [("slug"%string, VStr s)])]).
Proof.
  intros Hres Hget Hcols Hslug Hupd.
  unfold BulkUpdate.updatePost, run_row, BulkUpdate.updatePost_try.
  unfold bind, lift, modify, throw, call, sleep. cbn [fst snd].
  rewrite Hres. cbn [fst snd]. rewrite Hget.
  rewrite (buildUpdateData_sparse _ _ _ Hcols), Hslug. cbn [length Nat.eqb fst snd].
  rewrite Hupd. now rewrite !app_nil_r.
Qed.

(** C8. In update mode a row whose post_id resolves to an existing post
    and whose other columns are all absent or blank fails: no action, the
    nothing-to-update error, and no update call (no write at all: the two
    requests of the row are the look-up and the fetch of the post). *)
Theorem empty_update_rejected (row : Row) (n : nat) (config : Config)
  (ref : str) (found existing : Post) (w w1 w2 : World) :
  trimmed (post_id row) = Some ref ->
  trimmed (slug row) = None ->
  no_update_columns row ->
  remote (GetPost ref) w = (inr found, w1) ->
  p_id found <> 0%Z ->
  remote (GetPost (Z_to_str (p_id found))) w1 = (inr existing, w2) ->
  let r := BulkUpdate.updatePost row n config w in
  action (result_of r) = None
  /\ error (result_of r)
     = Some (js "No fields to update. Provide at least one field to update.")
  /\ trace_of r = [Call (GetPost ref); Call (GetPost (Z_to_str (p_id found)))]
  /\ Forall (fun e => is_write_event e = false) (trace_of r).
Proof.
  intros Hid Hslug Hcols Hfind Hz Hget r. subst r.
  rewrite (update_run_empty row n config _ _ _ _ _ _
             (resolve_by_id _ _ _ _ _ Hid Hfind Hz) Hget Hcols Hslug).
  repeat split. repeat constructor.
Qed.

(** C10. In update mode a row whose only populated column is slug is not
    an empty update: the slug that identifies the post is copied into the
    payload, so when a post with that slug exists the row ends with the
    action updated, after one update call whose payload is the slug alone;
    a row whose only populated column is post_id fails instead with the
    nothing-to-update error. *)
Theorem slug_only_row_updates (row : Row) (n : nat) (config : Config) :
  no_update_columns row ->
  (forall s found others existing data w w1 w2 w3,
      trimmed (post_id row) = None ->
      trimmed (slug row) = Some s ->
      remote (GetPostsBySlug s 1) w = (inr (found :: others), w1) ->
      p_id found <> 0%Z ->
      remote (GetPost (Z_to_str (p_id found))) w1 = (inr existing, w2) ->
      remote (UpdatePost (p_id found) [("slug"%string, VStr s)]) w2 = (inr data, w3) ->
      let r := BulkUpdate.updatePost row n config w in
      action (result_of r) = Some updated
      /\ postId (result_of r) = Some (p_id data)
      /\ error (result_of r) = None
      /\ trace_of r
         = [Call (GetPostsBySlug s 1); Call (GetPost (Z_to_str (p_id found)));
            Sleep (request_delay_ms config);
            Call (UpdatePost (p_id found) [("slug"%string, VStr s)])])
  /\ (forall ref found existing w w1 w2,
        trimmed (post_id row) = Some ref ->
        trimmed (slug row) = None ->
        remote (GetPost ref) w = (inr found, w1) ->
        p_id found <> 0%Z ->
        remote (GetPost (Z_to_str (p_id found))) w1 = (inr existing, w2) ->
        let r := BulkUpdate.updatePost row n config w in
        action (result_of r) = None
        /\ error (result_of r)
           = Some (js "No fields to update. Provide at least one field to update.")).
Proof.
  intros Hcols. split.
  - intros s found others existing data w w1 w2 w3 Hid Hslug Hfind Hz Hget Hupd r.
    subst r.
    rewrite (update_run_slug row n config s _ _ _ _ _ _ _ _
               (resolve_by_slug _ _ _ _ _ _ Hid Hslug Hfind Hz)
               Hget Hcols Hslug Hupd).
    repeat split.
  - intros ref found existing w w1 w2 Hid Hslug Hfind Hz Hget r. subst r.
    rewrite (update_run_empty row n config _ _ _ _ _ _
               (resolve_by_id _ _ _ _ _ Hid Hfind Hz) Hget Hcols Hslug).
    repeat split.
Qed.

End SparseUpdates.

(** ** Pacing *)

Section Pacing.
Context {N : NodeLib} {R : Remote}.

Lemma paced_one_read (r : Request) :
  is_write r = false -> (forall t s n, r <> GetTerms t s n) -> paced [Call r].
Proof. intros Hw Hn. apply paced_read; [exact Hw | exact Hn | constructor]. Qed.

Lemma paced_pages (qs : list nat) : paced (map page_call qs).
Proof.
  induction qs as [|q qs IH]; [constructor|].
  apply paced_read; [reflexivity | discriminate | exact IH].
Qed.

Lemma findPostByTitle_paced (t : str) : emits paced (findPostByTitle t).
Proof.
  intros w. destruct (findPostByTitle_events t w) as [k [_ ->]].
  apply paced_pages.
Qed.

Lemma findPostBySlug_paced (s : str) : emits paced (findPostBySlug s).
Proof.
  unfold findPostBySlug. repeat emits_step.
  apply emits_call. now apply paced_one_read.
Qed.

Lemma findPostById_paced (ref : str) : emits paced (BulkUpdate.findPostById ref).
Proof.
  unfold BulkUpdate.findPostById. repeat emits_step.
  apply emits_call. now apply paced_one_read.
Qed.

(** A write directly after its delay. *)
Lemma delayed_write_paced {A} (ms : Z) (r : Request)
  (k : answer r -> M (Outcome * World) A) :
  is_write r = true ->
  (forall a, emits paced (k a)) ->
  emits paced (lift (sleep ms) ;;; (data <- lift (call r) ;; k data)).
Proof.
  intros Hw Hk s.
  rewrite events_bind, events_lift, outcome_lift, state_lift.
  cbn [sleep outcome_of events_of state_of fst snd].
  rewrite events_bind, events_lift, events_call.
  cbn [app]. apply paced_write; [exact Hw|].
  destruct (outcome_of _); [constructor | apply Hk].
Qed.

(** One name of a term list: the search, then perhaps the creation of
    the term after its delay.  It never raises. *)
Lemma getOrCreateTerm_run (name : str) (taxonomy : Taxonomy) (config : Config)
  (w : World) :
  nonempty (trim name) = true ->
  (exists id, outcome_of (getOrCreateTerm name taxonomy config w) = inr id)
  /\ (events_of (getOrCreateTerm name taxonomy config w)
      = [Call (GetTerms taxonomy (trim name) 100)]
      \/ events_of (getOrCreateTerm name taxonomy config w)
         = [Call (GetTerms taxonomy (trim name) 100);
            Sleep (request_delay_ms config);
            Call (CreateTerm taxonomy (trim name))]).
Proof.
  intros Hn. unfold getOrCreateTerm. rewrite Hn. cbn [negb]. cbv zeta.
  split.
  - apply total_try_catch. intros e. apply total_ret.
  - rewrite events_try_ret, events_bind, events_call.
    destruct (outcome_of (call (GetTerms taxonomy (trim name) 100) w)) as [e|found];
      [now left|].
    destruct (find _ found); [now left|].
    right. rewrite events_bind. cbn [sleep events_of outcome_of state_of fst snd].
    rewrite events_bind, events_call.
    now destruct (outcome_of _).
Qed.

Lemma resolveTerms_loop_paced (names : list str) (taxonomy : Taxonomy)
  (config : Config) :
  Forall (fun name => nonempty (trim name) = true) names ->
  forall termIds, emits paced (resolveTerms_loop names taxonomy config termIds).
Proof.
  induction 1 as [|name names Hn _ IH]; intros termIds w; [constructor|].
  cbn [resolveTerms_loop]. rewrite events_bind.
  destruct (getOrCreateTerm_run name taxonomy config w Hn) as [[id ->] He].
  rewrite events_bind. cbn [sleep events_of outcome_of state_of fst snd].
  destruct He as [-> | ->]; cbn [app].
  - apply paced_term_found. apply IH.
  - apply paced_term_created. apply IH.
Qed.

Lemma term_names_nonblank (termString : str) :
  Forall (fun name => nonempty (trim name) = true) (term_names termString).
Proof.
  unfold term_names. apply Forall_forall. intros name I.
  apply filter_In in I. destruct I as [I Hn].
  apply in_map_iff in I. destruct I as [x [<- _]].
  now rewrite trim_idem.
Qed.

Lemma resolveTerms_paced (termString : str) (taxonomy : Taxonomy) (config : Config) :
  emits paced (resolveTerms termString taxonomy config).
Proof.
  unfold resolveTerms. destruct (negb (nonempty (trim termString))).
  - apply emits_ret. exact _.
  - apply resolveTerms_loop_paced, term_names_nonblank.
Qed.

Lemma add_terms_paced (k : string) (taxonomy : Taxonomy) (f : option str)
  (config : Config) (p : Payload) :
  emits paced (add_terms k taxonomy f config p).
Proof.
  unfold add_terms. destruct (trimmed f); [|apply emits_ret; exact _].
  apply emits_bind; [exact _ | apply resolveTerms_paced |].
  intros ids. apply emits_ret. exact _.
Qed.

Lemma local_file_paced (fullPath : str) :
  emits paced
    (present <- call (FsExists fullPath) ;;
     if negb present then ret None
     else
       fileBuffer <- call (FsRead fullPath) ;;
       ret (Some {| buffer := fileBuffer;
                    mimeType := or_str (mime_lookup fullPath)
                                  (js "application/octet-stream");
                    fileName := path_basename fullPath |})).
Proof.
  apply emits_bind; [exact _ | apply emits_call; now apply paced_one_read |].
  intros present. destruct (negb present); [apply emits_ret; exact _|].
  apply emits_bind; [exact _ | apply emits_call; now apply paced_one_read |].
  intros b. apply emits_ret. exact _.
Qed.

Lemma paced_delayed_media (ms : Z) (f : Downloaded) :
  paced [Sleep ms; Call (PostMedia (buffer f) (mimeType f) (fileName f))].
Proof. apply paced_write; [reflexivity | constructor]. Qed.

Lemma create_uploadMedia_paced (src : str) : emits paced (BulkUpload.uploadMedia src).
Proof.
  unfold BulkUpload.uploadMedia.
  destruct (negb (nonempty (trim src))); [apply emits_ret; exact _|]. cbv zeta.
  apply emits_bind; [exact _ | |].
  - destruct (_ || _).
    + intros w. rewrite create_download_events. now apply paced_one_read.
    + apply local_file_paced.
  - intros acquired. apply post_media_emits; [exact _|].
    intros f. apply paced_delayed_media.
Qed.

Lemma update_uploadMedia_paced (src : str) (config : Config) :
  emits paced (BulkUpdate.uploadMedia src config).
Proof.
  unfold BulkUpdate.uploadMedia.
  destruct (negb (nonempty (trim src))); [apply emits_ret; exact _|].
  apply emits_bind; [exact _ | |].
  - destruct (_ || _).
    + intros w. rewrite update_download_events. now apply paced_one_read.
    + apply local_file_paced.
  - intros acquired. apply post_media_emits; [exact _|].
    intros f. apply paced_delayed_media.
Qed.

Lemma buildPostData_paced (row : Row) (config : Config) :
  emits paced (BulkUpload.buildPostData row config).
Proof.
  unfold BulkUpload.buildPostData.
  destruct (trimmed (title row)); [|apply emits_throw; exact _].
  destruct (trimmed (content row)); [|apply emits_throw; exact _]. cbv zeta.
  apply emits_bind; [exact _ | apply add_terms_paced | intros p1].
  apply emits_bind; [exact _ | apply add_terms_paced | intros p2].
  apply emits_bind; [exact _ | | intros p3; apply emits_ret; exact _].
  destruct (imagePath row); [|apply emits_ret; exact _].
  apply emits_bind; [exact _ | apply create_uploadMedia_paced |].
  intros m. apply emits_ret. exact _.
Qed.

Lemma buildUpdateData_paced (row : Row) (config : Config) :
  emits paced (BulkUpdate.buildUpdateData row config).
Proof.
  unfold BulkUpdate.buildUpdateData. cbv zeta.
  apply emits_bind; [exact _ | apply add_terms_paced | intros p1].
  apply emits_bind; [exact _ | apply add_terms_paced | intros p2].
  destruct (imagePath row); [|apply emits_ret; exact _].
  apply emits_bind; [exact _ | apply update_uploadMedia_paced |].
  intros m. apply emits_ret. exact _.
Qed.

Lemma resolve_target_paced (row : Row) : emits paced (BulkUpdate.resolve_target row).
Proof.
  unfold BulkUpdate.resolve_target, BulkUpdate.found_or.
  destruct (trimmed (post_id row)).
  { apply emits_bind; [exact _ | apply findPostById_paced | intros f].
    destruct (truthy f); [apply emits_ret | apply emits_throw]; exact _. }
  destruct (trimmed (slug row)).
  { apply emits_bind; [exact _ | apply findPostBySlug_paced | intros f].
    destruct (truthy f); [apply emits_ret | apply emits_throw]; exact _. }
  destruct (trimmed (title row)); [|apply emits_throw; exact _].
  apply emits_bind; [exact _ | apply findPostByTitle_paced | intros f].
  destruct (truthy f); [apply emits_ret | apply emits_throw]; exact _.
Qed.

Lemma create_body_paced (row : Row) (config : Config) :
  emits paced (BulkUpload.createOrUpdatePost_try row config).
Proof.
  unfold BulkUpload.createOrUpdatePost_try.
  apply emits_bind; [exact _ | apply emits_lift, buildPostData_paced | intros pd].
  cbv zeta.
  apply emits_bind; [exact _ | apply emits_lift, findPostByTitle_paced | intros ex].
  destruct (truthy ex); [apply emits_throw; exact _|].
  apply emits_bind; [exact _ | | intros existingPostId].
  { apply emits_lift. destruct (nonempty _);
      [apply findPostBySlug_paced | apply emits_ret; exact _]. }
  destruct (truthy existingPostId);
    (apply delayed_write_paced;
     [reflexivity | intros data; apply emits_modify; exact _]).
Qed.

Lemma update_body_paced (row : Row) (config : Config) :
  emits paced (BulkUpdate.updatePost_try row config).
Proof.
  unfold BulkUpdate.updatePost_try.
  apply emits_bind; [exact _ | apply emits_lift, resolve_target_paced | intros target].
  apply emits_bind; [exact _ | apply emits_modify; exact _ | intros _].
  apply emits_bind; [exact _ | | intros existing].
  { apply emits_lift, emits_call. now apply paced_one_read. }
  apply emits_bind; [exact _ | apply emits_lift, buildUpdateData_paced | intros ud].
  destruct (length ud =? 0); [apply emits_throw; exact _|].
  apply delayed_write_paced;
    [reflexivity | intros data; apply emits_modify; exact _].
Qed.

Lemma paced_writes_follow (t : list Event) :
  paced t -> forall b, writes_follow_delays b t = true.
Proof.
  induction 1 as [|r rest Hw Hn _ IH|ms r rest Hw _ IH|t s n ms rest _ IH
                  |t s n ms1 name ms2 rest _ IH]; intros b; cbn.
  - reflexivity.
  - rewrite Hw. apply IH.
  - rewrite Hw. apply IH.
  - apply IH.
  - apply IH.
Qed.

Lemma paced_counts (t : list Event) :
  paced t ->
  count_events is_sleep t
  = count_events is_write_event t + count_events is_term_search t.
Proof.
  unfold count_events.
  induction 1 as [|r rest Hw Hn _ IH|ms r rest Hw _ IH|t s n ms rest _ IH
                  |t s n ms1 name ms2 rest _ IH]; cbn.
  - reflexivity.
  - rewrite Hw. destruct r; try exact IH. exfalso. eapply Hn. reflexivity.
  - rewrite Hw. cbn. destruct r; try discriminate; cbn; lia.
  - cbn. lia.
  - cbn. lia.
Qed.

(** C7 (amended). In both modes, on every row and every world, the
    requests and delays of a row follow the pacing grammar: every remote
    write (term creation, media upload, post create, post update) comes
    directly after one pacing delay; every taxonomy search is followed by
    one more delay, whether the term was found by the search or created;
    slug and id look-ups, title-listing pages, image fetches and file
    reads come with no delay of their own.  So every write stands directly
    after a delay, and there are as many delays as writes and taxonomy
    searches together. *)
Theorem rows_are_paced (row : Row) (n : nat) (config : Config) (w : World) :
  let create := trace_of (BulkUpload.createOrUpdatePost row n config w) in
  let update := trace_of (BulkUpdate.updatePost row n config w) in
  (paced create /\ paced update)
  /\ (writes_follow_delays false create = true
      /\ writes_follow_delays false update = true)
  /\ (count_events is_sleep create
      = count_events is_write_event create + count_events is_term_search create
      /\ count_events is_sleep update
         = count_events is_write_event update + count_events is_term_search update).
Proof.
  cbv zeta.
  assert (C : paced (trace_of (BulkUpload.createOrUpdatePost row n config w))).
  { unfold BulkUpload.createOrUpdatePost. rewrite run_row_trace.
    apply create_body_paced. }
  assert (U : paced (trace_of (BulkUpdate.updatePost row n config w))).
  { unfold BulkUpdate.updatePost. rewrite run_row_trace.
    apply update_body_paced. }
  repeat split; auto using paced_writes_follow, paced_counts.
Qed.

End Pacing.

(** ** The duplicate gate *)

Ltac build_step :=
  first
    [ apply emits_call; repeat constructor
    | apply emits_sleep; repeat constructor
    | emits_step ].

Section DuplicateGate.
Context {N : NodeLib} {R : Remote}.

#[local] Instance builds_class : TraceClass builds.
Proof. exact (forall_class (fun e => build_event e = true)). Qed.

Lemma getOrCreateTerm_builds (name : str) (taxonomy : Taxonomy) (config : Config) :
  emits builds (getOrCreateTerm name taxonomy config).
Proof. unfold getOrCreateTerm. repeat build_step. Qed.

Lemma resolveTerms_loop_builds (names : list str) (taxonomy : Taxonomy)
  (config : Config) :
  forall termIds, emits builds (resolveTerms_loop names taxonomy config termIds).
Proof.
  induction names as [|name names IH]; intros termIds; cbn [resolveTerms_loop].
  - apply emits_ret. exact _.
  - apply emits_bind; [exact _ | apply getOrCreateTerm_builds | intros id].
    apply emits_bind; [exact _ | apply emits_sleep; repeat constructor | intros _].
    apply IH.
Qed.

Lemma add_terms_builds (k : string) (taxonomy : Taxonomy) (f : option str)
  (config : Config) (p : Payload) :
  emits builds (add_terms k taxonomy f config p).
Proof.
  unfold add_terms, resolveTerms. destruct (trimmed f); [|apply emits_ret; exact _].
  apply emits_bind; [exact _ | | intros ids; apply emits_ret; exact _].
  destruct (negb _); [apply emits_ret; exact _ | apply resolveTerms_loop_builds].
Qed.

Lemma create_uploadMedia_builds (src : str) : emits builds (BulkUpload.uploadMedia src).
Proof.
  unfold BulkUpload.uploadMedia.
  destruct (negb (nonempty (trim src))); [apply emits_ret; exact _|]. cbv zeta.
  apply emits_bind; [exact _ | |].
  - destruct (_ || _).
    + intros w. rewrite create_download_events. repeat constructor.
    + repeat build_step.
  - intros acquired. apply post_media_emits; [exact _|].
    intros f. repeat constructor.
Qed.

Lemma buildPostData_builds (row : Row) (config : Config) :
  emits builds (BulkUpload.buildPostData row config).
Proof.
  unfold BulkUpload.buildPostData.
  destruct (trimmed (title row)); [|apply emits_throw; exact _].
  destruct (trimmed (content row)); [|apply emits_throw; exact _]. cbv zeta.
  apply emits_bind; [exact _ | apply add_terms_builds | intros p1].
  apply emits_bind; [exact _ | apply add_terms_builds | intros p2].
  apply emits_bind; [exact _ | | intros p3; apply emits_ret; exact _].
  destruct (imagePath row); [|apply emits_ret; exact _].
  apply emits_bind; [exact _ | apply create_uploadMedia_builds |].
  intros m. apply emits_ret. exact _.
Qed.

Lemma builds_quiet (ev : list Event) :
  builds ev -> Forall (fun e => touches_post e = false) ev.
Proof.
  apply Forall_impl. intros [ms|r]; [reflexivity|]. now destruct r.
Qed.

Lemma listing_quiet (ev : list Event) :
  Forall (fun e => is_listing e = true) ev ->
  Forall (fun e => touches_post e = false) ev.
Proof.
  apply Forall_impl. intros [ms|r]; [reflexivity|]. now destruct r.
Qed.

(** The run of a create row up to the gate, when the search finds a post. *)
Lemma create_run_duplicate (row : Row) (n : nat) (config : Config)
  (pd : Payload) (found : option Z) (existing : Z)
  (w w1 w2 : World) (ev1 ev2 : list Event) :
  BulkUpload.buildPostData row config w = (inr pd, w1, ev1) ->
  findPostByTitle (str_field "title" pd) w1 = (inr found, w2, ev2) ->
  truthy found = Some existing ->
  BulkUpload.createOrUpdatePost row n config w
  = (record_error (BulkUpload.duplicate_error (str_field "title" pd) existing)
       (initial_result row n),
     w2, ev1 ++ ev2).
Proof.
  intros Hb Hf Ht.
  unfold BulkUpload.createOrUpdatePost, run_row, BulkUpload.createOrUpdatePost_try.
  unfold bind, lift, throw. cbn [fst snd]. rewrite Hb. cbn [fst snd].
  rewrite Hf, Ht. now rewrite app_nil_r.
Qed.


End DuplicateGate.

(** ** Runs on the small site *)

Module DemoFacts.
Import Demo.
#[local] Existing Instance lib.
#[local] Existing Instance site_remote.



(** C7, counterexample. A row that names the existing category News: the
    taxonomy search, a read, is followed by a pacing delay that stands next
    to no write. *)
Lemma term_lookup_is_delayed :
  let t := trace_of (BulkUpload.createOrUpdatePost news_row 1 config site) in
  firstn 3 t
  = [Call (GetTerms tax_categories (js "News") 100); Sleep 300; page_call 1]
  /\ delays_beside_writes None t = false
  /\ delays_beside_writes None t && writes_beside_delays None t = false.
Proof. cbv zeta. repeat split; vm_compute; reflexivity. Qed.

(** C8, witness. *)
Lemma empty_update_rejected_witness :
  let r := BulkUpdate.updatePost id_only_row 1 config site in
  action (result_of r) = None
  /\ error (result_of r)
     = Some (js "No fields to update. Provide at least one field to update.")
  /\ trace_of r = [Call (GetPost (js "5")); Call (GetPost (Z_to_str 5))]
  /\ Forall (fun e => is_write_event e = false) (trace_of r).
Proof.
  apply (@empty_update_rejected lib site_remote id_only_row 1 config (js "5")
           (as_post brunch) (as_post brunch) site site site).
  - reflexivity.
  - reflexivity.
  - repeat split; reflexivity.
  - reflexivity.
  - simpl. lia.
  - reflexivity.
Defined.

(** C10, witness. *)
Lemma slug_only_row_updates_witness :
  let r := BulkUpdate.updatePost slug_only_row 1 config site in
  action (result_of r) = Some updated
  /\ postId (result_of r) = Some 5%Z
  /\ error (result_of r) = None
  /\ trace_of r
     = [Call (GetPostsBySlug (js "weekend-brunch") 1);
        Call (GetPost (js "5")); Sleep 300;
        Call (UpdatePost 5 [("slug"%string, VStr (js "weekend-brunch"))])].
Proof.
  assert (C : no_update_columns slug_only_row) by (repeat split; reflexivity).
  apply (proj1 (@slug_only_row_updates lib site_remote slug_only_row 1 config C)
           (js "weekend-brunch") (as_post brunch) [] (as_post brunch)
           (as_post brunch) site site site site).
  - reflexivity.
  - reflexivity.
  - reflexivity.
  - simpl. lia.
  - reflexivity.
  - vm_compute. reflexivity.
Defined.

(** C6. The share link of the small site answers with a sign-in page, its
    direct-download address with a JPEG named photo.jpg.  Create mode
    fetches the rewritten address and uploads the image under a name
    reconciled with its type; update mode fetches the share link itself and
    uploads the sign-in page as media.  For an address that answers with an
    HTML page, create mode gives up (null, no upload); update mode uploads
    the page. *)
Theorem update_media_differs_from_create :
  events_of (BulkUpload.uploadMedia share_url site)
  = [Call (HttpGet (js "https://drive.google.com/uc?export=download&id=ABC123"));
     Sleep 300;
     Call (PostMedia (js "JFIF") (js "image/jpeg") (js "photo.jpeg"))]
  /\ events_of (BulkUpdate.uploadMedia share_url config site)
     = [Call (HttpGet (js "https://drive.google.com/file/d/ABC123/view"));
        Sleep 300;
        Call (PostMedia (js "<html>Sign in</html>")
                (js "text/html; charset=utf-8") (js "view"))]
  /\ outcome_of (BulkUpload.uploadMedia private_url site) = inr None
  /\ events_of (BulkUpload.uploadMedia private_url site)
     = [Call (HttpGet private_url)]
  /\ outcome_of (BulkUpdate.uploadMedia private_url config site) = inr (Some 100%Z)
  /\ events_of (BulkUpdate.uploadMedia private_url config site)
     = [Call (HttpGet private_url); Sleep 300;
        Call (PostMedia (js "<html>Sign in</html>")
                (js "text/html; charset=utf-8") (js "cat.png"))].
Proof. repeat split; vm_compute; reflexivity. Qed.

(** C9, witness: the share link of the small site, whose first /d/ segment
    names ABC123. *)
Lemma drive_link_witness :
  convertGoogleDriveUrl share_url
  = js "https://drive.google.com/uc?export=download&id=" ++ js "ABC123".
Proof.
  apply (proj1 drive_link_rewritten_before_fetch share_url (js "ABC123")).
  - reflexivity.
  - exists (js "https://drive.google.com/file"), (js "/view").
    split; [reflexivity|]. split; [discriminate|].
    split; [reflexivity|]. split; [reflexivity|].
    intros pre1 c rest E C.
    do 29 (destruct pre1 as [|? pre1]; [exfalso; simpl in E; discriminate E|]).
    simpl. lia.
Defined.

(** The cap at work: a title that no post of the big site has is searched
    on ten pages and not found. *)
Example search_stops_at_cap :
  outcome_of (findPostByTitle (js "Nothing like it") big_site) = inr None
  /\ events_of (findPostByTitle (js "Nothing like it") big_site)
     = map page_call (seq 1 10).
Proof. split; vm_compute; reflexivity. Qed.

(** C2, witness: a row without a title, reported to a callback that
    returns. *)
Lemma row_errors_caught_witness :
  Reporting.reports_return DemoReports.listening
  /\ Reporting.createOrUpdatePost DemoReports.listening blank_row 1 config site
     = (inr (result_of (BulkUpload.createOrUpdatePost blank_row 1 config site)),
        site, [])
  /\ error (result_of (BulkUpload.createOrUpdatePost blank_row 1 config site))
     = Some (js "Missing required field: title").
Proof.
  assert (Hr : Reporting.reports_return DemoReports.listening).
  { split; [reflexivity|]. intros callback kind result H.
    injection H as <-. reflexivity. }
  split; [exact Hr|].
  destruct (@row_errors_caught lib site_remote DemoReports.listening blank_row 1
              config site Hr) as [[E _] _].
  split; [rewrite E; reflexivity | reflexivity].
Defined.

(** C2, counterexample. With a progress callback that throws, the row
    functions raise: a row without a title is refused, the error is
    stored, and the report of that error in the [catch] block throws past
    the row boundary, in either mode.  With a callback that throws on the
    report of a success only, a row is created and yet returned with an
    error beside its action. *)
Lemma throwing_callback_raises :
  outcome_of (Reporting.createOrUpdatePost DemoReports.disconnected blank_row 1
                config site)
  = inl (Error (js "write after end"))
  /\ outcome_of (Reporting.updatePost DemoReports.disconnected blank_row 1
                   config site)
     = inl (Error (js "write after end"))
  /\ exists result,
       outcome_of (Reporting.createOrUpdatePost DemoReports.fails_on_success
                     news_row 1 config site) = inr result
       /\ action result = Some created
       /\ error result = Some (js "write after end")
       /\ ~ error_iff_none result.
Proof.
  split; [vm_compute; reflexivity|]. split; [vm_compute; reflexivity|].
  eexists. split; [vm_compute; reflexivity|].
  split; [reflexivity|]. split; [reflexivity|].
  unfold error_iff_none. cbn [error action]. intros [H _].
  assert (F : Some created = None) by (apply H; discriminate). discriminate.
Qed.

(** The response body is appended to the message only when it is truthy. *)
Example error_text_bodies :
  error_text {| message := js "Request failed with status code 500";
                response_data := Some (Falsy (quoted []));
                response_status := Some 500%Z |}
  = js "Request failed with status code 500"
  /\ error_text not_found_404
     = js "Request failed with status code 404: {code:rest_post_invalid_id}".
Proof. split; reflexivity. Qed.

(** C9, counterexample. A Drive link whose file identifier stands in the
    id parameter, after a parameter whose name ends in id: the rewrite
    takes the value of that other parameter. *)
Lemma drive_link_takes_first_id_text :
  includes (js "drive.google.com")
    (js "https://drive.google.com/open?ouid=123&id=FILE") = true
  /\ includes (js "&id=FILE")
       (js "https://drive.google.com/open?ouid=123&id=FILE") = true
  /\ convertGoogleDriveUrl (js "https://drive.google.com/open?ouid=123&id=FILE")
     = js "https://drive.google.com/uc?export=download&id=123"
  /\ convertGoogleDriveUrl (js "https://drive.google.com/open?ouid=123&id=FILE")
     <> js "https://drive.google.com/uc?export=download&id=FILE".
Proof.
  split; [reflexivity|]. split; [reflexivity|]. split; [reflexivity|].
  vm_compute. discriminate.
Qed.

End DemoFacts.

(* ===================================================================== *)
(** * Part III. Further properties of the pipeline *)
(* ===================================================================== *)

(** ** Titles *)

(** X1. A normalised title is in normal form: it holds no tag and no
    entity, its only white space is single spaces between other characters,
    it is in lower case and it is trimmed. *)
Theorem normalizeTitle_shape (s : str) :
  let t := normalizeTitle s in
  tagfree t /\ entfree t /\ wsnormal t /\ toLowerCase t = t /\ trim t = t.
Proof.
  destruct (normalizeTitle_normal s) as (HT & HE & HW & HL & HR).
  cbv zeta. repeat split; try assumption. now apply lowered_fixed.
Qed.

Lemma nomatch_tag_plain (s : str) : ~ In "<"%char s -> nomatch m_tag s.
Proof.
  induction s as [|c r IH]; intros H; [exact I|]. split.
  - simpl. destruct (Ascii.eqb_spec c "<") as [->|_]; [|reflexivity].
    exfalso. apply H. now left.
  - apply IH. intros J. apply H. now right.
Qed.

Lemma nomatch_amp_plain (m : matcher) (s : str) :
  (forall c r, c <> "&"%char -> m (c :: r) = None) ->
  ~ In "&"%char s -> nomatch m s.
Proof.
  intros Hm. induction s as [|c r IH]; intros H; [exact I|]. split.
  - apply Hm. intros ->. apply H. now left.
  - apply IH. intros J. apply H. now right.
Qed.

Lemma m_lit_other (x : ascii) (q : str) (c : ascii) (r : str) :
  c <> x -> m_lit (x :: q) (c :: r) = None.
Proof.
  intros Hc. unfold m_lit. simpl.
  destruct (Ascii.eqb_spec x c) as [->|_]; [contradiction | reflexivity].
Qed.

Lemma lead_lower (r : str) : lead is_space (toLowerCase r) = lead is_space r.
Proof.
  induction r as [|c r IH]; [reflexivity|]. simpl.
  rewrite to_lower_space. destruct (is_space c); [now rewrite IH | reflexivity].
Qed.

Lemma collapse_lower (s : str) (k : nat) :
  replace_from m_ws (js " ") k (toLowerCase s)
  = toLowerCase (replace_from m_ws (js " ") k s).
Proof.
  revert k. induction s as [|c r IH]; intros k; [reflexivity|].
  destruct k as [|k]; [|apply IH].
  cbn [toLowerCase map replace_from m_ws]. rewrite to_lower_space.
  destruct (is_space c).
  - change (map to_lower r) with (toLowerCase r). rewrite lead_lower.
    cbn [pred]. unfold toLowerCase in *. rewrite map_app. now rewrite IH.
  - unfold toLowerCase in *. cbn [map]. now rewrite IH.
Qed.

Lemma lower_keeps_out (x : ascii) (s : str) :
  (forall c, Ascii.eqb (to_lower c) x = Ascii.eqb c x) ->
  ~ In x s -> ~ In x (toLowerCase s).
Proof.
  intros E H I. apply in_map_iff in I. destruct I as [y [Ey Iy]].
  apply (to_lower_is _ _ (E y)) in Ey. now subst y.
Qed.

Lemma normalizeTitle_plain (s : str) :
  ~ In "<"%char s -> ~ In "&"%char s ->
  normalizeTitle s = trim (toLowerCase (replaceAll m_ws (js " ") s)).
Proof.
  intros HL HA. destruct s as [|c0 s0]; [reflexivity|].
  set (s := c0 :: s0) in *. unfold normalizeTitle. fold s. cbv zeta.
  rewrite (replaceAll_nomatch m_tag) by now apply nomatch_tag_plain.
  rewrite (replaceAll_nomatch (m_lit (js "&nbsp;")) _ s)
    by (apply nomatch_amp_plain; [intros; now apply m_lit_other | exact HA]).
  rewrite (replaceAll_nomatch (m_lit (js "&amp;")) _ s)
    by (apply nomatch_amp_plain; [intros; now apply m_lit_other | exact HA]).
  rewrite (replaceAll_nomatch (m_lit (js "&quot;")) _ s)
    by (apply nomatch_amp_plain; [intros; now apply m_lit_other | exact HA]).
  rewrite (replaceAll_nomatch (m_lit (js "&#8217;")) _ s)
    by (apply nomatch_amp_plain; [intros; now apply m_lit_other | exact HA]).
  rewrite (replaceAll_nomatch (m_lit (js "&#8216;")) _ s)
    by (apply nomatch_amp_plain; [intros; now apply m_lit_other | exact HA]).
  rewrite (replaceAll_nomatch (m_lit (js "&#39;")) _ s)
    by (apply nomatch_amp_plain; [intros; now apply m_lit_other | exact HA]).
  rewrite (replaceAll_nomatch (m_lit (js "&#038;")) _ s)
    by (apply nomatch_amp_plain; [intros; now apply m_lit_other | exact HA]).
  rewrite (replaceAll_nomatch m_entity)
    by (apply nomatch_amp_plain; [intros; now apply m_entity_other | exact HA]).
  reflexivity.
Qed.

(** X2. On a title without markup (no [<] and no [&]) normalisation is
    white-space collapse, lower case and trim, and it does not see case:
    the title in lower case has the same normal form. *)
Theorem plain_title_ignores_case (s : str) :
  ~ In "<"%char s -> ~ In "&"%char s ->
  normalizeTitle s = trim (toLowerCase (replaceAll m_ws (js " ") s))
  /\ normalizeTitle (toLowerCase s) = normalizeTitle s.
Proof.
  intros HL HA. split; [now apply normalizeTitle_plain|].
  rewrite (normalizeTitle_plain s HL HA).
  rewrite (normalizeTitle_plain (toLowerCase s)
             (lower_keeps_out _ _ to_lower_lt HL)
             (lower_keeps_out _ _ to_lower_amp HA)).
  unfold replaceAll. rewrite collapse_lower.
  f_equal. unfold toLowerCase. rewrite map_map.
  apply map_ext. intros c. apply to_lower_idem.
Qed.

Lemma plain_title_witness :
  normalizeTitle (js "Weekend   BRUNCH")
  = trim (toLowerCase (replaceAll m_ws (js " ") (js "Weekend   BRUNCH")))
  /\ normalizeTitle (toLowerCase (js "Weekend   BRUNCH"))
     = normalizeTitle (js "Weekend   BRUNCH").
Proof.
  apply plain_title_ignores_case; vm_compute; intuition discriminate.
Defined.

(** ** Share links and file names *)

Lemma capture_after_sound (prefix : str) (cls : ascii -> bool) (s g : str) :
  capture_after prefix cls s = Some g -> nonempty g = true /\ forallb cls g = true.
Proof.
  induction s as [|c r IH]; [discriminate|]. cbn [capture_after].
  destruct (startsWith prefix (c :: r)
            && (0 <? lead cls (skipn (length prefix) (c :: r)))) eqn:T;
    [|exact IH].
  intros H. injection H as <-. apply andb_true_iff in T. destruct T as [_ T].
  split; [|apply firstn_lead_all].
  destruct (skipn (length prefix) (c :: r)) as [|d rest]; [discriminate|].
  simpl in *. destruct (cls d); [reflexivity | discriminate].
Qed.

Lemma capture_none_in_run (x : ascii) (q : str) (cls : ascii -> bool) (g : str) :
  cls x = false -> forallb cls g = true -> capture_after (x :: q) cls g = None.
Proof.
  intros Hx. induction g as [|c g IH]; intros H; [reflexivity|].
  simpl in H. apply andb_true_iff in H. destruct H as [Hc Hg].
  cbn [capture_after startsWith].
  destruct (Ascii.eqb_spec x c) as [->|_]; [congruence|].
  cbn [andb]. now apply IH.
Qed.

Lemma lead_whole (cls : ascii -> bool) (g : str) :
  forallb cls g = true -> lead cls g = length g.
Proof.
  intros H. rewrite <- (app_nil_r g) at 1. now apply lead_run.
Qed.

Lemma convert_direct (g : str) :
  nonempty g = true -> forallb is_id_char g = true ->
  convertGoogleDriveUrl (direct_download ++ g) = direct_download ++ g.
Proof.
  intros Hn Hg.
  assert (D : capture_after (js "/d/") is_id_char (direct_download ++ g) = None).
  { cbn -[is_id_char]. now apply capture_none_in_run. }
  assert (Q : capture_after (js "id=") is_id_char (direct_download ++ g) = Some g).
  { cbn -[is_id_char lead firstn Nat.ltb].
    rewrite (lead_whole _ _ Hg), firstn_all.
    destruct g as [|c g]; [discriminate | reflexivity]. }
  unfold convertGoogleDriveUrl. rewrite D, Q. reflexivity.
Qed.

Lemma convert_cases (url : str) :
  convertGoogleDriveUrl url = url
  \/ exists g, nonempty g = true /\ forallb is_id_char g = true
               /\ convertGoogleDriveUrl url = direct_download ++ g.
Proof.
  unfold convertGoogleDriveUrl.
  destruct (negb (nonempty url)); [now left|].
  destruct (includes (js "drive.google.com") url); [|now left].
  destruct (capture_after (js "/d/") is_id_char url) as [g|] eqn:D.
  - right. exists g. destruct (capture_after_sound _ _ _ _ D). auto.
  - destruct (capture_after (js "id=") is_id_char url) as [g|] eqn:Q; [|now left].
    right. exists g. destruct (capture_after_sound _ _ _ _ Q). auto.
Qed.

(** X3. The link rewrite is idempotent: an address that was rewritten, or
    left alone, is left alone by a second pass. *)
Theorem convertGoogleDriveUrl_idempotent (url : str) :
  convertGoogleDriveUrl (convertGoogleDriveUrl url) = convertGoogleDriveUrl url.
Proof.
  destruct (convert_cases url) as [E|(g & Hn & Hg & E)]; rewrite E.
  - exact E.
  - now apply convert_direct.
Qed.

Lemma lead_until_quote (name rest : str) :
  ~ In dquote name ->
  lead (fun c => negb (Ascii.eqb c dquote)) (name ++ dquote :: rest) = length name.
Proof.
  intros H. apply lead_run.
  - apply forallb_forall. intros c I.
    destruct (Ascii.eqb_spec c dquote) as [->|_]; [contradiction | reflexivity].
  - reflexivity.
Qed.

Lemma match_filename_skip (r : str) :
  BulkUpload.match_filename (js "attachment; " ++ r) = BulkUpload.match_filename r.
Proof. reflexivity. Qed.

Lemma match_filename_quoted (name : str) :
  nonempty name = true -> ~ In dquote name ->
  BulkUpload.match_filename (js "filename=" ++ quoted name) = Some name.
Proof.
  intros Hn Hq.
  assert (E : BulkUpload.match_filename (js "filename=" ++ quoted name)
              = let n := lead (fun c => negb (Ascii.eqb c dquote)) (name ++ [dquote]) in
                if 0 <? n then Some (firstn n (name ++ [dquote]))
                else BulkUpload.match_filename (tl (js "filename=" ++ quoted name)))
    by reflexivity.
  rewrite E. cbv zeta. rewrite (lead_until_quote _ _ Hq), firstn_prefix.
  destruct name as [|c name]; [discriminate | reflexivity].
Qed.

(** X4. The header that uploadMedia writes is read back by the pattern of
    downloadImageFromUrl: from the text attachment; filename= followed by
    the quoted name, the pattern yields the name, for every name that is
    not empty and holds no double quote. *)
Theorem upload_disposition_read_back (name : str) :
  nonempty name = true -> ~ In dquote name ->
  BulkUpload.match_filename (upload_disposition name) = Some name.
Proof.
  intros Hn Hq. unfold upload_disposition.
  change (js "attachment; filename=" ++ quoted name)
    with (js "attachment; " ++ (js "filename=" ++ quoted name)).
  rewrite match_filename_skip. now apply match_filename_quoted.
Qed.

Lemma upload_disposition_witness :
  BulkUpload.match_filename (upload_disposition (js "photo.jpg"))
  = Some (js "photo.jpg").
Proof.
  apply upload_disposition_read_back; [reflexivity|].
  vm_compute. intuition discriminate.
Defined.

(** ** Term lists *)

Lemma In_trimStart (x : ascii) (s : str) : In x (trimStart s) -> In x s.
Proof.
  induction s as [|c r IH]; simpl; [tauto|].
  destruct (is_space c); [intros H; right; now apply IH | tauto].
Qed.

Lemma In_trim (x : ascii) (s : str) : In x (trim s) -> In x s.
Proof. intros H. now apply In_trimStart, In_trimEnd. Qed.

Lemma split_on_nonempty (sep : ascii) (s : str) : split_on sep s <> [].
Proof.
  destruct s as [|c r]; [discriminate|]. simpl.
  destruct (Ascii.eqb c sep); [discriminate|].
  destruct (split_on sep r); discriminate.
Qed.

Lemma split_on_pieces (sep : ascii) (s piece : str) :
  In piece (split_on sep s) -> ~ In sep piece.
Proof.
  revert piece. induction s as [|c r IH]; intros piece; simpl.
  - intros [<-|[]] [].
  - destruct (Ascii.eqb_spec c sep) as [->|Hc].
    + intros [<-|H]; [intros [] | now apply IH].
    + destruct (split_on sep r) as [|w ws] eqn:E.
      * intros [<-|[]] [H|[]]. congruence.
      * intros [<-|H].
        -- intros [H|H]; [congruence|]. apply (IH w); [now left | exact H].
        -- apply IH. now right.
Qed.

Lemma split_on_app (sep : ascii) (a b : str) :
  split_on sep (a ++ sep :: b) = split_on sep a ++ split_on sep b.
Proof.
  induction a as [|c a IH]; simpl.
  - now rewrite Ascii.eqb_refl.
  - destruct (Ascii.eqb c sep); [now rewrite IH|].
    rewrite IH. destruct (split_on sep a) as [|w ws] eqn:E; [|reflexivity].
    now destruct (split_on_nonempty sep a).
Qed.

(** X5. The names read from a comma-separated column are trimmed, not
    empty and free of commas, and reading composes: the names of two lists
    joined by a comma are the names of the first followed by the names of
    the second. *)
Theorem term_names_clean :
  (forall termString name,
      In name (term_names termString) ->
      trim name = name /\ nonempty name = true /\ ~ In ","%char name)
  /\ (forall a b, term_names (a ++ ","%char :: b) = term_names a ++ term_names b).
Proof.
  split.
  - intros termString name I. unfold term_names in I.
    apply filter_In in I. destruct I as [I Hn].
    apply in_map_iff in I. destruct I as [x [<- Ix]].
    split; [apply trim_idem|]. split; [exact Hn|].
    intros C. apply In_trim in C. now apply (split_on_pieces _ _ _ Ix).
  - intros a b. unfold term_names.
    now rewrite split_on_app, map_app, filter_app.
Qed.

Example term_names_example :
  term_names (js " News , ,Food,,  Weekend Brunch ")
  = [js "News"; js "Food"; js "Weekend Brunch"].
Proof. reflexivity. Qed.

Section Terms.
Context {N : NodeLib} {R : Remote}.

Lemma str_eqb_eq (a b : str) : str_eqb a b = true <-> a = b.
Proof.
  unfold str_eqb. destruct (list_eq_dec ascii_dec a b); split; congruence.
Qed.


End Terms.

Lemma trimEnd_nil (u : str) : trimEnd u = [] -> Forall (fun c => is_space c = true) u.
Proof.
  induction u as [|c r IH]; intros H; [constructor|]. simpl in H.
  destruct (trimEnd r) as [|d t]; [|discriminate].
  destruct (is_space c) eqn:S; [|discriminate].
  constructor; [exact S | now apply IH].
Qed.

Lemma trim_nil (s : str) : trim s = [] -> Forall (fun c => is_space c = true) s.
Proof.
  unfold trim. induction s as [|c r IH]; intros H; [constructor|].
  simpl in H. destruct (is_space c) eqn:S.
  - constructor; [exact S | now apply IH].
  - now apply trimEnd_nil.
Qed.

Lemma split_on_whole (sep : ascii) (s : str) : ~ In sep s -> split_on sep s = [s].
Proof.
  induction s as [|c r IH]; intros H; [reflexivity|]. simpl.
  destruct (Ascii.eqb_spec c sep) as [->|_]; [exfalso; apply H; now left|].
  rewrite IH; [reflexivity|]. intros I. apply H. now right.
Qed.

Lemma term_names_blank (s : str) : nonempty (trim s) = false -> term_names s = [].
Proof.
  intros H. assert (T : trim s = []) by (destruct (trim s); [reflexivity | discriminate]).
  unfold term_names. rewrite split_on_whole.
  - simpl. now rewrite T.
  - intros I. apply trim_nil in T. rewrite Forall_forall in T.
    specialize (T _ I). discriminate.
Qed.

Lemma term_names_trimmed (termString name : str) :
  In name (term_names termString) -> trim name = name.
Proof.
  intros I. apply filter_In in I. destruct I as [I _].
  apply in_map_iff in I. destruct I as [x [<- _]]. apply trim_idem.
Qed.

Section TermResolution.
Context {N : NodeLib} {R : Remote}.

Lemma truthy_some (o : option Z) (z : Z) : truthy o = Some z -> z <> 0%Z.
Proof.
  destruct o as [y|]; [|discriminate]. simpl.
  destruct (Z.eqb_spec y 0); [discriminate|]. intros H. now injection H as <-.
Qed.

Lemma resolveTerms_loop_run (names : list str) (taxonomy : Taxonomy) (config : Config) :
  Forall (fun name => nonempty (trim name) = true) names ->
  forall termIds w,
    exists ids,
      outcome_of (resolveTerms_loop names taxonomy config termIds w)
      = inr (termIds ++ ids)
      /\ length ids <= length names
      /\ Forall (fun z => z <> 0%Z) ids
      /\ filter is_term_search
           (events_of (resolveTerms_loop names taxonomy config termIds w))
         = map (fun n => Call (GetTerms taxonomy (trim n) 100)) names.
Proof.
  induction 1 as [|name names Hn _ IH]; intros termIds w.
  - exists []. rewrite app_nil_r. repeat split; constructor.
  - cbn [resolveTerms_loop]. rewrite outcome_bind, events_bind.
    destruct (getOrCreateTerm_run name taxonomy config w Hn) as [[id Ho] He].
    rewrite Ho. rewrite outcome_bind, events_bind.
    cbn [sleep outcome_of events_of state_of fst snd].
    match goal with
    | |- context [resolveTerms_loop names taxonomy config ?ids ?w'] =>
        destruct (IH ids w') as (more & Hout & Hlen & Hnz & Hev)
    end.
    rewrite Hout.
    assert (Search : filter is_term_search
                       (events_of (getOrCreateTerm name taxonomy config w))
                     = [Call (GetTerms taxonomy (trim name) 100)])
      by (destruct He as [-> | ->]; reflexivity).
    destruct (truthy id) as [i|] eqn:T.
    + exists (i :: more). rewrite <- app_assoc in Hout. cbn [app] in Hout.
      split; [now rewrite <- app_assoc|].
      split; [simpl; lia|].
      split; [constructor; [now apply (truthy_some id) | exact Hnz]|].
      rewrite !filter_app, Search, Hev. reflexivity.
    + exists more. split; [reflexivity|]. split; [simpl; lia|].
      split; [exact Hnz|].
      rewrite !filter_app, Search, Hev. reflexivity.
Qed.

Lemma resolveTerms_total (termString : str) (taxonomy : Taxonomy) (config : Config) :
  total (resolveTerms termString taxonomy config).
Proof.
  intros w. unfold resolveTerms. destruct (negb (nonempty (trim termString))).
  - now exists [].
  - destruct (resolveTerms_loop_run (term_names termString) taxonomy config
                (term_names_nonblank termString) [] w) as (ids & Ho & _).
    now exists ids.
Qed.

(** X7. resolveTerms never raises; it runs one taxonomy search per name
    of the column, in the order of the column, with the trimmed name; and
    it returns at most one identifier per name, none of them zero. *)
Theorem resolveTerms_one_search_per_name (termString : str) (taxonomy : Taxonomy)
  (config : Config) (w : World) :
  exists ids,
    outcome_of (resolveTerms termString taxonomy config w) = inr ids
    /\ length ids <= length (term_names termString)
    /\ Forall (fun z => z <> 0%Z) ids
    /\ filter is_term_search (events_of (resolveTerms termString taxonomy config w))
       = map (fun n => Call (GetTerms taxonomy n 100)) (term_names termString).
Proof.
  unfold resolveTerms. destruct (nonempty (trim termString)) eqn:B; cbn [negb].
  - destruct (resolveTerms_loop_run (term_names termString) taxonomy config
                (term_names_nonblank termString) [] w)
      as (ids & Ho & Hl & Hz & He).
    exists ids. repeat split; try assumption.
    rewrite He. apply map_ext_in. intros n I.
    now rewrite (term_names_trimmed _ _ I).
  - exists []. rewrite (term_names_blank _ B). repeat split; constructor.
Qed.

End TermResolution.

(** ** Rows that fail before any write *)

Section EarlyFailures.
Context {N : NodeLib} {R : Remote}.

(** X8. A create row whose title is absent or blank fails with the
    missing-title error, and a row with a title whose content is absent or
    blank fails with the missing-content error; either way the row has no
    action and no identifier, nothing was asked of the remote, no delay was
    awaited and the world is as before. *)
Theorem missing_required_field (row : Row) (n : nat) (config : Config) (w : World) :
  let r := BulkUpload.createOrUpdatePost row n config w in
  (trimmed (title row) = None ->
   error (result_of r) = Some (js "Missing required field: title")
   /\ action (result_of r) = None /\ postId (result_of r) = None
   /\ trace_of r = [] /\ world_of r = w)
  /\ (trimmed (title row) <> None -> trimmed (content row) = None ->
      error (result_of r) = Some (js "Missing required field: content")
      /\ action (result_of r) = None /\ postId (result_of r) = None
      /\ trace_of r = [] /\ world_of r = w).
Proof.
  cbv zeta. unfold BulkUpload.createOrUpdatePost, run_row,
    BulkUpload.createOrUpdatePost_try, BulkUpload.buildPostData.
  split.
  - intros ->. repeat split.
  - intros Ht ->. destruct (trimmed (title row)); [|contradiction].
    repeat split.
Qed.


(** The run of an update row whose identifier does not resolve. *)
Lemma update_run_unresolved (row : Row) (n : nat) (config : Config)
  (e : Exn) (w w1 : World) (ev : list Event) :
  BulkUpdate.resolve_target row w = (inl e, w1, ev) ->
  BulkUpdate.updatePost row n config w
  = (record_error e (initial_result row n), w1, ev).
Proof.
  intros H. unfold BulkUpdate.updatePost, run_row, BulkUpdate.updatePost_try.
  unfold bind, lift. cbn [fst snd]. now rewrite H.
Qed.

(** X9. In update mode the identifier columns are tried in the order
    post_id, slug, title and the first populated one decides: when post_id
    is populated and the look-up by id fails or finds nothing, the row
    fails with the not-found error for that id after this one request,
    whatever its slug and title; when post_id is blank and the populated
    slug matches no post, the row fails in the same way without a look-up
    by title; and a row without any identifier fails at once. *)
Theorem unresolved_identifier_fails (row : Row) (n : nat) (config : Config) (w : World) :
  let r := BulkUpdate.updatePost row n config w in
  (forall ref o w1,
      trimmed (post_id row) = Some ref ->
      remote (GetPost ref) w = (o, w1) ->
      match o with inl _ => True | inr p => p_id p = 0%Z end ->
      error (result_of r)
      = Some (js "Post with ID " ++ quoted (raw_of (post_id row)) ++ js " not found")
      /\ action (result_of r) = None /\ postId (result_of r) = None
      /\ trace_of r = [Call (GetPost ref)])
  /\ (forall s o w1,
        trimmed (post_id row) = None ->
        trimmed (slug row) = Some s ->
        remote (GetPostsBySlug s 1) w = (o, w1) ->
        match o with
        | inl _ | inr [] => True
        | inr (p :: _) => p_id p = 0%Z
        end ->
        error (result_of r)
        = Some (js "Post with slug " ++ quoted (raw_of (slug row)) ++ js " not found")
        /\ action (result_of r) = None /\ postId (result_of r) = None
        /\ trace_of r = [Call (GetPostsBySlug s 1)])
  /\ (trimmed (post_id row) = None -> trimmed (slug row) = None ->
      trimmed (title row) = None ->
      error (result_of r)
      = Some (js "Missing identifier: must provide post_id, slug, or title")
      /\ action (result_of r) = None /\ postId (result_of r) = None
      /\ trace_of r = []).
Proof.
  cbv zeta. split; [|split].
  - intros ref o w1 Hid Hr Ho.
    destruct (trimmed_fixed _ _ Hid) as [_ Hn].
    rewrite (update_run_unresolved row n config
               (BulkUpdate.not_found "ID" (post_id row)) w w1 [Call (GetPost ref)]).
    + repeat split.
    + unfold BulkUpdate.resolve_target. rewrite Hid.
      unfold BulkUpdate.findPostById, BulkUpdate.found_or. rewrite Hn. cbn [negb].
      unfold bind, try_catch, call. rewrite Hr.
      destruct o as [e|p]; cbn [ret throw app truthy p_id]; [reflexivity|].
      now rewrite Ho.
  - intros s o w1 Hid Hs Hr Ho.
    destruct (trimmed_fixed _ _ Hs) as [Ht Hn].
    rewrite (update_run_unresolved row n config
               (BulkUpdate.not_found "slug" (slug row)) w w1
               [Call (GetPostsBySlug s 1)]).
    + repeat split.
    + unfold BulkUpdate.resolve_target. rewrite Hid, Hs.
      unfold findPostBySlug, BulkUpdate.found_or. rewrite Ht, Hn. cbn [negb].
      unfold bind, try_catch, call. rewrite Hr.
      destruct o as [e|[|p ps]]; cbn [ret throw app truthy p_id]; try reflexivity.
      now rewrite Ho.
  - intros Hid Hs Ht.
    rewrite (update_run_unresolved row n config
               (Error (js "Missing identifier: must provide post_id, slug, or title"))
               w w []).
    + repeat split.
    + unfold BulkUpdate.resolve_target. now rewrite Hid, Hs, Ht.
Qed.


End EarlyFailures.

Lemma missing_required_field_witness :
  let r := @BulkUpload.createOrUpdatePost Demo.lib Demo.site_remote
             (Demo.row_of (Some (js "Title")) (Some (js "   ")) None None None)
             1 Demo.config Demo.site in
  error (result_of r) = Some (js "Missing required field: content")
  /\ action (result_of r) = None /\ postId (result_of r) = None
  /\ trace_of r = [] /\ world_of r = Demo.site.
Proof.
  apply (proj2 (@missing_required_field Demo.lib Demo.site_remote
                  (Demo.row_of (Some (js "Title")) (Some (js "   ")) None None None)
                  1 Demo.config Demo.site)).
  - discriminate.
  - reflexivity.
Defined.

Lemma unresolved_identifier_witness :
  let r := @BulkUpdate.updatePost Demo.lib Demo.site_remote
             (Demo.row_of (Some (js "Weekend Brunch")) None
                (Some (js "weekend-brunch")) None (Some (js "999999")))
             1 Demo.config Demo.site in
  error (result_of r)
  = Some (js "Post with ID " ++ quoted (js "999999") ++ js " not found")
  /\ action (result_of r) = None /\ postId (result_of r) = None
  /\ trace_of r = [Call (GetPost (js "999999"))].
Proof.
  apply (proj1 (@unresolved_identifier_fails Demo.lib Demo.site_remote
                  (Demo.row_of (Some (js "Weekend Brunch")) None
                     (Some (js "weekend-brunch")) None (Some (js "999999")))
                  1 Demo.config Demo.site)
           (js "999999") (inl Demo.not_found_404) Demo.site).
  - reflexivity.
  - reflexivity.
  - exact I.
Defined.

(** ** Media ingestion in create mode *)

Section MediaEdges.
Context {N : NodeLib} {R : Remote}.

Lemma create_download_total (u : str) : total (BulkUpload.downloadImageFromUrl u).
Proof. apply total_try_catch. intros e. apply total_ret. Qed.

Lemma post_media_total (ms : Z) (acquired : option Downloaded) :
  total
    (match acquired return M World (option Z) with
     | None => ret None
     | Some file =>
         try_catch
           (sleep ms ;;;
            id <- call (PostMedia (buffer file) (mimeType file) (fileName file)) ;;
            ret (Some id))
           (fun _ => ret None)
     end).
Proof.
  destruct acquired; [|apply total_ret].
  apply total_try_catch. intros e. apply total_ret.
Qed.

(** X10. For an http(s) source, create-mode uploadMedia never raises; and
    when the fetch of the (rewritten) address fails, or answers with a
    content type that holds text/html, the result is null after that one
    request: nothing is uploaded and no delay is awaited. *)
Theorem remote_image_never_fails_the_row (src : str) (w : World) :
  startsWith (js "http://") (trim src) || startsWith (js "https://") (trim src) = true ->
  let url := convertGoogleDriveUrl (trim src) in
  (exists r, outcome_of (BulkUpload.uploadMedia src w) = inr r)
  /\ (forall e w1,
        remote (HttpGet url) w = (inl e, w1) ->
        BulkUpload.uploadMedia src w = (inr None, w1, [Call (HttpGet url)]))
  /\ (forall response w1,
        remote (HttpGet url) w = (inr response, w1) ->
        includes (js "text/html") (raw_of (content_type response)) = true ->
        BulkUpload.uploadMedia src w = (inr None, w1, [Call (HttpGet url)])).
Proof.
  intros H. cbv zeta. unfold BulkUpload.uploadMedia.
  rewrite (http_nonempty _ H), H. cbv zeta. cbn [negb].
  split; [|split].
  - apply total_bind; [apply create_download_total|].
    intros acquired. apply post_media_total.
  - intros e w1 Hr. unfold BulkUpload.downloadImageFromUrl.
    unfold bind, try_catch, call. now rewrite Hr.
  - intros response w1 Hr Hh. unfold BulkUpload.downloadImageFromUrl.
    unfold bind, try_catch, call. rewrite Hr, Hh. reflexivity.
Qed.

(** X11. For a local source, create-mode uploadMedia first asks whether the
    file exists: a missing file gives null after that one question, with no
    upload; a file that exists but cannot be read makes uploadMedia raise
    the error of the read, again before any upload. *)
Theorem local_image_edges (src : str) (w : World) :
  nonempty (trim src) = true ->
  startsWith (js "http://") (trim src) || startsWith (js "https://") (trim src) = false ->
  let fullPath := path_resolve (trim src) in
  (forall w1,
      remote (FsExists fullPath) w = (inr false, w1) ->
      BulkUpload.uploadMedia src w = (inr None, w1, [Call (FsExists fullPath)]))
  /\ (forall w1 e w2,
        remote (FsExists fullPath) w = (inr true, w1) ->
        remote (FsRead fullPath) w1 = (inl e, w2) ->
        BulkUpload.uploadMedia src w
        = (inl e, w2, [Call (FsExists fullPath); Call (FsRead fullPath)])).
Proof.
  intros Hn Hu. cbv zeta. unfold BulkUpload.uploadMedia.
  rewrite Hn, Hu. cbv zeta. cbn [negb].
  split.
  - intros w1 Hr. unfold bind, call. now rewrite Hr.
  - intros w1 e w2 He Hr. unfold bind, call. rewrite He. cbn [negb]. now rewrite Hr.
Qed.

End MediaEdges.

Lemma remote_image_witness :
  (exists r, outcome_of (@BulkUpload.uploadMedia Demo.lib Demo.site_remote
                           Demo.private_url Demo.site) = inr r)
  /\ @BulkUpload.uploadMedia Demo.lib Demo.site_remote Demo.private_url Demo.site
     = (inr None, Demo.site, [Call (HttpGet Demo.private_url)]).
Proof.
  destruct (@remote_image_never_fails_the_row Demo.lib Demo.site_remote
              Demo.private_url Demo.site eq_refl) as (T & _ & H).
  split; [exact T|].
  apply (H Demo.login_page Demo.site); reflexivity.
Defined.

Lemma local_image_witness :
  @BulkUpload.uploadMedia Demo.lib Demo.site_remote (js " images/cat.png ") Demo.site
  = (inr None, Demo.site, [Call (FsExists (js "/app/images/cat.png"))]).
Proof.
  apply (proj1 (@local_image_edges Demo.lib Demo.site_remote
                  (js " images/cat.png ") Demo.site eq_refl eq_refl) Demo.site).
  reflexivity.
Defined.

(** ** Payloads *)

Section PayloadFacts.
Context {N : NodeLib} {R : Remote}.

Lemma get_set_key (x k : string) (v : Value) (p : Payload) :
  get_key x (set_key k v p) = if String.eqb x k then Some v else get_key x p.
Proof.
  induction p as [|[k0 v0] r IH]; simpl.
  - reflexivity.
  - destruct (String.eqb_spec k k0) as [->|Hk]; simpl.
    + now destruct (String.eqb x k0).
    + rewrite IH. destruct (String.eqb_spec x k0) as [->|Hx]; [|reflexivity].
      destruct (String.eqb_spec k0 k) as [->|_]; [contradiction | reflexivity].
Qed.

Lemma get_set_if (x k : string) (o : option Value) (p : Payload) :
  String.eqb x k = false -> get_key x (set_if k o p) = get_key x p.
Proof.
  intros H. destruct o as [v|]; [|reflexivity]. simpl. now rewrite get_set_key, H.
Qed.

Lemma get_add_text (x k : string) (f : option str) (p : Payload) :
  get_key x (add_text k f p)
  = if String.eqb x k
    then match trimmed f with Some v => Some (VStr v) | None => get_key x p end
    else get_key x p.
Proof.
  unfold add_text. destruct (trimmed f) as [v|].
  - apply get_set_key.
  - now destruct (String.eqb x k).
Qed.

Lemma get_add_acf (x : string) (f : option str) (p : Payload) :
  String.eqb x "acf" = false -> get_key x (add_acf f p) = get_key x p.
Proof.
  intros H. unfold add_acf. destruct (trimmed f); [|reflexivity].
  destruct (JSON_parse (raw_of f)); [|reflexivity]. now rewrite get_set_key, H.
Qed.

Lemma keys_set_key (Q : string -> Prop) (k : string) (v : Value) (p : Payload) :
  Q k -> Forall Q (map fst p) -> Forall Q (map fst (set_key k v p)).
Proof.
  intros Hk. induction p as [|[k0 v0] r IH]; intros H; simpl.
  - now constructor.
  - inversion H as [|? ? H0 Hr]; subst.
    destruct (String.eqb k k0); simpl; constructor; auto.
Qed.

Lemma keys_set_if (Q : string -> Prop) (k : string) (o : option Value) (p : Payload) :
  Q k -> Forall Q (map fst p) -> Forall Q (map fst (set_if k o p)).
Proof. intros Hk H. destruct o; [now apply keys_set_key | exact H]. Qed.

Lemma keys_add_text (Q : string -> Prop) (k : string) (f : option str) (p : Payload) :
  Q k -> Forall Q (map fst p) -> Forall Q (map fst (add_text k f p)).
Proof.
  intros Hk H. unfold add_text. destruct (trimmed f); [now apply keys_set_key | exact H].
Qed.

Lemma keys_add_acf (Q : string -> Prop) (f : option str) (p : Payload) :
  Q "acf"%string -> Forall Q (map fst p) -> Forall Q (map fst (add_acf f p)).
Proof.
  intros Hk H. unfold add_acf. destruct (trimmed f); [|exact H].
  destruct (JSON_parse (raw_of f)); [now apply keys_set_key | exact H].
Qed.

Lemma update_field_listed (k : string) :
  existsb (String.eqb k) update_fields = true -> In k update_fields.
Proof.
  intros E. apply existsb_exists in E. destruct E as (x & I & E).
  apply String.eqb_eq in E. now subst.
Qed.

(** What a term column adds: nothing, or the list of resolved ids. *)
Lemma add_terms_result (k : string) (taxonomy : Taxonomy) (f : option str)
  (config : Config) (p : Payload) (w : World) :
  exists o,
    outcome_of (add_terms k taxonomy f config p w) = inr (set_if k o p)
    /\ (o <> None -> trimmed f <> None).
Proof.
  unfold add_terms. destruct (trimmed f) as [t|].
  - rewrite outcome_bind.
    destruct (resolveTerms_total (raw_of f) taxonomy config w) as [ids ->].
    destruct ids as [|i ids].
    + exists None. split; [reflexivity | congruence].
    + exists (Some (VIds (i :: ids))). split; [reflexivity | congruence].
  - exists None. split; [reflexivity | congruence].
Qed.

End PayloadFacts.

Section SparsePayload.
Context {N : NodeLib} {R : Remote}.

(** The payload of an update: the text columns, then what terms and media
    added. *)
Lemma buildUpdateData_result (row : Row) (config : Config) (w : World) (p : Payload) :
  outcome_of (BulkUpdate.buildUpdateData row config w) = inr p ->
  exists c t m,
    p = set_if "featured_media" m
          (set_if "tags" t (set_if "categories" c (update_base row)))
    /\ (c <> None -> trimmed (categories row) <> None)
    /\ (t <> None -> trimmed (tags row) <> None)
    /\ (m <> None -> imagePath row <> None).
Proof.
  unfold BulkUpdate.buildUpdateData. cbv zeta. fold (update_base row).
  rewrite outcome_bind.
  destruct (add_terms_result "categories" tax_categories (categories row) config
              (update_base row) w) as (c & -> & Hc).
  rewrite outcome_bind.
  match goal with
  | |- context [add_terms "tags" tax_tags (tags row) config ?q ?w'] =>
      destruct (add_terms_result "tags" tax_tags (tags row) config q w')
        as (t & -> & Ht)
  end.
  destruct (imagePath row) as [image|].
  - rewrite outcome_bind. destruct (outcome_of _) as [e|mediaId]; [discriminate|].
    intros H. injection H as <-.
    destruct (truthy mediaId) as [m|].
    + exists c, t, (Some (VNum m)). repeat split; auto; discriminate.
    + exists c, t, None. repeat split; auto; congruence.
  - intros H. injection H as <-. exists c, t, None. repeat split; auto; congruence.
Qed.

Ltac text_field :=
  unfold update_base;
  repeat first
    [ rewrite get_set_if by reflexivity
    | rewrite get_add_acf by reflexivity
    | rewrite get_add_text ];
  cbn [String.eqb Ascii.eqb Bool.eqb get_key];
  repeat match goal with
         | |- context [trimmed ?f] => destruct (trimmed f)
         end; try reflexivity; try congruence.

(** X12. The payload of an update row is sparse: a text field (title,
    content, status, slug, excerpt) is in it exactly when its column is
    populated, with the trimmed text; acf, categories, tags and
    featured_media are in it only when their column is populated; and it
    holds no other field (the SEO columns are never sent by an update). *)
Theorem update_payload_is_sparse (row : Row) (config : Config) (w : World) (p : Payload) :
  outcome_of (BulkUpdate.buildUpdateData row config w) = inr p ->
  get_key "title" p = option_map VStr (trimmed (title row))
  /\ get_key "content" p = option_map VStr (trimmed (content row))
  /\ get_key "status" p = option_map VStr (trimmed (status row))
  /\ get_key "slug" p = option_map VStr (trimmed (slug row))
  /\ get_key "excerpt" p = option_map VStr (trimmed (excerpt row))
  /\ (get_key "acf" p <> None -> trimmed (acf_json row) <> None)
  /\ (get_key "categories" p <> None -> trimmed (categories row) <> None)
  /\ (get_key "tags" p <> None -> trimmed (tags row) <> None)
  /\ (get_key "featured_media" p <> None -> imagePath row <> None)
  /\ Forall (fun k => In k update_fields) (map fst p).
Proof.
  intros H. destruct (buildUpdateData_result _ _ _ _ H) as (c & t & m & -> & Hc & Ht & Hm).
  split; [text_field|]. split; [text_field|]. split; [text_field|].
  split; [text_field|]. split; [text_field|].
  split.
  { rewrite !get_set_if by reflexivity. unfold update_base, add_acf.
    destruct (trimmed (acf_json row)); [congruence|].
    intros G. exfalso. apply G. text_field. }
  split.
  { rewrite !get_set_if by reflexivity.
    destruct c as [v|]; [intros _; apply Hc; congruence|].
    intros G. exfalso. apply G. cbn [set_if]. text_field. }
  split.
  { rewrite get_set_if by reflexivity.
    destruct t as [v|]; [intros _; apply Ht; congruence|].
    intros G. exfalso. apply G. cbn [set_if]. text_field. }
  split.
  { destruct m as [v|]; [intros _; apply Hm; congruence|].
    intros G. exfalso. apply G. cbn [set_if]. text_field. }
  unfold update_base.
  repeat first
    [ apply keys_set_if; [apply update_field_listed; reflexivity|]
    | apply keys_add_acf; [apply update_field_listed; reflexivity|]
    | apply keys_add_text; [apply update_field_listed; reflexivity|] ].
  constructor.
Qed.

End SparsePayload.

Lemma update_payload_witness :
  let p := [("status"%string, @VStr Demo.lib (js "publish"))] in
  get_key "title" p = option_map VStr (trimmed (title Demo.status_only_row))
  /\ get_key "content" p = option_map VStr (trimmed (content Demo.status_only_row))
  /\ get_key "status" p = option_map VStr (trimmed (status Demo.status_only_row))
  /\ get_key "slug" p = option_map VStr (trimmed (slug Demo.status_only_row))
  /\ get_key "excerpt" p = option_map VStr (trimmed (excerpt Demo.status_only_row))
  /\ (get_key "acf" p <> None -> trimmed (acf_json Demo.status_only_row) <> None)
  /\ (get_key "categories" p <> None -> trimmed (categories Demo.status_only_row) <> None)
  /\ (get_key "tags" p <> None -> trimmed (tags Demo.status_only_row) <> None)
  /\ (get_key "featured_media" p <> None -> imagePath Demo.status_only_row <> None)
  /\ Forall (fun k => In k update_fields) (map fst p).
Proof.
  exact (@update_payload_is_sparse Demo.lib Demo.site_remote Demo.status_only_row
           Demo.config Demo.site _ eq_refl).
Defined.

Section CreatePayload.
Context {N : NodeLib} {R : Remote}.

Lemma create_uploadMedia_outcome (image : str) (w : World) :
  forall p : Payload,
    exists o : Exn + Payload,
      outcome_of
        ((mediaId <- BulkUpload.uploadMedia image ;;
          ret (match truthy mediaId with
               | Some m => set_key "featured_media" (VNum m) p
               | None => p
               end)) w) = o
      /\ forall q, o = inr q -> exists m, q = set_if "featured_media" m p.
Proof.
  intros p. eexists. split; [reflexivity|]. intros q. rewrite outcome_bind.
  destruct (outcome_of (BulkUpload.uploadMedia image w)) as [e|mediaId];
    [discriminate|].
  intros H. injection H as <-. destruct (truthy mediaId) as [m|].
  - now exists (Some (VNum m)).
  - now exists None.
Qed.

Lemma buildPostData_result (row : Row) (config : Config) (w : World) (p : Payload) :
  outcome_of (BulkUpload.buildPostData row config w) = inr p ->
  exists titleText contentText c t m,
    trimmed (title row) = Some titleText
    /\ trimmed (content row) = Some contentText
    /\ p = BulkUpload.add_seo row
             (set_if "featured_media" m
                (set_if "tags" t
                   (set_if "categories" c
                      (create_base row config titleText contentText)))).
Proof.
  unfold BulkUpload.buildPostData.
  destruct (trimmed (title row)) as [titleText|]; [|discriminate].
  destruct (trimmed (content row)) as [contentText|]; [|discriminate].
  cbv zeta. fold (create_base row config titleText contentText).
  rewrite outcome_bind.
  destruct (add_terms_result "categories" tax_categories (categories row) config
              (create_base row config titleText contentText) w) as (c & -> & _).
  rewrite outcome_bind.
  match goal with
  | |- context [add_terms "tags" tax_tags (tags row) config ?q ?w'] =>
      destruct (add_terms_result "tags" tax_tags (tags row) config q w')
        as (t & -> & _)
  end.
  rewrite outcome_bind.
  destruct (imagePath row) as [image|].
  - match goal with
    | |- context [outcome_of (bind (BulkUpload.uploadMedia image) ?k ?w')] =>
        destruct (create_uploadMedia_outcome image w'
                    (set_if "tags" t
                       (set_if "categories" c
                          (create_base row config titleText contentText))))
          as (o & Ho & Hq)
    end.
    rewrite Ho. destruct o as [e|q]; [discriminate|].
    destruct (Hq q eq_refl) as [m ->].
    intros H. injection H as <-. now exists titleText, contentText, c, t, m.
  - intros H. injection H as <-. now exists titleText, contentText, c, t, None.
Qed.

Ltac create_field row :=
  unfold BulkUpload.add_seo, create_base;
  destruct (trimmed (meta_title row));
  destruct (trimmed (meta_description row));
  destruct (trimmed (focus_keyword row));
  repeat first
    [ rewrite get_set_key
    | rewrite get_set_if by reflexivity
    | rewrite get_add_acf by reflexivity
    | rewrite get_add_text ];
  repeat match goal with
         | |- context [String.eqb ?a ?b] =>
             let v := eval vm_compute in (String.eqb a b) in
             change (String.eqb a b) with v
         end;
  cbv iota;
  repeat match goal with
         | |- context [trimmed ?f] => destruct (trimmed f)
         end;
  reflexivity.

(** X13. The payload that a create row builds holds the trimmed title and
    content, the trimmed status or else the configured default, the slug
    and the excerpt exactly when their columns are populated; and each SEO
    column fans out to all of its field names with one value: the meta
    title and the meta description to the generic, Yoast and Rank Math
    names, the focus keyword to the Yoast and Rank Math names only. *)
Theorem create_payload_fields (row : Row) (config : Config) (w : World) (p : Payload) :
  outcome_of (BulkUpload.buildPostData row config w) = inr p ->
  get_key "title" p = option_map VStr (trimmed (title row))
  /\ get_key "content" p = option_map VStr (trimmed (content row))
  /\ get_key "status" p
     = Some (VStr (or_str (trimmed (status row)) (default_status config)))
  /\ get_key "slug" p = option_map VStr (trimmed (slug row))
  /\ get_key "excerpt" p = option_map VStr (trimmed (excerpt row))
  /\ (get_key "meta_title" p = option_map VStr (trimmed (meta_title row))
      /\ get_key "_yoast_wpseo_title" p = option_map VStr (trimmed (meta_title row))
      /\ get_key "rank_math_title" p = option_map VStr (trimmed (meta_title row)))
  /\ (get_key "meta_description" p = option_map VStr (trimmed (meta_description row))
      /\ get_key "_yoast_wpseo_metadesc" p
         = option_map VStr (trimmed (meta_description row))
      /\ get_key "rank_math_description" p
         = option_map VStr (trimmed (meta_description row)))
  /\ (get_key "_yoast_wpseo_focuskw" p = option_map VStr (trimmed (focus_keyword row))
      /\ get_key "rank_math_focus_keyword" p
         = option_map VStr (trimmed (focus_keyword row))
      /\ get_key "focus_keyword" p = None).
Proof.
  intros H.
  destruct (buildPostData_result _ _ _ _ H)
    as (titleText & contentText & c & t & m & Ht & Hc & ->).
  rewrite Ht, Hc. cbn [option_map].
  repeat split; create_field row.
Qed.

(** The title of the payload is the trimmed title of the row. *)
Lemma buildPostData_title (row : Row) (config : Config) (w : World) (p : Payload) :
  outcome_of (BulkUpload.buildPostData row config w) = inr p ->
  trimmed (title row) = Some (str_field "title" p).
Proof.
  intros H.
  destruct (buildPostData_result _ _ _ _ H)
    as (titleText & contentText & c & t & m & Ht & Hc & ->).
  rewrite Ht. f_equal. unfold str_field.
  assert (G : get_key "title"
                (BulkUpload.add_seo row
                   (set_if "featured_media" m
                      (set_if "tags" t
                         (set_if "categories" c
                            (create_base row config titleText contentText)))))
              = Some (VStr titleText)) by create_field row.
  now rewrite G.
Qed.

End CreatePayload.


Lemma create_payload_witness :
  let p := match outcome_of (@BulkUpload.buildPostData Demo.lib Demo.site_remote
                               Demo.seo_row Demo.config Demo.site) with
           | inr p => p
           | inl _ => []
           end in
  get_key "title" p = Some (VStr (js "Opening hours"))
  /\ get_key "status" p = Some (VStr (js "draft"))
  /\ get_key "rank_math_title" p = Some (VStr (js "Hours"))
  /\ get_key "_yoast_wpseo_focuskw" p = Some (VStr (js "hours"))
  /\ get_key "focus_keyword" p = None.
Proof.
  destruct (@create_payload_fields Demo.lib Demo.site_remote Demo.seo_row
              Demo.config Demo.site _ eq_refl)
    as (T & _ & S & _ & _ & (_ & _ & M) & _ & (F & _ & G)).
  repeat split; assumption.
Defined.

(** ** What the title search finds *)

Section FirstMatch.
Context {N : NodeLib} {R : Remote}.

Lemma str_eqb_refl (a : str) : str_eqb a a = true.
Proof. now apply str_eqb_eq. Qed.

Lemma str_eqb_neq (a b : str) : a <> b -> str_eqb a b = false.
Proof.
  intros H. destruct (str_eqb a b) eqn:E; [|reflexivity].
  apply str_eqb_eq in E. contradiction.
Qed.

Lemma scan_first (norm : str) (pre : list Post) (p : Post) (post : list Post) (t : str) :
  Forall (differs norm) pre ->
  postTitleRaw p = Some t -> normalizeTitle t = norm ->
  scan_posts (pre ++ p :: post) norm = Found (p_id p).
Proof.
  intros Hpre Hp Ht. induction Hpre as [|q pre (u & Hu & Hd) _ IH]; simpl.
  - now rewrite Hp, Ht, str_eqb_refl.
  - now rewrite Hu, (str_eqb_neq _ _ Hd).
Qed.

Lemma scan_raised (norm : str) (pre : list Post) (q : Post) (post : list Post) :
  Forall (differs norm) pre ->
  postTitleRaw q = None ->
  scan_posts (pre ++ q :: post) norm = Raised.
Proof.
  intros Hpre Hq. induction Hpre as [|x pre (u & Hu & Hd) _ IH]; simpl.
  - now rewrite Hq.
  - now rewrite Hu, (str_eqb_neq _ _ Hd).
Qed.

Lemma findPostByTitle_first_page (t : str) (w w1 : World) (ps : list Post) :
  nonempty (trim t) = true ->
  remote (ListPosts (listing 1)) w = (inr ps, w1) ->
  ps <> [] ->
  scan_posts ps (normalizeTitle t) <> NotFound ->
  findPostByTitle t w
  = (inr match scan_posts ps (normalizeTitle t) with
         | Found id => Some id
         | _ => None
         end, w1, [page_call 1]).
Proof.
  intros Hn Hr Hps Hs. unfold findPostByTitle. rewrite Hn. cbn [negb].
  unfold try_catch, bind. cbn [title_pages]. unfold bind, call. rewrite Hr.
  destruct ps as [|q ps]; [contradiction|].
  destruct (scan_posts (q :: ps) (normalizeTitle t)); try reflexivity.
  contradiction.
Qed.

(** X14. The first match wins: when the first page of the listing holds
    a post whose title has the normal form of the searched title, and the
    posts listed before it have text titles with other normal forms, the
    search returns the identifier of that post after this one request. *)
Theorem first_match_wins (t : str) (w w1 : World)
  (pre : list Post) (p : Post) (post : list Post) (found : str) :
  nonempty (trim t) = true ->
  remote (ListPosts (listing 1)) w = (inr (pre ++ p :: post), w1) ->
  Forall (differs (normalizeTitle t)) pre ->
  postTitleRaw p = Some found ->
  normalizeTitle found = normalizeTitle t ->
  findPostByTitle t w
  = (inr (Some (p_id p)), w1, [Call (ListPosts (listing 1))]).
Proof.
  intros Hn Hr Hpre Hp Ht.
  rewrite (findPostByTitle_first_page t w w1 _ Hn Hr);
    rewrite ?(scan_first _ _ _ _ _ Hpre Hp Ht);
    [reflexivity | now destruct pre | discriminate].
Qed.

(** X15. A listed post whose title object has neither rendered nor raw
    text ends the search: when such a post stands on the first page before
    any match, the search answers null after this one request, also when a
    post with the searched title follows it. *)
Theorem untitled_post_ends_search (t : str) (w w1 : World)
  (pre : list Post) (q : Post) (post : list Post) (rendered raw : option str) :
  nonempty (trim t) = true ->
  remote (ListPosts (listing 1)) w = (inr (pre ++ q :: post), w1) ->
  Forall (differs (normalizeTitle t)) pre ->
  p_title q = TitleObject rendered raw ->
  or_str rendered [] = [] -> or_str raw [] = [] ->
  findPostByTitle t w = (inr None, w1, [Call (ListPosts (listing 1))]).
Proof.
  intros Hn Hr Hpre Hq Hre Hra.
  assert (Q : postTitleRaw q = None).
  { unfold postTitleRaw. rewrite Hq.
    destruct rendered as [[|c r]|]; try discriminate;
      destruct raw as [[|c' r']|]; try discriminate; reflexivity. }
  rewrite (findPostByTitle_first_page t w w1 _ Hn Hr);
    rewrite ?(scan_raised _ _ _ post Hpre Q);
    [reflexivity | now destruct pre | discriminate].
Qed.

Lemma slug_lookup_quiet (s : str) : emits (Forall quiet_read) (findPostBySlug s).
Proof.
  unfold findPostBySlug. repeat emits_step.
  apply emits_call. repeat constructor.
Qed.

Lemma id_lookup_quiet (ref : str) : emits (Forall quiet_read) (BulkUpdate.findPostById ref).
Proof.
  unfold BulkUpdate.findPostById. repeat emits_step.
  apply emits_call. repeat constructor.
Qed.

(** X16. The three look-ups (by slug, by id, by title) never raise, and
    they only read: none of them writes to the remote or awaits a delay. *)
Theorem lookups_only_read (s ref t : str) (w : World) :
  ((exists r, outcome_of (findPostBySlug s w) = inr r)
   /\ Forall quiet_read (events_of (findPostBySlug s w)))
  /\ ((exists r, outcome_of (BulkUpdate.findPostById ref w) = inr r)
      /\ Forall quiet_read (events_of (BulkUpdate.findPostById ref w)))
  /\ ((exists r, outcome_of (findPostByTitle t w) = inr r)
      /\ Forall quiet_read (events_of (findPostByTitle t w))).
Proof.
  repeat split.
  - unfold findPostBySlug. destruct (negb _); [now exists None|].
    apply total_try_catch. intros e. apply total_ret.
  - apply slug_lookup_quiet.
  - unfold BulkUpdate.findPostById. destruct (negb _); [now exists None|].
    apply total_try_catch. intros e. apply total_ret.
  - apply id_lookup_quiet.
  - apply findPostByTitle_total.
  - destruct (findPostByTitle_events t w) as [k [_ ->]].
    apply Forall_forall. intros e I. apply in_map_iff in I.
    destruct I as [q [<- _]]. now split.
Qed.

End FirstMatch.

Lemma first_match_witness :
  @findPostByTitle Demo.lib Demo.site_remote (js " WEEKEND  brunch") Demo.site
  = (inr (Some 5%Z), Demo.site, [Call (ListPosts (listing 1))]).
Proof.
  apply (@first_match_wins Demo.lib Demo.site_remote (js " WEEKEND  brunch")
           Demo.site Demo.site [] (Demo.as_post Demo.brunch)
           [Demo.as_post Demo.welcome] (js "Weekend Brunch")).
  - reflexivity.
  - reflexivity.
  - constructor.
  - reflexivity.
  - vm_compute. reflexivity.
Defined.

Lemma untitled_post_witness :
  @findPostByTitle Demo.lib Demo.site_remote (js "Weekend Brunch") Demo.draft_site
  = (inr None, Demo.draft_site, [Call (ListPosts (listing 1))]).
Proof.
  apply (@untitled_post_ends_search Demo.lib Demo.site_remote (js "Weekend Brunch")
           Demo.draft_site Demo.draft_site [] (Demo.as_post Demo.untitled)
           [Demo.as_post Demo.brunch; Demo.as_post Demo.welcome]
           (Some []) None).
  - reflexivity.
  - reflexivity.
  - constructor.
  - reflexivity.
  - reflexivity.
  - reflexivity.
Defined.

(** ** The duplicate gate, from the listing *)

Section DuplicateDetection.
Context {N : NodeLib} {R : Remote}.

Lemma scan_none (norm : str) (posts : list Post) :
  Forall (differs norm) posts -> scan_posts posts norm = NotFound.
Proof.
  induction 1 as [|q posts (u & Hu & Hd) _ IH]; [reflexivity|].
  simpl. now rewrite Hu, (str_eqb_neq _ _ Hd).
Qed.

(** The search reads the listing up to the first post with the searched
    title and answers with the identifier of that post. *)
Lemma listed_found (norm : str) (p : nat) (w : World) (hit : Post) (w' : World)
  (ev : list Event) :
  listed norm p w hit w' ev ->
  forall fuel, 11 <= fuel + p ->
    title_pages fuel p norm w = (inr (Some (Some (p_id hit))), w', ev).
Proof.
  induction 1 as [p w w1 pre hit post Hp Hr Hpre (t & Ht & Hn)
                 |p w w1 posts hit w2 ev Hp Hr Hfull Hnone _ IH];
    intros fuel Hf; (destruct fuel as [|fuel]; [lia|]);
    cbn [title_pages]; unfold bind, call; rewrite Hr.
  - rewrite (scan_first norm pre hit post t Hpre Ht Hn).
    now destruct pre.
  - rewrite (scan_none norm posts Hnone).
    destruct posts as [|q posts]; [unfold perPage in Hfull; simpl in Hfull; lia|].
    destruct (Nat.ltb_spec (length (q :: posts)) perPage) as [L|_]; [lia|].
    destruct (Nat.ltb_spec 10 (S p)) as [L|_]; [lia|].
    rewrite (IH fuel) by lia. reflexivity.
Qed.

Lemma findPostByTitle_listed (t : str) (w : World) (hit : Post) (w' : World)
  (ev : list Event) :
  nonempty (trim t) = true ->
  listed (normalizeTitle t) 1 w hit w' ev ->
  findPostByTitle t w = (inr (Some (p_id hit)), w', ev).
Proof.
  intros Hn Hl. unfold findPostByTitle. rewrite Hn. cbn [negb].
  unfold try_catch, bind.
  rewrite (listed_found _ _ _ _ _ _ Hl 10) by lia.
  cbn. now rewrite app_nil_r.
Qed.



Lemma create_run_listed (row : Row) (n : nat) (config : Config) (w : World)
  (pd : Payload) (w1 : World) (ev1 : list Event) (hit : Post) (w2 : World)
  (ev2 : list Event) :
  BulkUpload.buildPostData row config w = (inr pd, w1, ev1) ->
  listed (normalizeTitle (str_field "title" pd)) 1 w1 hit w2 ev2 ->
  p_id hit <> 0%Z ->
  let r := BulkUpload.createOrUpdatePost row n config w in
  trimmed (title row) = Some (str_field "title" pd)
  /\ action (result_of r) = None
  /\ postId (result_of r) = None
  /\ error (result_of r)
     = Some (js "Post with title " ++ quoted (str_field "title" pd)
             ++ js " already exists (ID: " ++ Z_to_str (p_id hit)
             ++ js "). Duplicate posts are not allowed.")
  /\ trace_of r = ev1 ++ ev2
  /\ Forall (fun e => touches_post e = false) (trace_of r).
Proof.
  intros Hb Hl Hid r. subst r.
  assert (Ht : trimmed (title row) = Some (str_field "title" pd)).
  { apply (buildPostData_title row config w). now rewrite Hb. }
  assert (Hn : nonempty (trim (str_field "title" pd)) = true).
  { destruct (title row) as [s|]; [|discriminate]. cbn [trimmed] in Ht.
    destruct (nonempty (trim s)) eqn:E; [|discriminate].
    injection Ht as <-. now rewrite trim_idem. }
  pose proof (findPostByTitle_listed _ _ _ _ _ Hn Hl) as Hf.
  rewrite (create_run_duplicate row n config pd (Some (p_id hit)) (p_id hit)
             w w1 w2 ev1 ev2 Hb Hf (truthy_nonzero _ Hid)).
  split; [exact Ht|]. repeat split.
  cbn [trace_of snd]. apply Forall_app. split.
  - pose proof (buildPostData_builds row config w) as B. rewrite Hb in B.
    now apply builds_quiet.
  - pose proof (findPostByTitle_listing (str_field "title" pd) w1) as L.
    rewrite Hf in L. now apply listing_quiet.
Qed.


End DuplicateDetection.

Module GateFacts.
Import Demo.
#[local] Existing Instance lib.
#[local] Existing Instance site_remote.


(** A hundred newer posts in front of the brunch post: the search finds it
    on the second page, and the row fails at the gate. *)
Example duplicate_on_second_page :
  let r := BulkUpload.createOrUpdatePost late_duplicate_row 1 config crowded_site in
  action (result_of r) = None
  /\ error (result_of r)
     = Some (js "Post with title " ++ quoted (js "weekend   brunch")
             ++ js " already exists (ID: 5). Duplicate posts are not allowed.")
  /\ trace_of r = [page_call 1; page_call 2].
Proof.
  cbv zeta.
  destruct (@create_run_listed lib site_remote late_duplicate_row 1 config
              crowded_site
              [("title"%string, VStr (js "weekend   brunch"));
               ("content"%string, VStr (js "Eggs and coffee."));
               ("status"%string, VStr (js "draft"))]
              crowded_site [] (as_post brunch) crowded_site
              [page_call 1; page_call 2])
    as (_ & A & _ & E & T & _).
  - reflexivity.
  - apply (@listed_later lib site_remote _ 1 crowded_site crowded_site
             (map as_post (map filler (seq 1 100)))).
    + lia.
    + vm_compute. reflexivity.
    + vm_compute. lia.
    + apply Forall_forall. intros q I. apply in_map_iff in I.
      destruct I as (sp & <- & I). apply in_map_iff in I.
      destruct I as (i & <- & _).
      exists (js "Filler"). split; [reflexivity | vm_compute; discriminate].
    + apply (@listed_here lib site_remote _ 2 crowded_site crowded_site []
               (as_post brunch) []).
      * lia.
      * vm_compute. reflexivity.
      * constructor.
      * exists (js "Weekend Brunch").
        split; [reflexivity | vm_compute; reflexivity].
  - discriminate.
  - now repeat split.
Qed.

End GateFacts.

(** ** Post writes *)

Section PostWrites.
Context {N : NodeLib} {R : Remote}.

#[local] Instance no_post_write_class : TraceClass no_post_write.
Proof. exact (forall_class (fun e => is_post_write e = false)). Qed.

#[local] Instance builds_traces : TraceClass builds.
Proof. exact (forall_class (fun e => build_event e = true)). Qed.













End PostWrites.

(** ** The batch drivers *)

Section BatchFacts.
Context {N : NodeLib} {R : Remote} {H : Host}.

Lemma create_labels : Batch.labels_rows BulkUpload.createOrUpdatePost.
Proof.
  intros row n config w. pose proof (create_result row n config w) as Hr.
  destruct (outcome_of _) as [e|u].
  - rewrite Hr. repeat split; cbn; intros; try reflexivity; discriminate.
  - destruct Hr as (a & data & ->).
    repeat split; cbn; intros; try reflexivity; try discriminate; congruence.
Qed.

Lemma update_labels : Batch.labels_rows BulkUpdate.updatePost.
Proof.
  intros row n config w. pose proof (update_result row n config w) as Hr.
  cbv zeta in Hr.
  destruct (outcome_of (BulkUpdate.resolve_target row w)) as [e|target].
  - destruct Hr as [_ ->].
    repeat split; cbn; intros; try reflexivity; discriminate.
  - destruct (outcome_of _) as [e|u].
    + rewrite Hr. repeat split; cbn; intros; try reflexivity; discriminate.
    + destruct Hr as (data & ->).
      repeat split; cbn; intros; try reflexivity; try discriminate; congruence.
Qed.


Lemma row_function_paces (m : Batch.Mode) : Batch.paces_rows (Batch.row_function m).
Proof.
  intros row n config w. destruct m; cbn [Batch.row_function].
  - unfold BulkUpload.createOrUpdatePost. rewrite run_row_trace.
    apply create_body_paced.
  - unfold BulkUpdate.updatePost. rewrite run_row_trace.
    apply update_body_paced.
Qed.

Lemma row_events_app (a b : list Batch.Step) :
  Batch.row_events (a ++ b) = Batch.row_events a ++ Batch.row_events b.
Proof.
  induction a as [|s a IH]; [reflexivity|].
  destruct s; cbn; now rewrite ?IH.
Qed.

Lemma row_events_did (ev : list Event) : Batch.row_events (map Batch.Did ev) = ev.
Proof. induction ev as [|e ev IH]; cbn; now rewrite ?IH. Qed.

Lemma is_log_app (a b : list Batch.Step) :
  existsb Batch.is_log (a ++ b) = existsb Batch.is_log a || existsb Batch.is_log b.
Proof. apply existsb_app. Qed.

Lemma row_loop_results (f : Batch.RowFunction) (L : Batch.labels_rows f)
  (config : Config) (rows : list Row) :
  forall (i : nat) (acc : list Outcome) (w : World),
  exists news,
    fst (fst (Batch.row_loop f config rows i acc w)) = acc ++ news
    /\ map rowNumber news = seq (i + 1) (length rows)
    /\ map resTitle news = map Batch.shown_title rows
    /\ Forall error_iff_none news.
Proof.
  induction rows as [|row rest IH]; intros i acc w; cbn [Batch.row_loop].
  - exists []. rewrite app_nil_r. repeat split; constructor.
  - pose proof (L row (i + 1) config w) as (La & Lb & Lc).
    destruct (f row (i + 1) config w) as [[result w1] ev].
    destruct (IH (i + 1) (acc ++ [result]) w1) as (news & H1 & H2 & H3 & H4).
    destruct (Batch.row_loop f config rest (i + 1) (acc ++ [result]) w1)
      as [[final w2] t].
    unfold result_of in La, Lb, Lc. cbn [fst snd] in *.
    exists (result :: news). rewrite H1, <- app_assoc.
    split; [reflexivity|]. cbn [map length seq].
    rewrite La, Lb, H2, H3. replace (i + 1 + 1) with (S (i + 1)) by lia.
    repeat split. now constructor.
Qed.

Lemma row_loop_steps (f : Batch.RowFunction) (P : Batch.paces_rows f)
  (config : Config) (rows : list Row) :
  forall (i : nat) (acc : list Outcome) (w : World),
    paced (Batch.row_events (snd (Batch.row_loop f config rows i acc w)))
    /\ existsb Batch.is_log (snd (Batch.row_loop f config rows i acc w)) = false.
Proof.
  induction rows as [|row rest IH]; intros i acc w; cbn [Batch.row_loop].
  - split; [constructor | reflexivity].
  - pose proof (P row (i + 1) config w) as Pr.
    destruct (f row (i + 1) config w) as [[result w1] ev].
    destruct (IH (i + 1) (acc ++ [result]) w1) as [I1 I2].
    destruct (Batch.row_loop f config rest (i + 1) (acc ++ [result]) w1)
      as [[final w2] t].
    unfold trace_of in Pr. cbn [fst snd] in *.
    rewrite row_events_app, row_events_did, is_log_app, I2. split.
    + now apply paced_app.
    + rewrite orb_false_r. clear. induction ev as [|e ev IH]; [reflexivity|exact IH].
Qed.


Lemma count_none (p : Outcome -> bool) (l : list Outcome) :
  length (filter (fun r => negb (p r)) l) = 0 <-> Forall (fun r => p r = true) l.
Proof.
  induction l as [|r l IH]; cbn.
  - split; [constructor | reflexivity].
  - destruct (p r) eqn:E; cbn.
    + rewrite IH. split; [now constructor | now inversion 1].
    + split; [discriminate | inversion 1; congruence].
Qed.

Lemma success_or_empty (r : Outcome) :
  error_iff_none r -> Batch.no_error r = true -> Batch.counted_as_success r.
Proof.
  unfold error_iff_none, Batch.no_error, Batch.counted_as_success.
  intros [E1 E2] Hn. destruct (error r) as [[|c t]|]; try discriminate.
  - now right.
  - left. intros Ha. now apply E2 in Ha.
Qed.

Lemma paced_exists_test (fullPath : str) : paced [Call (FsExists fullPath)].
Proof. apply paced_read; [reflexivity | discriminate | constructor]. Qed.


Ltac run_driver f :=
  unfold Batch.checkConnectivityWithApi, Batch.loadCsv;
  destruct (probe _) as [[cause|] w1];
  [| destruct (remote (FsExists _) w1) as [[cause|[|]] w2];
     [| destruct (read_records _ w2) as [[cause|[|row rows]] w3] |] ].





Lemma process_file_paced (logName : str) (f : Batch.RowFunction)
  (P : Batch.paces_rows f) (csvPath clientName : str) (clientConfig : Config)
  (w : World) :
  paced (Batch.row_events
           (Batch.steps_of (Batch.process_file logName f csvPath clientName clientConfig w))).
Proof.
  unfold Batch.process_file, Batch.steps_of.
  run_driver f; cbn [fst snd app Batch.row_events];
    try apply paced_exists_test; try constructor.
  pose proof (row_loop_steps f P clientConfig (row :: rows) 0 [] w3) as [Hp _].
  destruct (Batch.row_loop f clientConfig (row :: rows) 0 [] w3)
    as [[logResults w4] t3].
  destruct (writeFileSync _ logResults w4) as [o w5].
  cbn [fst snd app Batch.row_events] in *.
  rewrite row_events_app. cbn [Batch.row_events]. rewrite app_nil_r.
  apply paced_read; [reflexivity | discriminate | exact Hp].
Qed.

Lemma main_of_paced (logName : str) (f : Batch.RowFunction)
  (P : Batch.paces_rows f) (csvPath : str) (w : World) :
  paced (Batch.row_events (snd (Batch.main_of logName f csvPath w))).
Proof.
  unfold Batch.main_of.
  run_driver f; cbn [fst snd app Batch.row_events];
    try apply paced_exists_test; try constructor.
  pose proof (row_loop_steps f P defaultConfig (row :: rows) 0 [] w3) as [Hp _].
  destruct (Batch.row_loop f defaultConfig (row :: rows) 0 [] w3)
    as [[logResults w4] t3].
  cbv zeta.
  destruct (writeFileSync _ logResults w4) as [[o|] w5];
    cbn [fst snd app Batch.row_events] in *;
    rewrite row_events_app; cbn [Batch.row_events]; rewrite app_nil_r;
    (apply paced_read; [reflexivity | discriminate | exact Hp]).
Qed.

(** X20. A whole batch keeps the pacing of its rows: in either mode, for
    the exported driver and for the command line, the requests and delays
    of the run, from the existence test of the CSV file to the last row,
    follow the pacing grammar, so every remote write of the batch comes
    directly after a delay. *)
Theorem batch_is_paced (m : Batch.Mode) (csvPath clientName : str)
  (clientConfig : Config) (w : World) :
  let served := Batch.row_events
                  (Batch.steps_of (Batch.exported m csvPath clientName clientConfig w)) in
  let cli := Batch.row_events (snd (Batch.main m csvPath w)) in
  (paced served /\ writes_follow_delays false served = true)
  /\ (paced cli /\ writes_follow_delays false cli = true).
Proof.
  cbv zeta.
  assert (S : paced (Batch.row_events
                       (Batch.steps_of (Batch.exported m csvPath clientName clientConfig w)))).
  { destruct m; apply process_file_paced;
      [apply (row_function_paces Batch.create_mode)
      | apply (row_function_paces Batch.update_mode)]. }
  assert (C : paced (Batch.row_events (snd (Batch.main m csvPath w)))).
  { destruct m; apply main_of_paced;
      [apply (row_function_paces Batch.create_mode)
      | apply (row_function_paces Batch.update_mode)]. }
  repeat split; auto using paced_writes_follow.
Qed.

Lemma main_of_exit_zero (logName : str) (f : Batch.RowFunction)
  (L : Batch.labels_rows f) (csvPath : str) (w : World) :
  let run := Batch.main_of logName f csvPath w in
  Batch.exit_code run = 0 ->
  Forall Batch.counted_as_success (Batch.logged run)
  /\ (Batch.logged run = []
      \/ exists before,
           snd run = before ++ [Batch.WriteLog (Batch.log_path logName) (Batch.logged run)]).
Proof.
  cbv zeta. unfold Batch.main_of, Batch.exit_code, Batch.logged.
  run_driver f; cbn [fst snd]; try discriminate; try (intros _; split; [constructor | now left]).
  destruct (row_loop_results f L defaultConfig (row :: rows) 0 [] w3)
    as (news & H1 & _ & _ & H4).
  destruct (Batch.row_loop f defaultConfig (row :: rows) 0 [] w3)
    as [[logResults w4] t3].
  cbv zeta. cbn [fst snd app] in *. subst logResults.
  destruct (writeFileSync _ news w4) as [[o|] w5]; cbn [fst snd]; [discriminate|].
  destruct (0 <? Batch.failedCount news) eqn:F; [discriminate|]. intros _.
  apply Nat.ltb_ge in F. assert (F0 : Batch.failedCount news = 0) by lia.
  apply count_none in F0. split.
  - apply Forall_forall. intros r I.
    apply success_or_empty.
    + eapply Forall_forall in H4; eauto.
    + eapply Forall_forall in F0; eauto.
  - right. eexists (_ :: _ :: _ :: t3). reflexivity.
Qed.

(** X21. Exit code 0 of the command line: in either mode, when the run
    ends with exit code 0, every row that was processed has an action, or
    an error whose text is empty; and either no row was processed, or the
    last step of the run was the write of the log with these results. *)
Theorem exit_zero_means_no_failed_row (m : Batch.Mode) (csvPath : str) (w : World) :
  let run := Batch.main m csvPath w in
  Batch.exit_code run = 0 ->
  Forall Batch.counted_as_success (Batch.logged run)
  /\ (Batch.logged run = []
      \/ exists before logName,
           snd run = before ++ [Batch.WriteLog (Batch.log_path logName) (Batch.logged run)]).
Proof.
  cbv zeta. intros E.
  destruct m; cbn [Batch.main] in *;
    [destruct (main_of_exit_zero (js "import_log.json") _ create_labels csvPath w E)
       as [A [B|[before B]]]
    | destruct (main_of_exit_zero (js "update_log.json") _ update_labels csvPath w E)
       as [A [B|[before B]]] ];
    (split; [exact A|]); eauto.
Qed.

End BatchFacts.

Module BatchFacts.

#[local] Existing Instance Demo.lib.
#[local] Existing Instance DemoBatch.disk_remote.



Lemma exit_zero_witness :
  Batch.exit_code (DemoBatch.cli Batch.create_mode "new.csv" DemoBatch.host) = 0
  /\ map action (Batch.logged (DemoBatch.cli Batch.create_mode "new.csv" DemoBatch.host))
     = [Some created]
  /\ Forall Batch.counted_as_success
       (Batch.logged (DemoBatch.cli Batch.create_mode "new.csv" DemoBatch.host)).
Proof.
  split; [vm_compute; reflexivity|]. split; [vm_compute; reflexivity|].
  apply (@exit_zero_means_no_failed_row Demo.lib DemoBatch.disk_remote DemoBatch.host
           Batch.create_mode (js "new.csv") Demo.site).
  vm_compute. reflexivity.
Defined.

(** On a file system that cannot be written the exported driver still
    returns its summary; the command line ends with exit code 1 although
    its only row was created. *)
Example unwritable_log :
  (exists s,
     Batch.returned (DemoBatch.served Batch.create_mode "new.csv" DemoBatch.readonly_host)
     = inr s
     /\ (Batch.total s, Batch.success s, Batch.failed s) = (1, 1, 0)
     /\ Batch.logPath s = js "/tmp/import_log.json")
  /\ Batch.exit_code (DemoBatch.cli Batch.create_mode "new.csv" DemoBatch.readonly_host) = 1
  /\ map action
       (Batch.logged (DemoBatch.cli Batch.create_mode "new.csv" DemoBatch.readonly_host))
     = [Some created].
Proof.
  split; [eexists; split; [vm_compute; reflexivity|]; split; vm_compute; reflexivity|].
  split; vm_compute; reflexivity.
Qed.

(** An empty CSV file: the exported driver raises, the command line ends
    with exit code 0; neither processes a row. *)
Example empty_csv :
  Batch.returned (DemoBatch.served Batch.create_mode "empty.csv" DemoBatch.host)
  = inl (Error (js "CSV file is empty"))
  /\ Batch.exit_code (DemoBatch.cli Batch.create_mode "empty.csv" DemoBatch.host) = 0
  /\ Batch.logged (DemoBatch.cli Batch.create_mode "empty.csv" DemoBatch.host) = [].
Proof. repeat split; vm_compute; reflexivity. Qed.

End BatchFacts.
